(** * Wash: RQL numeric predicates, entry schemas and the dataflow reader

    A shallow embedding of parts of the Wash code base (Go):
    - [api/rql/internal/predicate/numeric.go]: the numeric predicate, its
      marshalling and its evaluation over arbitrary-precision decimals;
    - [plugin/entrySchema.go]: construction of entry schemas and the assembly
      of the schema graph ([fill], [MarshalJSON]);
    - [gcp/dataflow.go]: the reader of dataflow job messages;
    together with models of the collaborators these files call. *)

From Stdlib Require Import ZArith NArith QArith Qpower List Ascii String Bool Lia Lqa Floats.
From Stdlib Require Import DecimalString DecimalN DecimalPos.
Import ListNotations.

Set Warnings "-register-all".

Local Open Scope Z_scope.
Local Open Scope list_scope.

(** ** Go values

    The dynamically typed values ([interface{}]) that JSON decoding produces
    and that [Marshal] returns.  A JSON object is kept as an association list:
    its order is the order in which a [range] loop visits the keys. *)

Inductive value : Type :=
| Nil
| Bool (b : bool)
| Float64 (f : float)
| Str (s : string)
| Array (l : list value)
| Object (m : list (string * value)).

Definition bytes := list ascii.

Definition b2s (l : bytes) : string := string_of_list_ascii l.
Definition s2b (s : string) : bytes := list_ascii_of_string s.

(** ** Decimal digits *)

Definition is_digit (c : ascii) : bool :=
  ((48 <=? N_of_ascii c) && (N_of_ascii c <=? 57))%N.

Definition digit_val (c : ascii) : N := (N_of_ascii c - 48)%N.

Fixpoint parse_acc (acc : N) (l : bytes) : option N :=
  match l with
  | [] => Some acc
  | c :: r => if is_digit c then parse_acc (acc * 10 + digit_val c)%N r else None
  end.

(** A non-empty run of decimal digits, read as a natural number. *)
Definition parse_digits (l : bytes) : option N :=
  match l with
  | [] => None
  | _ => parse_acc 0%N l
  end.

(** The decimal digits of a natural number, most significant first. *)
Definition digits (n : N) : bytes := s2b (NilZero.string_of_uint (N.to_uint n)).

(** ** Outcomes

    A Go call either returns or panics. *)

Inductive go (A : Type) : Type :=
| Ret (a : A)
| Panic (msg : string).
Arguments Ret {A} a.
Arguments Panic {A} msg.

(** ** Arbitrary-precision decimals

    Modelled from the spec: the operand of a numeric predicate is "an
    arbitrary-precision decimal" that marshals "as string to preserve
    precision".  The code takes it from the third-party package
    [shopspring/decimal], which is not part of the repository; the model
    follows that package: a decimal is [value * 10 ^ exp] with an integer
    coefficient of unbounded size and a 32-bit exponent. *)

Module decimal.

Record Decimal : Type := mk { value : Z; exp : Z }.

Definition New (v e : Z) : Decimal := mk v e.

(** [decimal.Zero] is [New(0, 1)]. *)
Definition Zero : Decimal := New 0 1.

(** The rational number a decimal denotes. *)
Definition toQ (d : Decimal) : Q := (inject_Z (value d) * Qpower (10 # 1) (exp d))%Q.

Definition rescale (d : Decimal) (e : Z) : Decimal :=
  if exp d =? e then d
  else
    let diff := Z.abs (e - exp d) in
    let expScale := 10 ^ diff in
    if exp d <? e then mk (Z.quot (value d) expScale) e
    else mk (value d * expScale) e.

Definition RescalePair (d1 d2 : Decimal) : Decimal * Decimal :=
  if exp d1 =? exp d2 then (d1, d2)
  else
    let baseScale := Z.min (exp d1) (exp d2) in
    if negb (baseScale =? exp d1) then (rescale d1 baseScale, d2)
    else (d1, rescale d2 baseScale).

Definition bigCmp (x y : Z) : Z :=
  match x ?= y with Lt => -1 | Eq => 0 | Gt => 1 end.

Definition Cmp (d d2 : Decimal) : Z :=
  if exp d =? exp d2 then bigCmp (value d) (value d2)
  else let '(rd, rd2) := RescalePair d d2 in bigCmp (value rd) (value rd2).

Definition Equal (d d2 : Decimal) : bool := Cmp d d2 =? 0.
Definition GreaterThan (d d2 : Decimal) : bool := Cmp d d2 =? 1.
Definition GreaterThanOrEqual (d d2 : Decimal) : bool :=
  let cmp := Cmp d d2 in (cmp =? 1) || (cmp =? 0).
Definition LessThan (d d2 : Decimal) : bool := Cmp d d2 =? -1.
Definition LessThanOrEqual (d d2 : Decimal) : bool :=
  let cmp := Cmp d d2 in (cmp =? -1) || (cmp =? 0).

(** [big.Int.String]: the digits, after a minus sign for a negative number. *)
Definition bigString (z : Z) : bytes :=
  (if z <? 0 then ["-"%char] else []) ++ digits (Z.abs_N z).

(** [big.Int.SetString(s, 10)]: an optional sign, then at least one digit and
    nothing else. *)
Definition SetString (l : bytes) : option Z :=
  match l with
  | [] => None
  | c :: r =>
      if Ascii.eqb c "-" then option_map (fun n => - Z.of_N n) (parse_digits r)
      else if Ascii.eqb c "+" then option_map Z.of_N (parse_digits r)
      else option_map Z.of_N (parse_digits l)
  end.

Fixpoint drop_zeros (l : bytes) : bytes :=
  match l with
  | [] => []
  | c :: r => if Ascii.eqb c "0" then drop_zeros r else l
  end.

Definition TrimRightZeros (l : bytes) : bytes := rev (drop_zeros (rev l)).

Definition string_bytes (d : Decimal) : bytes :=
  if 0 <=? exp d then bigString (value (rescale d 0))
  else
    let str := digits (Z.abs_N (value d)) in
    let n := Z.to_nat (- exp d) in
    let '(intPart, fractionalPart) :=
      if (n <? List.length str)%nat
      then (firstn (List.length str - n) str, skipn (List.length str - n) str)
      else (["0"%char], repeat "0"%char (n - List.length str) ++ str) in
    let fractionalPart := TrimRightZeros fractionalPart in
    let number :=
      match fractionalPart with
      | [] => intPart
      | _ => intPart ++ "."%char :: fractionalPart
      end in
    if value d <? 0 then "-"%char :: number else number.

(** [Decimal.String]: plain decimal notation without trailing zeros. *)
Definition String (d : Decimal) : string := b2s (string_bytes d).

(** The text before the first byte satisfying [p], and the text after it. *)
Fixpoint break_at (p : ascii -> bool) (l : bytes) : bytes * option bytes :=
  match l with
  | [] => ([], None)
  | c :: r =>
      if p c then ([], Some r)
      else let '(a, b) := break_at p r in (c :: a, b)
  end.

Definition is_dot (c : ascii) : bool := Ascii.eqb c ".".
Definition is_e (c : ascii) : bool := Ascii.eqb c "e" || Ascii.eqb c "E".

Definition MinInt32 : Z := - 2 ^ 31.
Definition MaxInt32 : Z := 2 ^ 31 - 1.

(** [strconv.ParseInt(s, 10, 32)]. *)
Definition ParseInt32 (l : bytes) : option Z :=
  match SetString l with
  | Some z => if (MinInt32 <=? z) && (z <=? MaxInt32) then Some z else None
  | None => None
  end.

Definition parse_bytes (original : bytes) : Decimal + string :=
  let '(val, expPart) := break_at is_e original in
  let expo :=
    match expPart with
    | None => Some 0
    | Some t => ParseInt32 t
    end in
  match expo with
  | None =>
      inr ("can't convert " ++ b2s original ++ " to decimal: exponent is not numeric")%string
  | Some e0 =>
      let '(intPart, fracPart) := break_at is_dot val in
      let res :=
        match fracPart with
        | None => Some (val, e0)
        | Some frac =>
            if existsb is_dot frac then None
            else Some (intPart ++ frac, e0 - Z.of_nat (List.length frac))
        end in
      match res with
      | None =>
          inr ("can't convert " ++ b2s val ++ " to decimal: too many .s")%string
      | Some (intString, e) =>
          match SetString intString with
          | None => inr ("can't convert " ++ b2s val ++ " to decimal")%string
          | Some dValue =>
              if (e <? MinInt32) || (MaxInt32 <? e)
              then inr ("can't convert " ++ b2s original
                          ++ " to decimal: fraction too long")%string
              else inl (mk dValue e)
          end
      end
  end.

(** [decimal.NewFromString]: an optional sign, digits with at most one decimal
    point, and an optional exponent. *)
Definition NewFromString (s : string) : Decimal + string := parse_bytes (s2b s).

(** [decimal.NewFromFloat]: zero is [New(0, 0)]; NaN and the infinities make
    it panic; any other float becomes the decimal of the digits that
    [roundShortest] leaves, the shortest that read back as the float.  The
    digit generation is the library's and stays a parameter. *)
Section NewFromFloat.

Variable roundShortest : float -> Decimal.

Definition NewFromFloat (value : float) : go Decimal :=
  if PrimFloat.eqb value 0%float then Ret (New 0 0)
  else if PrimFloat.is_nan value || PrimFloat.is_infinity value
  then Panic ("Cannot create a Decimal from "
                ++ (if PrimFloat.is_nan value then "NaN"
                    else if PrimFloat.ltb value 0%float then "-Inf" else "+Inf"))%string
  else Ret (roundShortest value).

End NewFromFloat.

End decimal.


(** ** Errors

    An [error] is a match error (the input does not belong to this node), an
    error built by [fmt.Errorf], which may wrap its cause with [%w], or an
    error of the decimal package. *)

Inductive error : Type :=
| MatchError (reason : string)
| Errorf (msg : string) (cause : option error)
| DecimalError (msg : string).

(** [err.Error()] *)
Definition Error (e : error) : string :=
  match e with
  | MatchError reason => reason
  | Errorf msg _ => msg
  | DecimalError msg => msg
  end.

Definition IsMatchError (e : error) : bool :=
  match e with
  | MatchError _ => true
  | _ => false
  end.

(** [strings.HasPrefix] and [strings.Contains] *)
Fixpoint HasPrefix (s prefix : string) : bool :=
  match prefix, s with
  | EmptyString, _ => true
  | String.String c p', String.String d s' => Ascii.eqb c d && HasPrefix s' p'
  | String.String _ _, EmptyString => false
  end.

Fixpoint Contains (s substr : string) : bool :=
  HasPrefix s substr
  || match s with
     | EmptyString => false
     | String.String _ s' => Contains s' substr
     end.

(** ** Matchers

    Modelled from the spec: "the matcher utilities compose predicates over
    generic input values".  The package [matcher] is not among the sources;
    [numeric.Unmarshal] relies on [matcher.Array m] accepting exactly the
    arrays whose first element satisfies [m] (it indexes [array[0]] after the
    match), and on [matcher.Value v] accepting the values equal to [v]. *)

Module matcher.

Local Open Scope string_scope.

Definition Matcher := value -> bool.

Definition Array (m : Matcher) : Matcher :=
  fun v => match v with
           | Array (x :: _) => m x
           | _ => false
           end.

Definition Value (s : string) : Matcher :=
  fun v => match v with
           | Str t => String.eqb t s
           | _ => false
           end.

End matcher.

(** ** Predicates of package [predicate] *)

Module predicate.

Local Open Scope string_scope.

Definition ComparisonOp := string.

(** Modelled from the spec: "comparator ∈ {LT, LTE, GT, GTE, EQL, NEQL}".
    The constants and [comparisonOpMap] are declared in a file that is not
    among the sources; the wire forms are those of the spec's examples. *)
Definition LT : ComparisonOp := "<".
Definition LTE : ComparisonOp := "<=".
Definition GT : ComparisonOp := ">".
Definition GTE : ComparisonOp := ">=".
Definition EQL : ComparisonOp := "=".
Definition NEQL : ComparisonOp := "!=".

Definition comparisonOpMap (op : ComparisonOp) : bool :=
  existsb (String.eqb op) [LT; LTE; GT; GTE; EQL; NEQL].

Record numeric : Type := mkNumeric {
  op : ComparisonOp;
  n : decimal.Decimal;
  unsigned : bool
}.

Definition Numeric (o : ComparisonOp) (d : decimal.Decimal) : numeric :=
  {| op := o; n := d; unsigned := false |}.

Definition UnsignedNumeric (o : ComparisonOp) (d : decimal.Decimal) : numeric :=
  let p := Numeric o d in
  {| op := p.(op); n := p.(n); unsigned := true |}.

Definition numeric_Marshal (p : numeric) : value :=
  Array [Str p.(op); Str (decimal.String p.(n))].

Definition numeric_EvalNumeric (p : numeric) (num : decimal.Decimal) : go bool :=
  if String.eqb p.(op) LT then Ret (decimal.LessThan num p.(n))
  else if String.eqb p.(op) LTE then Ret (decimal.LessThanOrEqual num p.(n))
  else if String.eqb p.(op) GT then Ret (decimal.GreaterThan num p.(n))
  else if String.eqb p.(op) GTE then Ret (decimal.GreaterThanOrEqual num p.(n))
  else if String.eqb p.(op) EQL then Ret (decimal.Equal num p.(n))
  else if String.eqb p.(op) NEQL then Ret (negb (decimal.Equal num p.(n)))
  else Panic ("p.op (" ++ p.(op) ++ ") is not a valid comparison operator").

Section Numeric.

(** The digit generation of [decimal.NewFromFloat] (the shortest decimal that
    reads back as the given float) and the [%v] rendering of a value by
    package [fmt]: both belong to libraries outside the repository. *)
Variable roundShortest : float -> decimal.Decimal.
Variable Sprint : value -> string.

(** [Unmarshal] returns the receiver as the call leaves it, and the error. *)
Definition numeric_Unmarshal (p : numeric) (input : value) : go (numeric * option error) :=
  let m := matcher.Array (fun v =>
             match v with
             | Str opStr => comparisonOpMap opStr
             | _ => false
             end) in
  if negb (m input)
  then Ret (p, Some (MatchError "must be formatted as [<comparison_op>, <number>]"))
  else
    match input with
    | Array array =>
        if (2 <? List.length array)%nat
        then Ret (p, Some (Errorf "must be formatted as [<comparison_op>, <number>]" None))
        else if negb (List.length array =? 2)%nat
        then Ret (p, Some (Errorf
               "must be formatted as [<comparison_op>, <number>] (missing the number)" None))
        else
          match array with
          | [Str opStr; arg] =>
              let parsed : go (decimal.Decimal + error) :=
                match arg with
                | Float64 t =>
                    match decimal.NewFromFloat roundShortest t with
                    | Ret num => Ret (inl num)
                    | Panic msg => Panic msg
                    end
                | Str t =>
                    match decimal.NewFromString t with
                    | inl num => Ret (inl num)
                    | inr err =>
                        Ret (inr (Errorf ("failed to parse " ++ t ++ " as a number: " ++ err)
                                         (Some (DecimalError err))))
                    end
                | t => Ret (inr (Errorf (Sprint t ++ " is not a valid number") None))
                end in
              match parsed with
              | Panic msg => Panic msg
              | Ret (inr err) => Ret (p, Some err)
              | Ret (inl num) =>
                  let p := {| op := opStr; n := p.(n); unsigned := p.(unsigned) |} in
                  if p.(unsigned) && decimal.LessThan num decimal.Zero
                  then Ret (p, Some (Errorf (decimal.String num
                                ++ " must be an unsigned (non-negative) number") None))
                  else Ret ({| op := p.(op); n := num; unsigned := p.(unsigned) |}, None)
              end
          | _ => Panic "interface conversion: interface {} is not string"
          end
    | _ => Panic "interface conversion: interface {} is not []interface {}"
    end.

(** [numericValue] embeds a [rql.NumericPredicate]; here it is a [numeric]. *)
Record numericValue : Type := mkNumericValue { NumericPredicate : numeric }.

Definition NumericValue (p : numeric) : numericValue := {| NumericPredicate := p |}.


Definition numericValue_Unmarshal (p : numericValue) (input : value)
  : go (numericValue * option error) :=
  if negb (matcher.Array (matcher.Value "number") input)
  then Ret (p, Some (MatchError "must be formatted as ['number', NPE NumericPredicate]"))
  else
    match input with
    | Array array =>
        if (2 <? List.length array)%nat
        then Ret (p, Some (Errorf "must be formatted as ['number', NPE NumericPredicate]" None))
        else if (List.length array <? 2)%nat
        then Ret (p, Some (Errorf
               "must be formatted as ['number', NPE NumericPredicate] (missing the NPE NumericPredicate)"
               None))
        else
          match array with
          | [_; arg] =>
              match numeric_Unmarshal p.(NumericPredicate) arg with
              | Panic msg => Panic msg
              | Ret (q, Some err) =>
                  Ret ({| NumericPredicate := q |},
                       Some (Errorf ("error unmarshalling the NPE NumericPredicate: "
                                       ++ Error err) (Some err)))
              | Ret (q, None) => Ret ({| NumericPredicate := q |}, None)
              end
          | _ => Panic "index out of range"
          end
    | _ => Panic "interface conversion: interface {} is not []interface {}"
    end.

Definition numericValue_EvalValue (p : numericValue) (v : value) : go bool :=
  match v with
  | Float64 num =>
      match decimal.NewFromFloat roundShortest num with
      | Ret d => numeric_EvalNumeric p.(NumericPredicate) d
      | Panic msg => Panic msg
      end
  | _ => Ret false
  end.

End Numeric.

(** Modelled from the spec: "Null value predicate: marshals as literal
    [null]".  The source of the null predicate is not present; its tests
    (null_test.go) are: [Null()] marshals to [nil], unmarshals from [nil], and
    answers any other input with a match error that names null. *)
Inductive null : Type := Null.



Definition null_EvalValue (p : null) (v : value) : bool :=
  match v with
  | Nil => true
  | _ => false
  end.

(** Modelled from the spec: "StringPredicate: Glob, Regex, Equal" and the
    canonical shape [["name", ["glob", "foo"]]].  The sources of the glob
    predicate and of the [Name] primary are not present; name_test.go fixes
    what is modelled here: [StringGlob(g)] marshals to [["glob", g]], and a
    glob that does not compile (["["]) is refused with an error that names
    the glob.  Whether a glob compiles is the glob library's matter
    ([Compile] answers with its error). *)
Record stringGlob : Type := mkStringGlob { glob : string }.

Definition StringGlob (g : string) : stringGlob := {| glob := g |}.

Definition stringGlob_Marshal (p : stringGlob) : value :=
  Array [Str "glob"; Str p.(glob)].

Definition quote : string := String.String (ascii_of_nat 34) EmptyString.

Section Glob.

Variable Compile : string -> option string.

Definition stringGlob_Unmarshal (p : stringGlob) (input : value)
  : go (stringGlob * option error) :=
  if negb (matcher.Array (matcher.Value "glob") input)
  then Ret (p, Some (MatchError
         ("must be formatted as [" ++ quote ++ "glob" ++ quote ++ ", <glob>]")))
  else
    match input with
    | Array [_; Str g] =>
        match Compile g with
        | Some err => Ret (p, Some (Errorf ("invalid glob " ++ g ++ ": " ++ err) None))
        | None => Ret ({| glob := g |}, None)
        end
    | _ => Ret (p, Some (Errorf
             ("must be formatted as [" ++ quote ++ "glob" ++ quote ++ ", <glob>]") None))
    end.

End Glob.

(** *** Instances of the library functions, for running the model

    [FromFloatExact] keeps the binary value of a finite float exactly (a float
    is [m * 2 ^ e]), which is within half a unit in the last place as the
    library's digits are; [SprintPlain] renders nil, booleans and strings as
    [%v] does.  These two instantiate the parameters in the examples. *)

Definition FromFloatExact (f : float) : decimal.Decimal :=
  match Prim2SF f with
  | S754_finite s m e =>
      let v := if s then Z.neg m else Z.pos m in
      if (0 <=? e)%Z then decimal.New (v * 2 ^ e)%Z 0 else decimal.New (v * 5 ^ (- e))%Z e
  | _ => decimal.Zero
  end.

Definition SprintPlain (v : value) : string :=
  match v with
  | Nil => "<nil>"
  | Bool true => "true"
  | Bool false => "false"
  | Str s => s
  | Float64 _ => "<float64>"
  | Array _ => "[...]"
  | Object _ => "map[...]"
  end.

End predicate.

(** ** Primaries of package [primary]

    Modelled from the spec: "EntryPredicate: Name(StringPredicate)".  The
    source of [Name] is not present; name_test.go fixes its wire form
    [["name", NPE StringPredicate]] and its errors: a match error on an input
    that is no array headed by ["name"], a plain error on an array of another
    length than two, and the error of the string predicate, wrapped.  It is
    built like [numericValue.Unmarshal]. *)

Module primary.

Local Open Scope string_scope.

Record name : Type := mkName { StringPredicate : predicate.stringGlob }.

Definition Name (p : predicate.stringGlob) : name := {| StringPredicate := p |}.

Definition name_Marshal (p : name) : value :=
  Array [Str "name"; predicate.stringGlob_Marshal p.(StringPredicate)].

Definition formatted : string :=
  "name: must be formatted as [" ++ predicate.quote ++ "name" ++ predicate.quote
    ++ ", NPE StringPredicate]".

Section Name.

Variable Compile : string -> option string.

Definition name_Unmarshal (p : name) (input : value) : go (name * option error) :=
  if negb (matcher.Array (matcher.Value "name") input)
  then Ret (p, Some (MatchError formatted))
  else
    match input with
    | Array array =>
        if (2 <? List.length array)%nat
        then Ret (p, Some (Errorf formatted None))
        else if (List.length array <? 2)%nat
        then Ret (p, Some (Errorf (formatted ++ " (missing the NPE StringPredicate)") None))
        else
          match array with
          | [_; arg] =>
              match predicate.stringGlob_Unmarshal Compile p.(StringPredicate) arg with
              | Panic msg => Panic msg
              | Ret (q, Some err) =>
                  Ret ({| StringPredicate := q |},
                       Some (Errorf ("name: error unmarshalling the NPE StringPredicate: "
                                       ++ Error err) (Some err)))
              | Ret (q, None) => Ret ({| StringPredicate := q |}, None)
              end
          | _ => Panic "index out of range"
          end
    | _ => Panic "interface conversion: interface {} is not []interface {}"
    end.

End Name.

(** A glob compiler for the examples: a pattern with an opening bracket and
    no closing one does not compile. *)
Definition CompileBrackets (g : string) : option string :=
  if Contains g "[" && negb (Contains g "]")
  then Some "unexpected end of input" else None.

End primary.

(** ** Formatting

    [fmt.Sprintf], for the one verb the modelled code uses: [%v] takes the
    next argument (already rendered as text) and [%%] is a percent sign.
    Other verbs, and the note Go appends for arguments left over, are not
    modelled: the text is kept as it stands. *)

Fixpoint Sprintf (format : string) (args : list string) : string :=
  match format with
  | EmptyString => EmptyString
  | String.String c rest =>
      if Ascii.eqb c "%" then
        match rest with
        | EmptyString => String.String c EmptyString
        | String.String d rest' =>
            if Ascii.eqb d "v" then
              match args with
              | a :: args' => (a ++ Sprintf rest' args')%string
              | [] => ("%!v(MISSING)" ++ Sprintf rest' [])%string
              end
            else if Ascii.eqb d "%" then String.String "%" (Sprintf rest' args)
            else String.String c (Sprintf rest args)
        end
      else String.String c (Sprintf rest args)
  end.

(** ** Insertion-ordered maps

    Modelled from the spec: "the graph is ordered (insertion order preserved
    so the root appears first on serialization)".  The code uses the
    third-party [linkedhashmap.Map]: [Put] on a new key appends it to the
    iteration order, [Put] on a present key replaces the value where the key
    stands. *)

Module linkedhashmap.

Section Map.

Variable V : Type.

Definition Map := list (string * V).

Definition New : Map := [].

Fixpoint Put (m : Map) (key : string) (v : V) : Map :=
  match m with
  | [] => [(key, v)]
  | (k, w) :: rest =>
      if String.eqb k key then (k, v) :: rest else (k, w) :: Put rest key v
  end.

Fixpoint Get (m : Map) (key : string) : option V :=
  match m with
  | [] => None
  | (k, w) :: rest => if String.eqb k key then Some w else Get rest key
  end.

Definition Keys (m : Map) : list string := map fst m.

(** [Each f]: [f] is applied to the entries in iteration order. *)
Definition Each {A : Type} (m : Map) (f : string -> V -> A -> A) (a : A) : A :=
  fold_left (fun acc kv => f (fst kv) (snd kv) acc) m a.

End Map.

Arguments New {V}.
Arguments Put {V} m key v.
Arguments Get {V} m key.
Arguments Keys {V} m.
Arguments Each {V A} m f a.

End linkedhashmap.

(** ** Entry schemas (package [plugin]) *)

Module plugin.

Local Open Scope string_scope.

(** What [reflect.TypeOf] answers: a pointer type or a named type. *)
Inductive rtype : Type :=
| Ptr (Elem : rtype)
| Named (PkgPath Name : string).

Fixpoint unravelPtr (t : rtype) : rtype :=
  match t with
  | Ptr elem => unravelPtr elem
  | Named _ _ => t
  end.

Definition PkgPath (t : rtype) : string :=
  match t with
  | Named p _ => p
  | Ptr _ => ""
  end.

Definition Name (t : rtype) : string :=
  match t with
  | Named _ n => n
  | Ptr _ => ""
  end.

(** The outcome of a call that is run with fuel: it returns, it panics, or
    the fuel did not suffice. *)
Inductive result (A : Type) : Type :=
| Done (a : A)
| Panicked (msg : string)
| OutOfFuel.
Arguments Done {A} a.
Arguments Panicked {A} msg.
Arguments OutOfFuel {A}.

(** Addresses.  [Receiver] is where [MarshalJSON] keeps its receiver, which
    it takes by value; [At n] are the schema objects of the plugin. *)
Inductive loc : Type :=
| Receiver
| At (n : nat).

Definition loc_eqb (a b : loc) : bool :=
  match a, b with
  | Receiver, Receiver => true
  | At n, At m => Nat.eqb n m
  | _, _ => false
  end.

Definition eloc := nat.

Set Implicit Arguments.

Section Schema.

(** The JSON schemas, the objects they are reflected from and the tables of
    wrapped types belong to libraries outside the sources; so do the
    reflector ([Reflect], given the entry's wrapped types), the root type of a
    schema ([schema.Type.Type]), the label of the plugin registry and the
    [%v] rendering of a schema. *)
Variables JSONSchema Obj SchemaMap : Type.
Variable emptyStruct : Obj.
Variable Reflect : SchemaMap -> Obj -> JSONSchema.
Variable TypeType : JSONSchema -> string.
Variable registrySchemaLabel : string.

Record entrySchema : Type := mkEntrySchema {
  TypeID : string;
  Label : string;
  Singleton : bool;
  Actions : list string;
  MetaAttributeSchema : option JSONSchema;
  MetadataSchema : option JSONSchema;
  Children : list string
}.

(** What the graph holds: the address of a schema under assembly, or a record
    taken over from a pre-baked graph. *)
Inductive gvalue : Type :=
| Ref (l : loc)
| Baked (r : entrySchema).

Definition Graph := linkedhashmap.Map gvalue.

Record EntrySchema : Type := mkSchema {
  base : entrySchema;
  metaAttributeSchemaObj : option Obj;
  metadataSchemaObj : option Obj;
  entry : eloc;
  graph : option (linkedhashmap.Map entrySchema)
}.

Variable SprintSchema : EntrySchema -> string.

(** An entry, as far as schemas look at it: its dynamic type, the actions it
    supports, whether [list] is among them, what [ChildSchemas()] returns
    ([None] is the nil slice, a [None] element a nil pointer), the table
    [WrappedTypes()] returns if the entry has the method, and whether it is
    an external plugin's entry. *)
Record Entry : Type := mkEntry {
  TypeOf : rtype;
  SupportedActionsOf : list string;
  IsListSupported : bool;
  ChildSchemas : option (list (option nat));
  WrappedTypes : option SchemaMap;
  isExternalPlugin : bool;
  CName : string
}.

Variable entries : eloc -> Entry.

(** [NewEntrySchema(e, label)]; the new object is returned by value. *)
Definition NewEntrySchema (e : eloc) (label : string) : go EntrySchema :=
  if (String.length label =? 0)%nat
  then Panic "plugin.NewEntrySchema called with an empty label"
  else
    let t := unravelPtr (TypeOf (entries e)) in
    Ret {| base := {| TypeID := PkgPath t ++ "/" ++ Name t;
                      Label := label;
                      Singleton := false;
                      Actions := SupportedActionsOf (entries e);
                      MetaAttributeSchema := None;
                      MetadataSchema := None;
                      Children := [] |};
           metaAttributeSchemaObj := Some emptyStruct;
           metadataSchemaObj := None;
           entry := e;
           graph := None |}.

(** The builders; each returns the object as the call leaves it. *)
Definition IsSingleton (s : EntrySchema) : EntrySchema :=
  let b := base s in
  {| base := {| TypeID := TypeID b; Label := Label b; Singleton := true;
                Actions := Actions b; MetaAttributeSchema := MetaAttributeSchema b;
                MetadataSchema := MetadataSchema b; Children := Children b |};
     metaAttributeSchemaObj := metaAttributeSchemaObj s;
     metadataSchemaObj := metadataSchemaObj s; entry := entry s; graph := graph s |}.

Definition SetMetaAttributeSchema (s : EntrySchema) (obj : option Obj) : EntrySchema :=
  {| base := base s; metaAttributeSchemaObj := obj;
     metadataSchemaObj := metadataSchemaObj s; entry := entry s; graph := graph s |}.

Definition SetMetadataSchema (s : EntrySchema) (obj : option Obj) : EntrySchema :=
  {| base := base s; metaAttributeSchemaObj := metaAttributeSchemaObj s;
     metadataSchemaObj := obj; entry := entry s; graph := graph s |}.

(** The store: the schema objects, the wrapped types each entry holds, the
    graph under assembly, and two logs kept only to state properties: the
    type-ids [fill] ran on and the keys given to [graph.Put], in order. *)
Record State : Type := mkState {
  schemas : loc -> EntrySchema;
  wrapped : eloc -> SchemaMap;
  theGraph : Graph;
  filled : list string;
  puts : list string
}.

Definition setSchema (st : State) (l : loc) (s : EntrySchema) : State :=
  {| schemas := fun l' => if loc_eqb l' l then s else schemas st l';
     wrapped := wrapped st; theGraph := theGraph st;
     filled := filled st; puts := puts st |}.

Definition setBase (s : EntrySchema) (b : entrySchema) : EntrySchema :=
  {| base := b; metaAttributeSchemaObj := metaAttributeSchemaObj s;
     metadataSchemaObj := metadataSchemaObj s; entry := entry s; graph := graph s |}.

Definition setWrappedTypes (st : State) (e : eloc) (m : SchemaMap) : State :=
  {| schemas := schemas st;
     wrapped := fun e' => if Nat.eqb e' e then m else wrapped st e';
     theGraph := theGraph st; filled := filled st; puts := puts st |}.

Definition graphPut (st : State) (key : string) (v : gvalue) : State :=
  {| schemas := schemas st; wrapped := wrapped st;
     theGraph := linkedhashmap.Put (theGraph st) key v;
     filled := filled st; puts := (puts st ++ [key])%list |}.

Definition logFilled (st : State) (typeID : string) : State :=
  {| schemas := schemas st; wrapped := wrapped st; theGraph := theGraph st;
     filled := (filled st ++ [typeID])%list; puts := puts st |}.

Definition schemaOf (st : State) (s : EntrySchema) (obj : Obj) : JSONSchema + string :=
  let schema := Reflect (wrapped st (entry s)) obj in
  if negb (String.eqb (TypeType schema) "object")
  then inr ("expected a JSON object but got " ++ TypeType schema)
  else inl schema.

Definition fillPanicf {A : Type} (s : EntrySchema) (format : string) (a : list string)
  : result A :=
  let formatStr := Sprintf "s.fill (%v): %v" [TypeID (base s); format] in
  let msg := Sprintf formatStr a in
  Panicked msg.

Definition passAlongWrappedTypes (st : State) (p child : eloc) : State :=
  let wrappedTypes :=
    match WrappedTypes (entries child) with
    | Some m => m
    | None => wrapped st p
    end in
  setWrappedTypes st child wrappedTypes.

(** The loop of [fill] over the children; [rec] is [fill] on a child. *)
Fixpoint fill_children (rec : loc -> State -> result State) (s : loc)
         (children : list (option nat)) (st : State) : result State :=
  match children with
  | [] => Done st
  | None :: _ => fillPanicf (schemas st s) "found a nil child schema" []
  | Some c :: rest =>
      let child := At c in
      let childID := TypeID (base (schemas st child)) in
      let b := base (schemas st s) in
      let st := setSchema st s
                  (setBase (schemas st s)
                     {| TypeID := TypeID b; Label := Label b; Singleton := Singleton b;
                        Actions := Actions b;
                        MetaAttributeSchema := MetaAttributeSchema b;
                        MetadataSchema := MetadataSchema b;
                        Children := (Children b ++ [childID])%list |}) in
      match linkedhashmap.Get (theGraph st) childID with
      | Some _ => fill_children rec s rest st
      | None =>
          match graph (schemas st child) with
          | Some g =>
              if negb (String.eqb (Label (base (schemas st s))) registrySchemaLabel)
              then fillPanicf (schemas st s) "%v is an external plugin's schema"
                              [SprintSchema (schemas st child)]
              else
                fill_children rec s rest
                  (linkedhashmap.Each g (fun key v acc => graphPut acc key (Baked v)) st)
          | None =>
              let st := passAlongWrappedTypes st (entry (schemas st s))
                                              (entry (schemas st child)) in
              match rec child st with
              | Done st' => fill_children rec s rest st'
              | Panicked msg => Panicked msg
              | OutOfFuel => OutOfFuel
              end
          end
      end
  end.

Definition fill_schema (st : State) (s : loc) (obj : option Obj)
           (bad : string) (set : entrySchema -> option JSONSchema -> entrySchema)
  : result State :=
  match obj with
  | None => Done st
  | Some o =>
      match schemaOf st (schemas st s) o with
      | inr err => fillPanicf (schemas st s) bad [err]
      | inl schema =>
          Done (setSchema st s (setBase (schemas st s) (set (base (schemas st s)) (Some schema))))
      end
  end.

Definition setMetaAttributeSchema (b : entrySchema) (j : option JSONSchema) : entrySchema :=
  {| TypeID := TypeID b; Label := Label b; Singleton := Singleton b; Actions := Actions b;
     MetaAttributeSchema := j; MetadataSchema := MetadataSchema b; Children := Children b |}.

Definition setMetadataSchema (b : entrySchema) (j : option JSONSchema) : entrySchema :=
  {| TypeID := TypeID b; Label := Label b; Singleton := Singleton b; Actions := Actions b;
     MetaAttributeSchema := MetaAttributeSchema b; MetadataSchema := j;
     Children := Children b |}.

(** [s.fill(graph)] for the schema at address [s]. *)
Fixpoint fill (fuel : nat) (s : loc) (st : State) : result State :=
  match fuel with
  | O => OutOfFuel
  | S fuel' =>
      match fill_schema st s (metaAttributeSchemaObj (schemas st s))
              "bad value passed into SetMetaAttributeSchema: %v" setMetaAttributeSchema with
      | Done st =>
          match fill_schema st s (metadataSchemaObj (schemas st s))
                  "bad value passed into SetMetadataSchema: %v" setMetadataSchema with
          | Done st =>
              let typeID := TypeID (base (schemas st s)) in
              let st := logFilled (graphPut st typeID (Ref s)) typeID in
              let e := entries (entry (schemas st s)) in
              if negb (IsListSupported e) then Done st
              else
                match ChildSchemas e with
                | None => fillPanicf (schemas st s) "ChildSchemas() returned nil" []
                | Some children => fill_children (fill fuel') s children st
                end
          | other => other
          end
      | other => other
      end
  end.

(** What [ToJSON] writes for a value of the graph: the record behind an
    address as it is when the graph is written. *)
Definition deref (st : State) (v : gvalue) : entrySchema :=
  match v with
  | Ref l => base (schemas st l)
  | Baked r => r
  end.

(** [graph.ToJSON()], up to the JSON encoder: the entries in iteration
    order. *)
Definition ToJSON (st : State) : list (string * entrySchema) :=
  map (fun kv => (fst kv, deref st (snd kv))) (theGraph st).

(** The state in which [MarshalJSON], called on the value [s], writes the
    graph.  [st] holds the plugin's schema objects. *)
Definition MarshalJSON_state (fuel : nat) (st : State) (s : EntrySchema) : result State :=
  match graph s with
  | Some g =>
      Done {| schemas := schemas st; wrapped := wrapped st;
              theGraph := map (fun kv => (fst kv, Baked (snd kv))) g;
              filled := []; puts := [] |}
  | None =>
      if isExternalPlugin (entries (entry s))
      then Panicked (Sprintf
             "s.MarshalJSON: called with a nil graph for external plugin entry %v (type ID %v)"
             [CName (entries (entry s)); TypeID (base s)])
      else
        fill fuel Receiver
          {| schemas := fun l => if loc_eqb l Receiver then s else schemas st l;
             wrapped := wrapped st;
             theGraph := linkedhashmap.New;
             filled := []; puts := [] |}
  end.

Definition MarshalJSON (fuel : nat) (st : State) (s : EntrySchema)
  : result (list (string * entrySchema)) :=
  match MarshalJSON_state fuel st s with
  | Done st' => Done (ToJSON st')
  | Panicked msg => Panicked msg
  | OutOfFuel => OutOfFuel
  end.

End Schema.

Unset Implicit Arguments.

End plugin.

(** ** The reader of dataflow job messages (package [gcp]) *)

Module gcp.

Local Open Scope string_scope.

(** The fields of [dataflow.JobMessage] and [dataflow.ListJobMessagesResponse]
    that the reader uses. *)
Record JobMessage : Type := mkJobMessage {
  Time : string;
  MessageImportance : string;
  MessageText : string
}.

Record ListJobMessagesResponse : Type := mkResponse {
  JobMessages : list JobMessage;
  NextPageToken : string
}.

(** The errors [Read] returns: [io.EOF], or the error of the API call. *)
Inductive readError : Type :=
| EOF
| ApiError (msg : string).

(** [copy(dst, src)]: as many bytes as both hold. *)
Definition copy (dst src : bytes) : bytes :=
  (firstn (List.length dst) src ++ skipn (List.length src) dst)%list.

Definition newline : string := String.String (ascii_of_nat 10) EmptyString.

Record dataflowReader : Type := mkReader {
  pageToken : string;
  overflow : list JobMessage;
  eof : bool
}.

(** A slice of the caller's buffer: [front] is the part of the buffer before
    the slice, as it now reads, and [view] the slice itself. *)
Record slice : Type := mkSlice {
  front : bytes;
  view : bytes
}.

(** The loop of [consume]: the slice, [n] and [consumed] after it. *)
Fixpoint consume_loop (msgs : list JobMessage) (p : slice) (n consumed : nat)
  : slice * nat * nat :=
  match msgs with
  | [] => (p, n, consumed)
  | msg :: rest =>
      let msgLen := (String.length (Time msg) + String.length (MessageImportance msg)
                     + String.length (MessageText msg) + 3)%nat in
      if (List.length (view p) <? msgLen)%nat then (p, n, consumed)
      else
        let written := copy (view p)
                         (s2b (Time msg ++ " " ++ MessageImportance msg ++ " "
                                 ++ MessageText msg ++ newline)) in
        let p := {| front := (front p ++ firstn msgLen written)%list;
                    view := skipn msgLen written |} in
        consume_loop rest p (n + msgLen) (consumed + 1)
  end.

Definition consume (rdr : dataflowReader) (p : slice) : dataflowReader * slice * nat :=
  let '(p, n, consumed) := consume_loop (overflow rdr) p 0 0 in
  ({| pageToken := pageToken rdr;
      overflow := skipn consumed (overflow rdr);
      eof := eof rdr |}, p, n).

Section Read.

(** [rdr.Do()]: the answer of the messages API to a request for the page a
    token names. *)
Variable Do : string -> ListJobMessagesResponse + string.

(** The loop of [Read] that fetches pages; [None] when the fuel runs out. *)
Fixpoint read_pages (fuel : nat) (rdr : dataflowReader) (p : slice) (n : nat)
  : option (dataflowReader * slice * nat * option readError) :=
  match fuel with
  | O => None
  | S fuel' =>
      match Do (pageToken rdr) with
      | inr err => Some (rdr, p, n, Some (ApiError err))
      | inl resp =>
          let rdr := {| pageToken := pageToken rdr;
                        overflow := JobMessages resp;
                        eof := eof rdr |} in
          let '(rdr, p, read) := consume rdr p in
          let n := (n + read)%nat in
          let rdr := {| pageToken := NextPageToken resp;
                        overflow := overflow rdr;
                        eof := eof rdr |} in
          let rdr := if String.eqb (NextPageToken resp) ""
                     then {| pageToken := pageToken rdr; overflow := overflow rdr;
                             eof := true |}
                     else rdr in
          if (0 <? List.length (overflow rdr))%nat || eof rdr
          then Some (rdr, p, n, None)
          else read_pages fuel' rdr p n
      end
  end.

(** [rdr.Read(p)]: the reader and the buffer after the call, [n] and [err]. *)
Definition Read (fuel : nat) (rdr : dataflowReader) (p : bytes)
  : option (dataflowReader * bytes * nat * option readError) :=
  let p := {| front := []; view := p |} in
  let n := 0%nat in
  let finish r :=
    match r with
    | Some (rdr, p, n, err) => Some (rdr, (front p ++ view p)%list, n, err)
    | None => None
    end in
  let '(rdr, p, n, stop) :=
    if (0 <? List.length (overflow rdr))%nat
    then
      let '(rdr, p, read) := consume rdr p in
      (rdr, p, (n + read)%nat, (0 <? List.length (overflow rdr))%nat)
    else (rdr, p, n, false) in
  if stop then finish (Some (rdr, p, n, None))
  else if eof rdr then finish (Some (rdr, p, n, Some EOF))
  else finish (read_pages fuel rdr p n).

End Read.

(** [readLog]: a reader on the first page. *)
Definition readLog : dataflowReader := {| pageToken := ""; overflow := []; eof := false |}.

(** *** Job identifiers

    [strings.Split(s, sep)] for a separator of one byte (the code splits at
    ["/"]): the pieces between the separators, in order; a text without
    separator is one piece. *)
Fixpoint Split (s : string) (sep : ascii) : list string :=
  match s with
  | EmptyString => [EmptyString]
  | String.String c rest =>
      if Ascii.eqb c sep then EmptyString :: Split rest sep
      else
        match Split rest sep with
        | piece :: pieces => String.String c piece :: pieces
        | [] => [String.String c EmptyString]
        end
  end.

Definition splitDataflowID (id : string) : go (string * string) :=
  let tokens := Split id "/" in
  if negb (List.length tokens =? 2)%nat
  then Panic "newDataflowJob given an invalid name/id pair"
  else
    match tokens with
    | [name; jobID] => Ret (name, jobID)
    | _ => Panic "index out of range"
    end.

(** The fields of [dataflow.Job] that [cachedDataflowJobs] reads, and the
    strings it builds from the jobs of a response. *)
Record Job : Type := mkJob {
  Name : string;
  Id : string
}.

Definition jobStrings (jobs : list Job) : list string :=
  map (fun job => Name job ++ "/" ++ Id job) jobs.

(** [sort.Search(n, f)]: the loop of the standard library, [h] being
    [int(uint(i+j) >> 1)], the mean of [i] and [j] without overflow.  A
    panic of [f] ends the search; [None] when the fuel runs out. *)
Fixpoint search_loop (fuel : nat) (f : nat -> go bool) (i j : nat) : option (go nat) :=
  match fuel with
  | O => None
  | S fuel' =>
      if (i <? j)%nat then
        let h := ((i + j) / 2)%nat in
        match f h with
        | Panic msg => Some (Panic msg)
        | Ret false => search_loop fuel' f (h + 1)%nat j
        | Ret true => search_loop fuel' f i h
        end
      else Some (Ret i)
  end.

Definition Search (fuel : nat) (n : nat) (f : nat -> go bool) : option (go nat) :=
  search_loop fuel f 0%nat n.

(** [jobs[i]] *)
Definition index (jobs : list string) (i : nat) : go string :=
  match nth_error jobs i with
  | Some job => Ret job
  | None => Panic "index out of range"
  end.

(** [x >= name] on strings compares them byte by byte. *)
Definition searchDataflowJob (fuel : nat) (jobs : list string) (name : string)
  : option (go (string * bool)) :=
  let f i :=
    match index jobs i with
    | Panic msg => Panic msg
    | Ret job =>
        match splitDataflowID job with
        | Panic msg => Panic msg
        | Ret (x, _) => Ret (String.leb name x)
        end
    end in
  match Search fuel (List.length jobs) f with
  | None => None
  | Some (Panic msg) => Some (Panic msg)
  | Some (Ret idx) =>
      if (idx <? List.length jobs)%nat then
        match index jobs idx with
        | Panic msg => Some (Panic msg)
        | Ret job =>
            match splitDataflowID job with
            | Panic msg => Some (Panic msg)
            | Ret (x, _) =>
                if String.eqb x name then Some (Ret (job, true))
                else Some (Ret (EmptyString, false))
            end
        end
      else Some (Ret (EmptyString, false))
  end.

(** A [dataflowJob], as far as its name and id go (the client, the time of
    the last update and the service are left out), and [newDataflowJob]. *)
Record dataflowJob : Type := mkDataflowJob {
  name : string;
  id : string
}.

Definition newDataflowJob (jobID : string) : go dataflowJob :=
  match splitDataflowID jobID with
  | Ret (name, id) => Ret {| name := name; id := id |}
  | Panic msg => Panic msg
  end.

(** [cli.Name()] *)
Definition dataflowJob_Name (cli : dataflowJob) : string := name cli.

End gcp.
(** * Properties

    ** Decimals *)

Example String_examples :
  map decimal.String
      [decimal.New 42 0; decimal.New 1 2; decimal.New (-1) 0; decimal.New (-5) (-1);
       decimal.New 1500 (-3); decimal.New 7 (-3); decimal.New 0 (-2); decimal.New 12345 (-2)]
  = ["42"; "100"; "-1"; "-0.5"; "1.5"; "0.007"; "0"; "123.45"]%string.
Proof. reflexivity. Qed.

Example NewFromString_examples :
  map decimal.NewFromString ["42"; "-1"; "-0.5"; "1.50"; "1e3"; "+7"; ".5"]%string
  = map inl [decimal.New 42 0; decimal.New (-1) 0; decimal.New (-5) (-1);
             decimal.New 150 (-2); decimal.New 1 3; decimal.New 7 0; decimal.New 5 (-1)].
Proof. reflexivity. Qed.

(** *** Reading and writing digits *)

Definition digits_val (acc : N) (l : bytes) : N :=
  fold_left (fun a c => (a * 10 + digit_val c)%N) l acc.

Lemma parse_acc_spec (l : bytes) (acc : N) :
  parse_acc acc l = if forallb is_digit l then Some (digits_val acc l) else None.
Proof.
  revert acc; induction l as [|c r IH]; intros acc; simpl; [reflexivity|].
  destruct (is_digit c); simpl; [apply IH | reflexivity].
Qed.

Lemma digits_val_shift (l : bytes) (acc : N) :
  digits_val acc l = (acc * 10 ^ N.of_nat (List.length l) + digits_val 0 l)%N.
Proof.
  unfold digits_val; revert acc; induction l as [|c r IH]; intros acc.
  - simpl. lia.
  - cbn [fold_left List.length]. rewrite IH, (IH (0 * 10 + digit_val c)%N).
    rewrite Nat2N.inj_succ, N.pow_succ_r'. lia.
Qed.

Lemma digits_val_app (a b : bytes) (acc : N) :
  digits_val acc (a ++ b)
  = (digits_val acc a * 10 ^ N.of_nat (List.length b) + digits_val 0 b)%N.
Proof.
  unfold digits_val at 1. rewrite fold_left_app.
  fold (digits_val acc a). fold (digits_val (digits_val acc a) b).
  apply digits_val_shift.
Qed.

Lemma uint_image_digits (d : Decimal.uint) :
  forallb is_digit (s2b (NilEmpty.string_of_uint d)) = true.
Proof. induction d; simpl; auto. Qed.

Lemma uint_image_val (d : Decimal.uint) :
  digits_val 0 (s2b (NilEmpty.string_of_uint d)) = N.of_uint d
  /\ forall p, digits_val (Npos p) (s2b (NilEmpty.string_of_uint d))
               = Npos (Pos.of_uint_acc d p).
Proof.
  unfold N.of_uint.
  assert (step : forall acc c r,
             digits_val acc (c :: r) = digits_val (acc * 10 + digit_val c)%N r)
    by reflexivity.
  induction d as [|d [IH0 IHp]|d [IH0 IHp]|d [IH0 IHp]|d [IH0 IHp]|d [IH0 IHp]
                  |d [IH0 IHp]|d [IH0 IHp]|d [IH0 IHp]|d [IH0 IHp]|d [IH0 IHp]];
    (split; [|intros p]);
    cbn [NilEmpty.string_of_uint s2b list_ascii_of_string Pos.of_uint Pos.of_uint_acc];
    try reflexivity;
    fold (s2b (NilEmpty.string_of_uint d));
    rewrite step;
    try exact IH0;
    match goal with
    | |- digits_val ?a _ = N.pos (Pos.of_uint_acc _ ?q) =>
        replace a with (N.pos q) by (unfold digit_val; simpl N_of_ascii; lia); apply IHp
    end.
Qed.

Lemma digits_all (n : N) : forallb is_digit (digits n) = true.
Proof.
  unfold digits. destruct (N.to_uint n) eqn:E; try apply (uint_image_digits (_ u)).
  reflexivity.
Qed.

Lemma digits_value (n : N) : digits_val 0 (digits n) = n.
Proof.
  unfold digits.
  assert (H : NilZero.string_of_uint (N.to_uint n) = NilEmpty.string_of_uint (N.to_uint n)).
  { destruct n; [reflexivity|]. simpl.
    pose proof (DecimalPos.Unsigned.to_uint_nonnil p).
    destruct (Pos.to_uint p); congruence || reflexivity. }
  rewrite H, (proj1 (uint_image_val _)). apply DecimalN.Unsigned.of_to.
Qed.

Lemma digits_nonempty (n : N) : digits n <> [].
Proof.
  unfold digits. destruct n; [discriminate|]. simpl.
  pose proof (DecimalPos.Unsigned.to_uint_nonnil p).
  destruct (Pos.to_uint p); try congruence; discriminate.
Qed.

Lemma parse_digits_digits (n : N) : parse_digits (digits n) = Some n.
Proof.
  unfold parse_digits. pose proof (digits_nonempty n).
  destruct (digits n) eqn:E; [congruence|].
  rewrite <- E, parse_acc_spec, digits_all, digits_value. reflexivity.
Qed.

(** *** Comparison is exact *)

Definition scaled (d : decimal.Decimal) (m : Z) : Z :=
  decimal.value d * 10 ^ (decimal.exp d - m).

Lemma bigCmp_scale (x y c : Z) :
  0 < c -> decimal.bigCmp (x * c) (y * c) = decimal.bigCmp x y.
Proof.
  intros Hc. unfold decimal.bigCmp.
  rewrite <- (Zmult_compare_compat_r x y c) by lia. reflexivity.
Qed.

Lemma pow10_pos (k : Z) : 0 <= k -> 0 < 10 ^ k.
Proof. intros. apply Z.pow_pos_nonneg; lia. Qed.

Lemma Cmp_scaled (d1 d2 : decimal.Decimal) (m : Z) :
  m <= decimal.exp d1 -> m <= decimal.exp d2 ->
  decimal.Cmp d1 d2 = decimal.bigCmp (scaled d1 m) (scaled d2 m).
Proof.
  intros H1 H2. destruct d1 as [v1 e1], d2 as [v2 e2]; simpl in *.
  unfold decimal.Cmp, decimal.RescalePair, decimal.rescale, scaled; simpl.
  destruct (Z.eqb_spec e1 e2) as [->|Hne].
  - symmetry. apply bigCmp_scale, pow10_pos. lia.
  - destruct (Z.le_gt_cases e1 e2) as [Hle|Hgt].
    + rewrite Z.min_l by lia. rewrite Z.eqb_refl. simpl.
      destruct (Z.eqb_spec e2 e1); [lia|].
      destruct (Z.ltb_spec e2 e1); [lia|]. simpl.
      replace (Z.abs (e1 - e2)) with (e2 - e1) by lia.
      replace (e2 - m) with ((e2 - e1) + (e1 - m)) by lia.
      rewrite Z.pow_add_r by lia. rewrite Z.mul_assoc.
      symmetry. apply bigCmp_scale, pow10_pos. lia.
    + rewrite Z.min_r by lia.
      destruct (Z.eqb_spec e2 e1); [lia|]. simpl.
      destruct (Z.eqb_spec e1 e2); [lia|].
      destruct (Z.ltb_spec e1 e2); [lia|]. simpl.
      replace (Z.abs (e2 - e1)) with (e1 - e2) by lia.
      replace (e1 - m) with ((e1 - e2) + (e2 - m)) by lia.
      rewrite Z.pow_add_r by lia. rewrite Z.mul_assoc.
      symmetry. apply bigCmp_scale, pow10_pos. lia.
Qed.

Lemma toQ_scaled (d : decimal.Decimal) (m : Z) :
  m <= decimal.exp d ->
  (decimal.toQ d == inject_Z (scaled d m) * Qpower (10 # 1) m)%Q.
Proof.
  intros H. unfold decimal.toQ, scaled.
  rewrite inject_Z_mult, Zpower_Qpower by lia.
  change (inject_Z 10) with (10 # 1)%Q.
  rewrite <- Qmult_assoc, <- Qpower_plus by discriminate.
  replace (decimal.exp d - m + m) with (decimal.exp d) by lia. reflexivity.
Qed.

Lemma Qcompare_scale (a b : Z) (c : Q) :
  (0 < c)%Q -> (inject_Z a * c ?= inject_Z b * c)%Q = (a ?= b).
Proof.
  intros Hc. destruct (Z.compare_spec a b) as [->|Hlt|Hgt].
  - apply Qeq_alt. reflexivity.
  - apply Qlt_alt. apply Qmult_lt_compat_r; [assumption|]. rewrite <- Zlt_Qlt. exact Hlt.
  - apply Qgt_alt. apply Qmult_lt_compat_r; [assumption|]. rewrite <- Zlt_Qlt. exact Hgt.
Qed.

(** [Cmp] is the comparison of the rational numbers the decimals denote. *)
Lemma Cmp_toQ (d1 d2 : decimal.Decimal) :
  decimal.Cmp d1 d2
  = match (decimal.toQ d1 ?= decimal.toQ d2)%Q with Lt => -1 | Eq => 0 | Gt => 1 end.
Proof.
  set (m := Z.min (decimal.exp d1) (decimal.exp d2)).
  rewrite (Cmp_scaled d1 d2 m) by lia.
  rewrite (toQ_scaled d1 m), (toQ_scaled d2 m) by lia.
  rewrite Qcompare_scale by (apply Qpower_0_lt; reflexivity).
  reflexivity.
Qed.

Lemma Equal_scaled (d1 d2 : decimal.Decimal) (m : Z) :
  m <= decimal.exp d1 -> m <= decimal.exp d2 ->
  scaled d1 m = scaled d2 m -> decimal.Equal d1 d2 = true.
Proof.
  intros H1 H2 E. unfold decimal.Equal. rewrite (Cmp_scaled d1 d2 m H1 H2), E.
  unfold decimal.bigCmp. rewrite Z.compare_refl. reflexivity.
Qed.

Lemma Equal_toQ (d1 d2 : decimal.Decimal) :
  decimal.Equal d1 d2 = true <-> (decimal.toQ d1 == decimal.toQ d2)%Q.
Proof.
  unfold decimal.Equal. rewrite Cmp_toQ, Qeq_alt.
  destruct (decimal.toQ d1 ?= decimal.toQ d2)%Q; simpl; split; congruence.
Qed.

(** *** Printing a decimal and reading it back *)

Lemma digit_not_special (c : ascii) :
  is_digit c = true ->
  decimal.is_e c = false /\ decimal.is_dot c = false
  /\ Ascii.eqb c "-" = false /\ Ascii.eqb c "+" = false.
Proof.
  destruct c as [[] [] [] [] [] [] [] []]; intros H; try discriminate H;
    repeat split; reflexivity.
Qed.

Lemma break_at_none (p : ascii -> bool) (l : bytes) :
  forallb (fun c => negb (p c)) l = true -> decimal.break_at p l = (l, None).
Proof.
  induction l as [|c r IH]; simpl; [reflexivity|].
  intros H. apply andb_prop in H as [Hc Hr].
  destruct (p c); [discriminate|]. rewrite (IH Hr). reflexivity.
Qed.

Lemma break_at_app (p : ascii -> bool) (a b : bytes) (c : ascii) :
  forallb (fun c => negb (p c)) a = true -> p c = true ->
  decimal.break_at p (a ++ c :: b) = (a, Some b).
Proof.
  intros Ha Hc. induction a as [|x a IH]; simpl.
  - rewrite Hc. reflexivity.
  - simpl in Ha. apply andb_prop in Ha as [Hx Ha].
    destruct (p x); [discriminate|]. rewrite (IH Ha). reflexivity.
Qed.

Lemma forallb_weaken (p q : ascii -> bool) (l : bytes) :
  (forall c, p c = true -> q c = true) -> forallb p l = true -> forallb q l = true.
Proof.
  intros Hpq. induction l as [|c r IH]; simpl; [reflexivity|].
  intros H. apply andb_prop in H as [Hc Hr]. rewrite (Hpq _ Hc), (IH Hr). reflexivity.
Qed.

Lemma digits_no_e (l : bytes) :
  forallb is_digit l = true -> forallb (fun c => negb (decimal.is_e c)) l = true.
Proof.
  apply forallb_weaken. intros c Hc.
  destruct (digit_not_special c Hc) as (-> & _). reflexivity.
Qed.

Lemma digits_no_dot (l : bytes) :
  forallb is_digit l = true -> forallb (fun c => negb (decimal.is_dot c)) l = true.
Proof.
  apply forallb_weaken. intros c Hc.
  destruct (digit_not_special c Hc) as (_ & -> & _). reflexivity.
Qed.

Lemma existsb_dot_digits (l : bytes) :
  forallb is_digit l = true -> existsb decimal.is_dot l = false.
Proof.
  induction l as [|c r IH]; simpl; [reflexivity|].
  intros H. apply andb_prop in H as [Hc Hr].
  destruct (digit_not_special c Hc) as (_ & -> & _). simpl. auto.
Qed.

Lemma SetString_digits (l : bytes) :
  l <> [] -> forallb is_digit l = true ->
  decimal.SetString l = Some (Z.of_N (digits_val 0 l)).
Proof.
  intros Hne Hd. destruct l as [|c r]; [congruence|].
  unfold decimal.SetString.
  assert (Hc : is_digit c = true) by (simpl in Hd; apply andb_prop in Hd; tauto).
  destruct (digit_not_special c Hc) as (_ & _ & -> & ->).
  unfold parse_digits. rewrite parse_acc_spec, Hd. reflexivity.
Qed.

Lemma SetString_minus (l : bytes) :
  l <> [] -> forallb is_digit l = true ->
  decimal.SetString ("-"%char :: l) = Some (- Z.of_N (digits_val 0 l)).
Proof.
  intros Hne Hd. unfold decimal.SetString. simpl Ascii.eqb. cbv iota.
  unfold parse_digits. destruct l as [|c r]; [congruence|].
  rewrite parse_acc_spec, Hd. reflexivity.
Qed.

Lemma SetString_bigString (z : Z) : decimal.SetString (decimal.bigString z) = Some z.
Proof.
  unfold decimal.bigString. destruct (Z.ltb_spec z 0).
  - simpl app. rewrite SetString_minus by (apply digits_nonempty || apply digits_all).
    rewrite digits_value. f_equal. lia.
  - simpl app. rewrite SetString_digits by (apply digits_nonempty || apply digits_all).
    rewrite digits_value. f_equal. lia.
Qed.

Lemma bigString_plain (z : Z) :
  forallb (fun c => negb (decimal.is_e c)) (decimal.bigString z) = true
  /\ forallb (fun c => negb (decimal.is_dot c)) (decimal.bigString z) = true.
Proof.
  unfold decimal.bigString.
  destruct (z <? 0); rewrite !forallb_app; simpl;
    rewrite digits_no_e, digits_no_dot by apply digits_all; split; reflexivity.
Qed.

Lemma drop_zeros_spec (l : bytes) :
  exists k, l = repeat "0"%char k ++ decimal.drop_zeros l.
Proof.
  induction l as [|c r [k IH]]; simpl.
  - exists 0%nat. reflexivity.
  - destruct (Ascii.eqb_spec c "0") as [->|Hc].
    + exists (S k). simpl. f_equal. exact IH.
    + exists 0%nat. reflexivity.
Qed.

Lemma rev_repeat_zero (k : nat) : rev (repeat "0"%char k) = repeat "0"%char k.
Proof.
  induction k as [|k IH]; simpl; [reflexivity|].
  rewrite IH. clear IH. induction k as [|k IH]; simpl; [reflexivity|].
  f_equal. exact IH.
Qed.

Lemma TrimRightZeros_spec (l : bytes) :
  exists k, l = decimal.TrimRightZeros l ++ repeat "0"%char k.
Proof.
  unfold decimal.TrimRightZeros.
  destruct (drop_zeros_spec (rev l)) as [k Hk]. exists k.
  rewrite <- (rev_involutive l) at 1. rewrite Hk at 1.
  rewrite rev_app_distr, rev_repeat_zero. reflexivity.
Qed.

Lemma forallb_repeat_zero (k : nat) : forallb is_digit (repeat "0"%char k) = true.
Proof. induction k; simpl; auto. Qed.

Lemma digits_val_zeros (k : nat) : digits_val 0 (repeat "0"%char k) = 0%N.
Proof.
  induction k as [|k IH]; [reflexivity|].
  change (digits_val 0 (repeat "0"%char (S k))) with (digits_val 0 (repeat "0"%char k)).
  exact IH.
Qed.

Lemma forallb_app_inv (p : ascii -> bool) (a b : bytes) :
  forallb p (a ++ b) = true -> forallb p a = true /\ forallb p b = true.
Proof. rewrite forallb_app. apply andb_prop. Qed.

Definition sign_bytes (neg : bool) : bytes := if neg then ["-"%char] else [].
Definition frac_bytes (fp : bytes) : bytes :=
  match fp with [] => [] | _ => "."%char :: fp end.

Lemma frac_bytes_no_e (fp : bytes) :
  forallb is_digit fp = true ->
  forallb (fun c => negb (decimal.is_e c)) (frac_bytes fp) = true.
Proof.
  intros H. apply digits_no_e in H. destruct fp as [|c fp]; [reflexivity|].
  unfold frac_bytes. simpl in *. exact H.
Qed.

Lemma parse_plain (neg : bool) (ip fp : bytes) :
  ip <> [] -> forallb is_digit ip = true -> forallb is_digit fp = true ->
  Z.of_nat (List.length fp) <= 2 ^ 31 ->
  decimal.parse_bytes (sign_bytes neg ++ ip ++ frac_bytes fp)
  = inl (decimal.mk ((if neg then -1 else 1) * Z.of_N (digits_val 0 (ip ++ fp)))
                    (- Z.of_nat (List.length fp))).
Proof.
  intros Hne Hip Hfp Hlen.
  assert (Hsign_e : forallb (fun c => negb (decimal.is_e c)) (sign_bytes neg) = true)
    by (destruct neg; reflexivity).
  assert (Hsign_dot : forallb (fun c => negb (decimal.is_dot c)) (sign_bytes neg) = true)
    by (destruct neg; reflexivity).
  assert (Hset : forall l, l <> [] -> forallb is_digit l = true ->
                 decimal.SetString (sign_bytes neg ++ l)
                 = Some ((if neg then -1 else 1) * Z.of_N (digits_val 0 l))).
  { intros l Hl Hd. destruct neg; simpl sign_bytes; simpl app.
    - rewrite SetString_minus by assumption. f_equal; lia.
    - rewrite SetString_digits by assumption. f_equal; lia. }
  unfold decimal.parse_bytes.
  rewrite break_at_none.
  2:{ rewrite !forallb_app, Hsign_e, (digits_no_e _ Hip), (frac_bytes_no_e _ Hfp).
      reflexivity. }
  destruct fp as [|c fp].
  - simpl frac_bytes. rewrite !app_nil_r.
    rewrite break_at_none
      by (rewrite forallb_app, Hsign_dot, (digits_no_dot _ Hip); reflexivity).
    rewrite (Hset ip Hne Hip). reflexivity.
  - simpl frac_bytes. rewrite app_assoc.
    rewrite break_at_app;
      [| rewrite forallb_app, Hsign_dot, (digits_no_dot _ Hip); reflexivity | reflexivity].
    rewrite (existsb_dot_digits _ Hfp).
    rewrite <- app_assoc.
    rewrite Hset;
      [| destruct ip; [congruence | discriminate] | rewrite forallb_app, Hip, Hfp; reflexivity].
    replace (0 - Z.of_nat (List.length (c :: fp))) with (- Z.of_nat (List.length (c :: fp)))
      by lia.
    unfold decimal.MinInt32, decimal.MaxInt32.
    destruct (Z.ltb_spec (- Z.of_nat (List.length (c :: fp))) (- 2 ^ 31)); [lia|].
    destruct (Z.ltb_spec (2 ^ 31 - 1) (- Z.of_nat (List.length (c :: fp)))); [lia|].
    reflexivity.
Qed.

(** The shape of the text [String] produces for a negative exponent. *)
Lemma string_bytes_shape (d : decimal.Decimal) :
  decimal.exp d < 0 ->
  exists ip fp k,
    decimal.string_bytes d
    = sign_bytes (decimal.value d <? 0) ++ ip ++ frac_bytes fp
    /\ ip <> [] /\ forallb is_digit ip = true /\ forallb is_digit fp = true
    /\ (List.length fp + k)%nat = Z.to_nat (- decimal.exp d)
    /\ (Z.abs_N (decimal.value d)
        = digits_val 0 ip * 10 ^ N.of_nat (Z.to_nat (- decimal.exp d))
          + digits_val 0 fp * 10 ^ N.of_nat k)%N.
Proof.
  intros Hexp. unfold decimal.string_bytes.
  destruct (Z.leb_spec 0 (decimal.exp d)); [lia|].
  set (str := digits (Z.abs_N (decimal.value d))).
  set (n := Z.to_nat (- decimal.exp d)).
  assert (Hstr : forallb is_digit str = true) by apply digits_all.
  assert (Hval : digits_val 0 str = Z.abs_N (decimal.value d)) by apply digits_value.
  assert (shape : forall ip frac,
             ip <> [] -> forallb is_digit ip = true -> forallb is_digit frac = true ->
             List.length frac = n ->
             (Z.abs_N (decimal.value d)
              = digits_val 0 ip * 10 ^ N.of_nat n + digits_val 0 frac)%N ->
             exists ip' fp k,
               (let fractionalPart := decimal.TrimRightZeros frac in
                let number := match fractionalPart with
                              | [] => ip
                              | _ => ip ++ "."%char :: fractionalPart
                              end in
                if decimal.value d <? 0 then "-"%char :: number else number)
               = sign_bytes (decimal.value d <? 0) ++ ip' ++ frac_bytes fp
               /\ ip' <> [] /\ forallb is_digit ip' = true /\ forallb is_digit fp = true
               /\ (List.length fp + k)%nat = n
               /\ (Z.abs_N (decimal.value d)
                   = digits_val 0 ip' * 10 ^ N.of_nat n
                     + digits_val 0 fp * 10 ^ N.of_nat k)%N).
  { intros ip frac Hne Hip Hfrac Hlen Hnum.
    destruct (TrimRightZeros_spec frac) as [k Hk].
    exists ip, (decimal.TrimRightZeros frac), k.
    assert (Hfp : forallb is_digit (decimal.TrimRightZeros frac) = true).
    { rewrite Hk in Hfrac. apply forallb_app_inv in Hfrac. tauto. }
    repeat split; try assumption.
    - cbv zeta. unfold frac_bytes.
      destruct (decimal.value d <? 0), (decimal.TrimRightZeros frac);
        simpl; rewrite ?app_nil_r; reflexivity.
    - rewrite <- Hlen. rewrite Hk at 2. rewrite length_app, repeat_length. reflexivity.
    - rewrite Hnum. f_equal. rewrite Hk at 1.
      rewrite digits_val_app, repeat_length, digits_val_zeros. lia. }
  destruct (Nat.ltb_spec n (List.length str)) as [Hlt|Hge].
  - apply shape.
    + intros E. apply (f_equal (@List.length ascii)) in E.
      rewrite length_firstn in E. simpl in E. lia.
    + rewrite <- (firstn_skipn (List.length str - n) str) in Hstr.
      apply forallb_app_inv in Hstr. tauto.
    + rewrite <- (firstn_skipn (List.length str - n) str) in Hstr.
      apply forallb_app_inv in Hstr. tauto.
    + rewrite length_skipn. lia.
    + rewrite <- Hval. rewrite <- (firstn_skipn (List.length str - n) str) at 1.
      rewrite digits_val_app, length_skipn.
      replace (List.length str - (List.length str - n))%nat with n by lia. reflexivity.
  - apply shape.
    + discriminate.
    + reflexivity.
    + rewrite forallb_app, forallb_repeat_zero, Hstr. reflexivity.
    + rewrite length_app, repeat_length. lia.
    + rewrite digits_val_app, digits_val_zeros, Hval. simpl. lia.
Qed.

Definition int32 (z : Z) : Prop := decimal.MinInt32 <= z <= decimal.MaxInt32.

Lemma s2b_b2s (l : bytes) : s2b (b2s l) = l.
Proof. apply list_ascii_of_string_of_list_ascii. Qed.

Lemma bigString_shape (z : Z) :
  decimal.bigString z = sign_bytes (z <? 0) ++ digits (Z.abs_N z) ++ frac_bytes [].
Proof.
  unfold decimal.bigString, sign_bytes, frac_bytes. rewrite app_nil_r. reflexivity.
Qed.

(** Reading back the text of a decimal gives a decimal of the same value. *)
Lemma NewFromString_String (d : decimal.Decimal) :
  int32 (decimal.exp d) ->
  exists d', decimal.NewFromString (decimal.String d) = inl d'
             /\ decimal.Equal d' d = true
             /\ int32 (decimal.exp d').
Proof.
  intros [Hlo Hhi]. unfold decimal.MinInt32, decimal.MaxInt32 in *.
  unfold decimal.NewFromString, decimal.String. rewrite s2b_b2s.
  destruct (Z.lt_ge_cases (decimal.exp d) 0) as [Hneg|Hpos].
  - destruct (string_bytes_shape d Hneg) as (ip & fp & k & -> & Hne & Hip & Hfp & Hlen & Hnum).
    rewrite parse_plain by (assumption || lia).
    eexists. split; [reflexivity|]. split.
    + apply (Equal_scaled _ _ (decimal.exp d)); simpl; [lia | lia |].
      unfold scaled; simpl. rewrite Z.sub_diag, Z.pow_0_r, Z.mul_1_r.
      replace (- Z.of_nat (List.length fp) - decimal.exp d) with (Z.of_nat k) by lia.
      assert (Habs : Z.of_N (Z.abs_N (decimal.value d)) = Z.abs (decimal.value d))
        by apply N2Z.inj_abs_N.
      rewrite Hnum in Habs.
      rewrite digits_val_app.
      rewrite N2Z.inj_add, !N2Z.inj_mul, !N2Z.inj_pow, !nat_N_Z in *.
      change (Z.of_N 10) with 10 in *.
      replace (Z.of_nat (Z.to_nat (- decimal.exp d)))
        with (Z.of_nat (List.length fp) + Z.of_nat k) in Habs by lia.
      rewrite Z.pow_add_r in Habs by lia.
      rewrite <- Z.mul_assoc.
      replace ((Z.of_N (digits_val 0 ip) * 10 ^ Z.of_nat (List.length fp)
                + Z.of_N (digits_val 0 fp)) * 10 ^ Z.of_nat k)
        with (Z.abs (decimal.value d)) by (rewrite <- Habs; ring).
      destruct (Z.ltb_spec (decimal.value d) 0); lia.
    + simpl. unfold int32, decimal.MinInt32, decimal.MaxInt32. lia.
  - unfold decimal.string_bytes.
    destruct (Z.leb_spec 0 (decimal.exp d)); [|lia].
    rewrite bigString_shape.
    rewrite parse_plain by (apply digits_nonempty || apply digits_all || reflexivity || (simpl; lia)).
    eexists. split; [reflexivity|]. split.
    + apply (Equal_scaled _ _ 0); simpl; [lia | lia |].
      unfold scaled; simpl. rewrite app_nil_r, digits_value, N2Z.inj_abs_N.
      unfold decimal.rescale.
      destruct (Z.eqb_spec (decimal.exp d) 0) as [E|E].
      * rewrite E. simpl. destruct (Z.ltb_spec (decimal.value d) 0); lia.
      * destruct (Z.ltb_spec (decimal.exp d) 0); [lia|]. simpl.
        replace (Z.abs (- decimal.exp d)) with (decimal.exp d - 0) by lia.
        generalize (decimal.value d * 10 ^ (decimal.exp d - 0)). intros z.
        destruct (Z.ltb_spec z 0); lia.
    + simpl. unfold int32, decimal.MinInt32, decimal.MaxInt32. lia.
Qed.

(** ** The numeric predicate *)

Section NumericFacts.

Import predicate.
Local Open Scope string_scope.

Variable roundShortest : float -> decimal.Decimal.
Variable Sprint : value -> string.

Local Abbreviation Unmarshal := (numeric_Unmarshal roundShortest Sprint).
Local Abbreviation NewFromFloat := (decimal.NewFromFloat roundShortest).


Lemma comparisonOpMap_cases (o : ComparisonOp) :
  comparisonOpMap o = true <->
  o = LT \/ o = LTE \/ o = GT \/ o = GTE \/ o = EQL \/ o = NEQL.
Proof.
  unfold comparisonOpMap. simpl. rewrite !orb_true_iff, !String.eqb_eq.
  intuition congruence.
Qed.


Lemma Cmp_Equal_r (a b c : decimal.Decimal) :
  decimal.Equal a b = true -> decimal.Cmp c a = decimal.Cmp c b.
Proof.
  intros E. apply Equal_toQ in E. rewrite !Cmp_toQ, E. reflexivity.
Qed.

(** The decimal a JSON argument stands for: a string is read by
    [NewFromString], a number is converted by [NewFromFloat]. *)
Definition decodes (arg : value) (d : decimal.Decimal) : Prop :=
  match arg with
  | Float64 t => NewFromFloat t = Ret d
  | Str t => decimal.NewFromString t = inl d
  | _ => False
  end.

Lemma Unmarshal_number (q : numeric) (o : ComparisonOp) (arg : value) (d : decimal.Decimal) :
  comparisonOpMap o = true ->
  decodes arg d ->
  Unmarshal q (Array [Str o; arg])
  = if unsigned q && decimal.LessThan d decimal.Zero
    then Ret ({| op := o; n := n q; unsigned := unsigned q |},
              Some (Errorf (decimal.String d ++ " must be an unsigned (non-negative) number")
                           None))
    else Ret ({| op := o; n := d; unsigned := unsigned q |}, None).
Proof.
  intros Ho Harg. unfold numeric_Unmarshal. simpl matcher.Array. rewrite Ho.
  cbn [negb List.length Nat.ltb Nat.leb Nat.eqb].
  destruct arg; try contradiction; simpl in Harg; rewrite Harg; reflexivity.
Qed.

Lemma HasPrefix_app (a b : string) : HasPrefix (a ++ b) a = true.
Proof.
  induction a as [|c a IH]; simpl; [destruct b; reflexivity|].
  rewrite Ascii.eqb_refl, IH. reflexivity.
Qed.

Lemma Contains_app_r (a b sub : string) :
  Contains b sub = true -> Contains (a ++ b) sub = true.
Proof.
  intros H. induction a as [|c a IH]; simpl; [exact H|].
  rewrite IH. apply orb_true_r.
Qed.

(** The comparison the spec names, on exact rational values. *)
Definition exact_comparison (o : ComparisonOp) (x y : Q) : Prop :=
  (o = LT /\ (x < y)%Q) \/ (o = LTE /\ (x <= y)%Q) \/ (o = GT /\ (y < x)%Q)
  \/ (o = GTE /\ (y <= x)%Q) \/ (o = EQL /\ (x == y)%Q) \/ (o = NEQL /\ ~ (x == y)%Q).

Lemma Qcompare_cases (x y : Q) :
  ((x ?= y)%Q = Lt /\ (x < y)%Q /\ ~ (x == y)%Q /\ (x <= y)%Q /\ ~ (y < x)%Q /\ ~ (y <= x)%Q)
  \/ ((x ?= y)%Q = Eq /\ ~ (x < y)%Q /\ (x == y)%Q /\ (x <= y)%Q /\ ~ (y < x)%Q /\ (y <= x)%Q)
  \/ ((x ?= y)%Q = Gt /\ ~ (x < y)%Q /\ ~ (x == y)%Q /\ ~ (x <= y)%Q /\ (y < x)%Q /\ (y <= x)%Q).
Proof.
  destruct (Qcompare_spec x y) as [E|L|G].
  - right; left. split; [reflexivity|]. rewrite E.
    repeat split; try apply Qle_refl; try apply Qlt_irrefl; reflexivity.
  - left. split; [reflexivity|]. repeat split; try assumption.
    + intros E. rewrite E in L. exact (Qlt_irrefl _ L).
    + apply Qlt_le_weak, L.
    + intros G. exact (Qlt_irrefl _ (Qlt_trans _ _ _ L G)).
    + intros G. exact (Qlt_irrefl _ (Qlt_le_trans _ _ _ L G)).
  - right; right. split; [reflexivity|]. repeat split; try assumption.
    + intros L. exact (Qlt_irrefl _ (Qlt_trans _ _ _ L G)).
    + intros E. rewrite E in G. exact (Qlt_irrefl _ G).
    + intros L. exact (Qlt_irrefl _ (Qlt_le_trans _ _ _ G L)).
    + apply Qlt_le_weak, G.
Qed.

Lemma EvalNumeric_exact (p : numeric) (x : decimal.Decimal) :
  comparisonOpMap (op p) = true ->
  exists b, numeric_EvalNumeric p x = Ret b
            /\ (b = true <-> exact_comparison (op p) (decimal.toQ x) (decimal.toQ (n p))).
Proof.
  intros Ho. apply comparisonOpMap_cases in Ho.
  destruct p as [o d u]; simpl in *.
  unfold numeric_EvalNumeric, exact_comparison; simpl.
  unfold decimal.LessThan, decimal.LessThanOrEqual, decimal.GreaterThan,
    decimal.GreaterThanOrEqual, decimal.Equal.
  rewrite Cmp_toQ.
  destruct (Qcompare_cases (decimal.toQ x) (decimal.toQ d))
    as [[Hc H]|[[Hc H]|[Hc H]]]; rewrite Hc;
    destruct Ho as [ -> | [ -> | [ -> | [ -> | [ -> | -> ] ] ] ] ]; simpl;
    eexists; (split; [reflexivity|]);
    unfold LT, LTE, GT, GTE, EQL, NEQL;
    (split; [intros Hb; try discriminate Hb; tauto
            | intros Hx; try reflexivity; exfalso;
              repeat match goal with
                     | H : _ \/ _ |- _ => destruct H
                     | H : _ /\ _ |- _ => destruct H
                     end; try discriminate; tauto]).
Qed.


(** *** Floats and the decimals made from them *)

(** The rational number a finite float denotes, and half a unit in its last
    place. *)
Definition float_value (f : float) : Q :=
  match Prim2SF f with
  | S754_finite s m e => inject_Z (if s then Z.neg m else Z.pos m) * Qpower 2 e
  | _ => 0
  end.

Definition half_ulp (f : float) : Q :=
  match Prim2SF f with
  | S754_finite _ _ e => Qpower 2 (e - 1)
  | _ => 0
  end.

(** A decimal within half a unit in the last place of a float. *)
Definition near (d : decimal.Decimal) (f : float) : Prop :=
  (float_value f - half_ulp f <= decimal.toQ d)%Q
  /\ (decimal.toQ d <= float_value f + half_ulp f)%Q.

(** What the decimal library promises of the digits it generates for a float
    that is finite and not zero: they read back as the float, so their value
    is within half a unit in its last place; and the exponent of a decimal is
    an [int32]. *)
Hypothesis roundShortest_near :
  forall f, PrimFloat.is_finite f = true -> PrimFloat.eqb f 0 = false ->
            near (roundShortest f) f.
Hypothesis roundShortest_int32 : forall f, int32 (decimal.exp (roundShortest f)).

Lemma zero_float (t : float) :
  PrimFloat.eqb t 0 = true -> exists s, Prim2SF t = S754_zero s.
Proof.
  rewrite FloatAxioms.eqb_spec. change (Prim2SF 0) with (S754_zero false).
  unfold SFeqb, SFcompare.
  destruct (Prim2SF t) as [s|s| |s m e]; try destruct s; try discriminate; eauto.
Qed.

Lemma zero_is_finite (t : float) :
  PrimFloat.eqb t 0 = true -> PrimFloat.is_finite t = true.
Proof.
  intros H. destruct (zero_float t H) as [s Hs].
  unfold PrimFloat.is_finite, PrimFloat.is_nan, PrimFloat.is_infinity.
  rewrite !FloatAxioms.eqb_spec, FloatAxioms.abs_spec, Hs. reflexivity.
Qed.

Lemma NewFromFloat_finite (t : float) :
  PrimFloat.is_finite t = true ->
  NewFromFloat t = Ret (if PrimFloat.eqb t 0 then decimal.New 0 0 else roundShortest t).
Proof.
  unfold decimal.NewFromFloat, PrimFloat.is_finite. intros H.
  destruct (PrimFloat.eqb t 0); [reflexivity|].
  apply negb_true_iff in H. rewrite H. reflexivity.
Qed.

Lemma NewFromFloat_not_finite (t : float) :
  PrimFloat.is_finite t = false ->
  NewFromFloat t
  = Panic ("Cannot create a Decimal from "
             ++ (if PrimFloat.is_nan t then "NaN"
                 else if PrimFloat.ltb t 0 then "-Inf" else "+Inf")).
Proof.
  intros H. unfold decimal.NewFromFloat.
  destruct (PrimFloat.eqb t 0) eqn:E;
    [rewrite (zero_is_finite t E) in H; discriminate|].
  unfold PrimFloat.is_finite in H. apply negb_false_iff in H. rewrite H. reflexivity.
Qed.

Lemma NewFromFloat_near (t : float) :
  PrimFloat.is_finite t = true ->
  exists d, NewFromFloat t = Ret d /\ near d t /\ int32 (decimal.exp d).
Proof.
  intros H. rewrite (NewFromFloat_finite t H).
  destruct (PrimFloat.eqb t 0) eqn:E.
  - exists (decimal.New 0 0). split; [reflexivity|].
    destruct (zero_float t E) as [s Hs].
    unfold near, float_value, half_ulp. rewrite Hs.
    split; [split; discriminate|].
    unfold int32, decimal.MinInt32, decimal.MaxInt32. simpl. lia.
  - exists (roundShortest t). split; [reflexivity|].
    split; [apply roundShortest_near; assumption | apply roundShortest_int32].
Qed.

(** A number farther from the operand than the bound [h] compares with it
    as any number within [h] of it does. *)
Lemma exact_comparison_far (o : ComparisonOp) (d v h y : Q) :
  (v - h <= d)%Q -> (d <= v + h)%Q -> (v + h < y)%Q \/ (y < v - h)%Q ->
  (exact_comparison o d y <-> exact_comparison o v y).
Proof.
  intros H1 H2 Hfar. unfold exact_comparison.
  split;
    (intros [[-> Hc]|[[-> Hc]|[[-> Hc]|[[-> Hc]|[[-> Hc]| [-> Hc]]]]]];
     destruct Hfar as [Hfar|Hfar];
     first [ left; split; [reflexivity | lra]
           | right; left; split; [reflexivity | lra]
           | right; right; left; split; [reflexivity | lra]
           | right; right; right; left; split; [reflexivity | lra]
           | right; right; right; right; left; split; [reflexivity | lra]
           | right; right; right; right; right; split; [reflexivity | intros E; lra]
           | exfalso; lra
           | exfalso; apply Hc; lra ]).
Qed.

(** C5. Numeric predicates compare with exact decimal semantics.  The operand
    is marshalled as the decimal's text, which reads back as a decimal of the
    same rational value.  Unmarshalling accepts a decimal string, read
    exactly, and a JSON number, converted by the decimal library to a decimal
    within half a unit in the last place of the float.  On every decimal each
    of the six comparators answers as the comparison of the exact rational
    values does; on an evaluated float the answer is that comparison for the
    decimal made from the float, and it is the comparison of the float's own
    value with the operand whenever the two are farther apart than half a
    unit in the float's last place. *)
Theorem numeric_exact_decimal_semantics (p : numeric) :
  (numeric_Marshal p = Array [Str (op p); Str (decimal.String (n p))]
   /\ (int32 (decimal.exp (n p)) ->
       exists d, decimal.NewFromString (decimal.String (n p)) = inl d
                 /\ (decimal.toQ d == decimal.toQ (n p))%Q))
  /\ (forall q o t d,
        comparisonOpMap o = true -> decimal.NewFromString t = inl d ->
        unsigned q = false \/ decimal.LessThan d decimal.Zero = false ->
        Unmarshal q (Array [Str o; Str t])
        = Ret ({| op := o; n := d; unsigned := unsigned q |}, None))
  /\ (forall q o t,
        comparisonOpMap o = true -> PrimFloat.is_finite t = true ->
        exists d,
          NewFromFloat t = Ret d /\ near d t
          /\ (unsigned q = false \/ decimal.LessThan d decimal.Zero = false ->
              Unmarshal q (Array [Str o; Float64 t])
              = Ret ({| op := o; n := d; unsigned := unsigned q |}, None)))
  /\ (forall x, comparisonOpMap (op p) = true ->
        exists b, numeric_EvalNumeric p x = Ret b
                  /\ (b = true <->
                      exact_comparison (op p) (decimal.toQ x) (decimal.toQ (n p))))
  /\ (forall t, comparisonOpMap (op p) = true -> PrimFloat.is_finite t = true ->
        exists d b,
          NewFromFloat t = Ret d /\ near d t
          /\ numericValue_EvalValue roundShortest (NumericValue p) (Float64 t) = Ret b
          /\ (b = true <->
              exact_comparison (op p) (decimal.toQ d) (decimal.toQ (n p)))
          /\ ((float_value t + half_ulp t < decimal.toQ (n p))%Q
              \/ (decimal.toQ (n p) < float_value t - half_ulp t)%Q ->
              (b = true <->
               exact_comparison (op p) (float_value t) (decimal.toQ (n p))))).
Proof.
  split.
  { split; [reflexivity|].
    intros Hexp. destruct (NewFromString_String (n p) Hexp) as (d & Hd & HE & _).
    exists d. split; [exact Hd|]. apply Equal_toQ, HE. }
  split.
  { intros q o t d Ho Harg Hsign. rewrite (Unmarshal_number q o (Str t) d Ho Harg).
    destruct Hsign as [-> | ->]; [reflexivity|]. rewrite andb_false_r. reflexivity. }
  split.
  { intros q o t Ho Hfin. destruct (NewFromFloat_near t Hfin) as (d & Hd & Hnear & _).
    exists d. split; [exact Hd|]. split; [exact Hnear|]. intros Hsign.
    rewrite (Unmarshal_number q o (Float64 t) d Ho Hd).
    destruct Hsign as [-> | ->]; [reflexivity|]. rewrite andb_false_r. reflexivity. }
  split.
  { intros x Ho. apply EvalNumeric_exact, Ho. }
  intros t Ho Hfin. destruct (NewFromFloat_near t Hfin) as (d & Hd & Hnear & _).
  destruct (EvalNumeric_exact p d Ho) as (b & Hb & Hexact).
  exists d, b. split; [exact Hd|]. split; [exact Hnear|].
  split; [unfold numericValue_EvalValue; rewrite Hd; exact Hb|].
  split; [exact Hexact|].
  intros Hfar. rewrite Hexact.
  destruct Hnear as [Hlo Hhi].
  apply (exact_comparison_far (op p) _ _ (half_ulp t)); assumption.
Qed.

(** C4. Unmarshalling a comparison against a negative number into an unsigned
    numeric predicate fails with an error that is not a match error and whose
    message contains "unsigned"; [["<", "-1"]] is such an input.  [["<", "5"]]
    is accepted, and the predicate it gives holds of 3 and not of 7. *)
Theorem unsigned_numeric_unmarshal :
  (forall q o arg d,
      unsigned q = true -> comparisonOpMap o = true -> decodes arg d ->
      decimal.LessThan d decimal.Zero = true ->
      exists q' err,
        Unmarshal q (Array [Str o; arg]) = Ret (q', Some err)
        /\ IsMatchError err = false
        /\ Contains (Error err) "unsigned" = true)
  /\ (forall o d,
        Unmarshal (UnsignedNumeric o d) (Array [Str "<"; Str "-1"])
        = Ret (UnsignedNumeric "<" d,
               Some (Errorf "-1 must be an unsigned (non-negative) number" None)))
  /\ (forall o d,
        Unmarshal (UnsignedNumeric o d) (Array [Str "<"; Str "5"])
        = Ret (UnsignedNumeric LT (decimal.New 5 0), None))
  /\ (forall x, (decimal.toQ x == 3)%Q ->
        numeric_EvalNumeric (UnsignedNumeric LT (decimal.New 5 0)) x = Ret true)
  /\ (forall x, (decimal.toQ x == 7)%Q ->
        numeric_EvalNumeric (UnsignedNumeric LT (decimal.New 5 0)) x = Ret false).
Proof.
  split.
  { intros q o arg d Hu Ho Harg Hneg.
    rewrite (Unmarshal_number q o arg d Ho Harg), Hu, Hneg. simpl.
    eexists; eexists. split; [reflexivity|]. split; [reflexivity|].
    simpl Error. apply Contains_app_r. reflexivity. }
  split.
  { intros o d. rewrite (Unmarshal_number _ "<" (Str "-1") (decimal.New (-1) 0));
      reflexivity. }
  split.
  { intros o d. rewrite (Unmarshal_number _ "<" (Str "5") (decimal.New 5 0));
      reflexivity. }
  split; intros x Hx; unfold numeric_EvalNumeric; simpl;
    unfold decimal.LessThan; rewrite Cmp_toQ, Hx; reflexivity.
Qed.

(** *** Every outcome of [Unmarshal] *)

(** An array whose first element is a comparison operator: what the matcher
    of [Unmarshal] accepts. *)
Definition headed (input : value) : bool :=
  match input with
  | Array (Str o :: _) => comparisonOpMap o
  | _ => false
  end.

Lemma Unmarshal_unheaded (p : numeric) (input : value) :
  headed input = false ->
  Unmarshal p input
  = Ret (p, Some (MatchError "must be formatted as [<comparison_op>, <number>]")).
Proof.
  intros H. unfold numeric_Unmarshal.
  assert (E : matcher.Array (fun v => match v with
                                      | Str opStr => comparisonOpMap opStr
                                      | _ => false
                                      end) input = false).
  { destruct input as [| | | |[|[]]|]; try reflexivity. exact H. }
  rewrite E. reflexivity.
Qed.

(** What the switch of [Unmarshal] makes of the second element: a decimal, an
    error, or the panic of the decimal library. *)
Inductive operand : Type :=
| Number (d : decimal.Decimal)
| Refused (err : error)
| Panics (msg : string).

Definition decode (arg : value) : operand :=
  match arg with
  | Float64 t =>
      match NewFromFloat t with
      | Ret d => Number d
      | Panic msg => Panics msg
      end
  | Str t =>
      match decimal.NewFromString t with
      | inl d => Number d
      | inr err => Refused (Errorf ("failed to parse " ++ t ++ " as a number: " ++ err)
                                   (Some (DecimalError err)))
      end
  | t => Refused (Errorf (Sprint t ++ " is not a valid number") None)
  end.

Lemma decode_Number (arg : value) (d : decimal.Decimal) :
  decode arg = Number d <-> decodes arg d.
Proof.
  destruct arg as [| |t|t| |]; simpl; try (split; [discriminate | contradiction]).
  - destruct (NewFromFloat t); split; congruence.
  - destruct (decimal.NewFromString t); split; congruence.
Qed.

Lemma decode_Refused (arg : value) (err : error) :
  decode arg = Refused err -> IsMatchError err = false.
Proof.
  destruct arg as [| |t|t| |]; simpl; try (intros [= <-]; reflexivity).
  - destruct (NewFromFloat t); discriminate.
  - destruct (decimal.NewFromString t); [discriminate | intros [= <-]; reflexivity].
Qed.

Lemma decode_Panics (arg : value) :
  (exists msg, decode arg = Panics msg)
  <-> exists t, arg = Float64 t /\ PrimFloat.is_finite t = false.
Proof.
  split.
  - intros [msg H]. destruct arg as [| |t|t| |]; simpl in H; try discriminate.
    + exists t. split; [reflexivity|].
      destruct (PrimFloat.is_finite t) eqn:E; [|reflexivity].
      rewrite (NewFromFloat_finite t E) in H. discriminate.
    + destruct (decimal.NewFromString t); discriminate.
  - intros (t & -> & H). simpl. rewrite (NewFromFloat_not_finite t H). eauto.
Qed.

Lemma Unmarshal_headed (p : numeric) (o : ComparisonOp) (rest : list value) :
  comparisonOpMap o = true ->
  Unmarshal p (Array (Str o :: rest))
  = match rest with
    | [] => Ret (p, Some (Errorf
               "must be formatted as [<comparison_op>, <number>] (missing the number)" None))
    | [arg] =>
        match decode arg with
        | Panics msg => Panic msg
        | Refused err => Ret (p, Some err)
        | Number d =>
            if unsigned p && decimal.LessThan d decimal.Zero
            then Ret ({| op := o; n := n p; unsigned := unsigned p |},
                      Some (Errorf (decimal.String d
                                      ++ " must be an unsigned (non-negative) number") None))
            else Ret ({| op := o; n := d; unsigned := unsigned p |}, None)
        end
    | _ => Ret (p, Some (Errorf "must be formatted as [<comparison_op>, <number>]" None))
    end.
Proof.
  intros Ho. unfold numeric_Unmarshal. simpl matcher.Array. rewrite Ho.
  destruct rest as [|arg [|y rest]]; [reflexivity | | destruct arg; reflexivity].
  cbn [negb List.length Nat.ltb Nat.leb Nat.eqb]. unfold decode.
  destruct arg as [| |t|t| |]; try reflexivity.
  - destruct (NewFromFloat t); reflexivity.
  - destruct (decimal.NewFromString t); reflexivity.
Qed.

Lemma headed_shape (input : value) :
  headed input = true ->
  exists o rest, input = Array (Str o :: rest) /\ comparisonOpMap o = true.
Proof.
  destruct input as [| | | |[|[| | |o| |] rest]|]; try discriminate. eauto.
Qed.

Lemma Unmarshal_panics (p : numeric) (input : value) :
  (exists msg, Unmarshal p input = Panic msg)
  <-> exists o t, input = Array [Str o; Float64 t] /\ comparisonOpMap o = true
                  /\ PrimFloat.is_finite t = false.
Proof.
  split.
  - intros [msg H]. destruct (headed input) eqn:Eh;
      [|rewrite (Unmarshal_unheaded p input Eh) in H; discriminate].
    destruct (headed_shape input Eh) as (o & rest & -> & Ho).
    rewrite (Unmarshal_headed p o rest Ho) in H.
    destruct rest as [|arg [|y rest]]; try discriminate.
    destruct (decode arg) as [d|err|m] eqn:Ed.
    + destruct (unsigned p && decimal.LessThan d decimal.Zero); discriminate.
    + discriminate.
    + destruct (proj1 (decode_Panics arg) (ex_intro _ m Ed)) as (t & -> & Ht).
      exists o, t. auto.
  - intros (o & t & -> & Ho & Ht). rewrite (Unmarshal_headed p o _ Ho).
    destruct (proj2 (decode_Panics (Float64 t))) as [msg Hm]; [eauto|].
    rewrite Hm. eauto.
Qed.

Lemma Unmarshal_succeeds (p p' : numeric) (input : value) :
  Unmarshal p input = Ret (p', None)
  <-> exists o arg d,
        input = Array [Str o; arg] /\ comparisonOpMap o = true /\ decodes arg d
        /\ unsigned p && decimal.LessThan d decimal.Zero = false
        /\ p' = {| op := o; n := d; unsigned := unsigned p |}.
Proof.
  split.
  - intros H. destruct (headed input) eqn:Eh;
      [|rewrite (Unmarshal_unheaded p input Eh) in H; discriminate].
    destruct (headed_shape input Eh) as (o & rest & -> & Ho).
    rewrite (Unmarshal_headed p o rest Ho) in H.
    destruct rest as [|arg [|y rest]]; try discriminate.
    destruct (decode arg) as [d|err|m] eqn:Ed; try discriminate.
    apply decode_Number in Ed.
    destruct (unsigned p && decimal.LessThan d decimal.Zero) eqn:Es; [discriminate|].
    injection H as <-. exists o, arg, d. auto.
  - intros (o & arg & d & -> & Ho & Hd & Hs & ->).
    rewrite (Unmarshal_number p o arg d Ho Hd), Hs. reflexivity.
Qed.

Lemma Unmarshal_fails (p p' : numeric) (input : value) (e : error) :
  Unmarshal p input = Ret (p', Some e) ->
  unsigned p' = unsigned p /\ n p' = n p
  /\ (IsMatchError e = true <-> headed input = false)
  /\ (p' = p
      \/ exists o arg d,
          input = Array [Str o; arg] /\ decodes arg d
          /\ unsigned p = true /\ decimal.LessThan d decimal.Zero = true
          /\ p' = {| op := o; n := n p; unsigned := unsigned p |}).
Proof.
  intros H. destruct (headed input) eqn:Eh.
  2:{ rewrite (Unmarshal_unheaded p input Eh) in H. injection H as <- <-.
      repeat split; auto. }
  destruct (headed_shape input Eh) as (o & rest & -> & Ho).
  rewrite (Unmarshal_headed p o rest Ho) in H.
  assert (Hplain : forall msg cause,
             Ret (p, Some (Errorf msg cause)) = Ret (p', Some e) ->
             unsigned p' = unsigned p /\ n p' = n p
             /\ (IsMatchError e = true <-> true = false)
             /\ (p' = p
                 \/ exists o' arg d,
                     Array (Str o :: rest) = Array [Str o'; arg] /\ decodes arg d
                     /\ unsigned p = true /\ decimal.LessThan d decimal.Zero = true
                     /\ p' = {| op := o'; n := n p; unsigned := unsigned p |})).
  { intros msg cause [= <- <-]. repeat split; auto; discriminate. }
  destruct rest as [|arg [|y rest]]; [exact (Hplain _ _ H) | | exact (Hplain _ _ H)].
  destruct (decode arg) as [d|err|m] eqn:Ed; [| |discriminate].
  - apply decode_Number in Ed.
    destruct (unsigned p) eqn:Eu; [|discriminate].
    destruct (decimal.LessThan d decimal.Zero) eqn:El; [|discriminate].
    simpl in H. injection H as <- <-. simpl.
    split; [reflexivity|]. split; [reflexivity|]. split; [split; discriminate|].
    right. exists o, arg, d. auto.
  - pose proof (decode_Refused arg err Ed) as Hm.
    injection H as <- <-. rewrite Hm. repeat split; auto; discriminate.
Qed.

(** [Unmarshal] panics exactly on a pair of a comparison operator and a
    float64 that is NaN or infinite (the panic of [decimal.NewFromFloat]).
    It succeeds exactly on a pair of a comparison operator and a number (a
    finite float64, or a string that reads as a decimal) that is not negative
    when the predicate is unsigned, and then sets the operator and the
    operand.  Its error is a match error exactly when the input is no array
    headed by a comparison operator.  An error leaves the operand and the
    signedness as they were; it leaves the operator too, except for the error
    on a negative number for an unsigned predicate, which comes after the
    operator is overwritten. *)
Theorem Unmarshal_outcomes (p : numeric) (input : value) :
  ((exists msg, Unmarshal p input = Panic msg)
   <-> exists o t, input = Array [Str o; Float64 t] /\ comparisonOpMap o = true
                   /\ PrimFloat.is_finite t = false)
  /\ (forall p',
         Unmarshal p input = Ret (p', None)
         <-> exists o arg d,
               input = Array [Str o; arg] /\ comparisonOpMap o = true /\ decodes arg d
               /\ unsigned p && decimal.LessThan d decimal.Zero = false
               /\ p' = {| op := o; n := d; unsigned := unsigned p |})
  /\ (forall p' e,
         Unmarshal p input = Ret (p', Some e) ->
         unsigned p' = unsigned p /\ n p' = n p
         /\ (IsMatchError e = true <-> headed input = false)
         /\ (p' = p
             \/ exists o arg d,
                 input = Array [Str o; arg] /\ decodes arg d
                 /\ unsigned p = true /\ decimal.LessThan d decimal.Zero = true
                 /\ p' = {| op := o; n := n p; unsigned := unsigned p |})).
Proof.
  split; [apply Unmarshal_panics|]. split.
  - intros p'. apply Unmarshal_succeeds.
  - intros p' e. apply Unmarshal_fails.
Qed.

(** *** Evaluation *)

Lemma EvalNumeric_unknown (p : numeric) (x : decimal.Decimal) :
  comparisonOpMap (op p) = false ->
  numeric_EvalNumeric p x
  = Panic ("p.op (" ++ op p ++ ") is not a valid comparison operator").
Proof.
  unfold comparisonOpMap. simpl. rewrite !orb_false_iff.
  intros (H1 & H2 & H3 & H4 & H5 & H6 & _).
  unfold numeric_EvalNumeric. rewrite H1, H2, H3, H4, H5, H6. reflexivity.
Qed.

(** [EvalNumeric] returns when the operator is one of the six and panics,
    naming the operator, on any other, which [Numeric] and [UnsignedNumeric]
    accept; [EvalValue] answers [false] on a value that is no number without
    looking at the operator. *)
Theorem EvalNumeric_unknown_operator (p : numeric) :
  (forall x, (exists b, numeric_EvalNumeric p x = Ret b) <-> comparisonOpMap (op p) = true)
  /\ (forall x, comparisonOpMap (op p) = false ->
        numeric_EvalNumeric p x
        = Panic ("p.op (" ++ op p ++ ") is not a valid comparison operator"))
  /\ (forall v, (forall t, v <> Float64 t) ->
        numericValue_EvalValue roundShortest (NumericValue p) v = Ret false).
Proof.
  split; [|split].
  - intros x. split.
    + intros [b Hb]. destruct (comparisonOpMap (op p)) eqn:E; [reflexivity|].
      rewrite (EvalNumeric_unknown p x E) in Hb. discriminate.
    + intros Ho. destruct (EvalNumeric_exact p x Ho) as (b & Hb & _). exists b. exact Hb.
  - intros x. apply EvalNumeric_unknown.
  - intros v Hv. destruct v; try reflexivity. destruct (Hv f eq_refl).
Qed.

(** A predicate that [Unmarshal] has set evaluates without panic, on every
    decimal, to the exact comparison of the two numbers, whatever the
    receiver was before the call; [EvalValue] then returns on every value
    but a float64 that is NaN or infinite, on which [decimal.NewFromFloat]
    panics. *)
Theorem Unmarshal_result_evaluates (q p' : numeric) (input : value) :
  Unmarshal q input = Ret (p', None) ->
  (forall x, exists b,
      numeric_EvalNumeric p' x = Ret b
      /\ (b = true <-> exact_comparison (op p') (decimal.toQ x) (decimal.toQ (n p'))))
  /\ (forall v, (forall t, v = Float64 t -> PrimFloat.is_finite t = true) ->
        exists b, numericValue_EvalValue roundShortest (NumericValue p') v = Ret b)
  /\ (forall t, PrimFloat.is_finite t = false ->
        exists msg,
          numericValue_EvalValue roundShortest (NumericValue p') (Float64 t) = Panic msg).
Proof.
  intros Hrun.
  apply Unmarshal_succeeds in Hrun as (o & arg & d & _ & Ho & _ & _ & ->).
  split; [|split].
  - intros x. apply EvalNumeric_exact. exact Ho.
  - intros [| |t| | |] Hfin; try (exists false; reflexivity).
    simpl. rewrite (NewFromFloat_finite t (Hfin t eq_refl)).
    destruct (EvalNumeric_exact {| op := o; n := d; unsigned := unsigned q |}
                (if PrimFloat.eqb t 0 then decimal.New 0 0 else roundShortest t) Ho)
      as (b & Hb & _).
    exists b. exact Hb.
  - intros t Ht. simpl. rewrite (NewFromFloat_not_finite t Ht). eauto.
Qed.

Lemma Cmp_cases (a b : decimal.Decimal) :
  decimal.Cmp a b = -1 \/ decimal.Cmp a b = 0 \/ decimal.Cmp a b = 1.
Proof.
  rewrite Cmp_toQ. destruct (decimal.toQ a ?= decimal.toQ b)%Q; auto.
Qed.

(** With the same operand, [>=] answers the contrary of [<], [<=] the
    contrary of [>] and [!=] the contrary of [=], and exactly one of [<], [=]
    and [>] holds. *)
Theorem EvalNumeric_complementary (d x : decimal.Decimal) (u : bool) :
  let eval o := numeric_EvalNumeric {| op := o; n := d; unsigned := u |} x in
  exists lt eq gt,
    eval LT = Ret lt /\ eval EQL = Ret eq /\ eval GT = Ret gt
    /\ eval GTE = Ret (negb lt) /\ eval LTE = Ret (negb gt) /\ eval NEQL = Ret (negb eq)
    /\ (lt, eq, gt) <> (false, false, false)
    /\ lt && eq = false /\ lt && gt = false /\ eq && gt = false.
Proof.
  cbv zeta. unfold numeric_EvalNumeric. simpl.
  unfold decimal.LessThan, decimal.LessThanOrEqual, decimal.GreaterThan,
    decimal.GreaterThanOrEqual, decimal.Equal.
  do 3 eexists. repeat (split; [reflexivity|]).
  destruct (Cmp_cases x d) as [-> | [-> | ->]]; simpl; repeat split; congruence.
Qed.

(** *** The value predicate *)

Local Abbreviation UnmarshalValue := (numericValue_Unmarshal roundShortest Sprint).

Lemma UnmarshalValue_unheaded (p : numericValue) (input : value) :
  matcher.Array (matcher.Value "number") input = false ->
  UnmarshalValue p input
  = Ret (p, Some (MatchError "must be formatted as ['number', NPE NumericPredicate]")).
Proof. intros H. unfold numericValue_Unmarshal. rewrite H. reflexivity. Qed.

Lemma UnmarshalValue_headed (p : numericValue) (rest : list value) :
  UnmarshalValue p (Array (Str "number" :: rest))
  = match rest with
    | [] => Ret (p, Some (Errorf
               "must be formatted as ['number', NPE NumericPredicate] (missing the NPE NumericPredicate)"
               None))
    | [inner] =>
        match Unmarshal (NumericPredicate p) inner with
        | Panic msg => Panic msg
        | Ret (q, Some err) =>
            Ret (NumericValue q,
                 Some (Errorf ("error unmarshalling the NPE NumericPredicate: " ++ Error err)
                              (Some err)))
        | Ret (q, None) => Ret (NumericValue q, None)
        end
    | _ => Ret (p, Some (Errorf "must be formatted as ['number', NPE NumericPredicate]" None))
    end.
Proof. destruct rest as [|inner [|y rest]]; reflexivity. Qed.

Lemma number_headed (input : value) :
  matcher.Array (matcher.Value "number") input = true ->
  exists rest, input = Array (Str "number" :: rest).
Proof.
  destruct input as [| | | |[|[| | |t| |] rest]|]; try discriminate.
  simpl. intros H. apply String.eqb_eq in H. subst t. eauto.
Qed.


(** [numericValue.Unmarshal] panics exactly on [["number", [op, x]]] with a
    comparison operator and a float64 that is NaN or infinite.  It succeeds
    exactly on [["number", [op, number]]] with a pair that the numeric
    predicate accepts (a comparison operator and a number that is not
    negative when the predicate is unsigned), and then wraps the predicate
    with that operator and operand.  Its error is a match error when the
    input is no array headed by ["number"], a plain error when the array has
    not two elements, and else the error of the numeric predicate, wrapped;
    the wrapped predicate is what the numeric predicate's [Unmarshal]
    left. *)
Theorem numericValue_Unmarshal_outcomes (p : numericValue) (input : value) :
  ((exists msg, UnmarshalValue p input = Panic msg)
   <-> exists o t, input = Array [Str "number"; Array [Str o; Float64 t]]
                   /\ comparisonOpMap o = true /\ PrimFloat.is_finite t = false)
  /\ (forall p',
         UnmarshalValue p input = Ret (p', None)
         <-> exists o arg d,
               input = Array [Str "number"; Array [Str o; arg]]
               /\ comparisonOpMap o = true /\ decodes arg d
               /\ unsigned (NumericPredicate p) && decimal.LessThan d decimal.Zero = false
               /\ p' = NumericValue {| op := o; n := d;
                                       unsigned := unsigned (NumericPredicate p) |})
  /\ (forall p' e,
         UnmarshalValue p input = Ret (p', Some e) ->
         match e with
         | MatchError _ =>
             p' = p /\ matcher.Array (matcher.Value "number") input = false
         | Errorf _ None =>
             p' = p /\ exists rest, input = Array (Str "number" :: rest)
                                    /\ List.length rest <> 1%nat
         | Errorf msg (Some e') =>
             exists inner q,
               input = Array [Str "number"; inner]
               /\ Unmarshal (NumericPredicate p) inner = Ret (q, Some e')
               /\ p' = NumericValue q
               /\ msg = "error unmarshalling the NPE NumericPredicate: " ++ Error e'
         | DecimalError _ => False
         end).
Proof.
  destruct (matcher.Array (matcher.Value "number") input) eqn:Em.
  2:{ rewrite (UnmarshalValue_unheaded p input Em). split; [|split].
      - split; [intros [msg H]; discriminate|].
        intros (o & t & -> & _). discriminate Em.
      - intros p'. split; [discriminate|].
        intros (o & arg & d & -> & _). discriminate Em.
      - intros p' e [= <- <-]. auto. }
  destruct (number_headed input Em) as [rest ->].
  rewrite (UnmarshalValue_headed p rest).
  destruct rest as [|inner [|y rest]].
  - split; [|split].
    + split; [intros [msg H]; discriminate | intros (o & t & [=] & _)].
    + intros p'. split; [discriminate | intros (o & arg & d & [=] & _)].
    + intros p' e [= <- <-]. split; [reflexivity|].
      exists []. split; [reflexivity | discriminate].
  - split; [|split].
    + split.
      * intros [msg H].
        destruct (Unmarshal (NumericPredicate p) inner) as [[q [e|]]|m] eqn:Eq;
          try discriminate.
        destruct (proj1 (Unmarshal_panics (NumericPredicate p) inner)) as (o & t & -> & Ho & Ht);
          [eauto|].
        exists o, t. auto.
      * intros (o & t & [= ->] & Ho & Ht).
        destruct (proj2 (Unmarshal_panics (NumericPredicate p) (Array [Str o; Float64 t])))
          as [msg Hm]; [exists o, t; auto|].
        rewrite Hm. eauto.
    + intros p'. split.
      * intros H.
        destruct (Unmarshal (NumericPredicate p) inner) as [[q [e|]]|m] eqn:Eq;
          try discriminate.
        injection H as <-.
        apply Unmarshal_succeeds in Eq as (o & arg & d & -> & Ho & Hd & Hs & ->).
        exists o, arg, d. auto.
      * intros (o & arg & d & [= ->] & Ho & Hd & Hs & ->).
        assert (E : Unmarshal (NumericPredicate p) (Array [Str o; arg])
                    = Ret ({| op := o; n := d;
                              unsigned := unsigned (NumericPredicate p) |}, None)).
        { apply Unmarshal_succeeds. exists o, arg, d. auto. }
        rewrite E. reflexivity.
    + intros p' e H.
      destruct (Unmarshal (NumericPredicate p) inner) as [[q [e'|]]|m] eqn:Eq;
        try discriminate.
      injection H as <- <-. exists inner, q. auto.
  - split; [|split].
    + split; [intros [msg H]; discriminate | intros (o & t & [=] & _)].
    + intros p'. split; [discriminate | intros (o & arg & d & [=] & _)].
    + intros p' e [= <- <-]. split; [reflexivity|].
      exists (inner :: y :: rest). split; [reflexivity | discriminate].
Qed.


(** *** Round trips *)

(** Whether a glob compiles is the glob library's matter. *)
Variable Compile : string -> option string.











End NumericFacts.

(** *** The exact instance meets the contract of the decimal library *)

Lemma FromFloatExact_value (f : float) :
  (decimal.toQ (predicate.FromFloatExact f) == float_value f)%Q.
Proof.
  unfold predicate.FromFloatExact, float_value.
  destruct (Prim2SF f) as [s|s| |s m e]; try reflexivity.
  cbv zeta. set (v := if s then Z.neg m else Z.pos m).
  destruct (Z.leb_spec 0 e) as [He|He]; unfold decimal.toQ; simpl decimal.value;
    simpl decimal.exp.
  - rewrite inject_Z_mult, Zpower_Qpower by assumption.
    change (Qpower (10 # 1) 0) with 1%Q. change (inject_Z 2) with 2%Q. ring.
  - assert (Hk : exists k, (0 < k)%Z /\ e = (- k)%Z) by (exists (- e)%Z; lia).
    destruct Hk as (k & Hk & ->). rewrite Z.opp_involutive.
    rewrite inject_Z_mult, Zpower_Qpower by lia.
    rewrite !Qpower_opp.
    change (10 # 1)%Q with (2 * inject_Z 5)%Q. rewrite Qmult_power.
    assert (H2 : ~ (Qpower 2 k == 0)%Q).
    { intros H. pose proof (Qpower_0_lt 2 k eq_refl) as Hp. rewrite H in Hp.
      discriminate Hp. }
    assert (H5 : ~ (Qpower (inject_Z 5) k == 0)%Q).
    { intros H. pose proof (Qpower_0_lt (inject_Z 5) k eq_refl) as Hp. rewrite H in Hp.
      discriminate Hp. }
    field. split; assumption.
Qed.

Lemma half_ulp_nonneg (f : float) : (0 <= half_ulp f)%Q.
Proof.
  unfold half_ulp. destruct (Prim2SF f); try apply Qle_refl.
  apply Qlt_le_weak, Qpower_0_lt. reflexivity.
Qed.

Lemma FromFloatExact_near (f : float) : near (predicate.FromFloatExact f) f.
Proof.
  unfold near. rewrite FromFloatExact_value.
  pose proof (half_ulp_nonneg f). split; lra.
Qed.

Lemma FromFloatExact_int32 (f : float) :
  int32 (decimal.exp (predicate.FromFloatExact f)).
Proof.
  unfold predicate.FromFloatExact, int32, decimal.MinInt32, decimal.MaxInt32.
  pose proof (FloatAxioms.Prim2SF_valid f) as Hv.
  destruct (Prim2SF f) as [s|s| |s m e]; try (simpl; lia).
  cbv zeta. destruct (Z.leb_spec 0 e) as [He|He]; [simpl; lia|].
  simpl decimal.exp.
  unfold SpecFloat.valid_binary, bounded, canonical_mantissa, fexp in Hv.
  apply andb_true_iff in Hv as [Hc Hb].
  apply Z.eqb_eq in Hc. apply Z.leb_le in Hb.
  unfold SpecFloat.emin, emax, prec in *. lia.
Qed.

(** *** The theorems at work *)

Lemma numeric_exact_decimal_semantics_witness :
  let p := predicate.Numeric predicate.LTE (decimal.New 4200 (-2)) in
  (exists d, decimal.NewFromString (decimal.String (predicate.n p)) = inl d
             /\ (decimal.toQ d == decimal.toQ (predicate.n p))%Q)
  /\ predicate.numeric_Unmarshal predicate.FromFloatExact predicate.SprintPlain
       (predicate.Numeric predicate.EQL decimal.Zero)
       (Array [Str "<="%string; Str "42"%string])
     = Ret (predicate.Numeric predicate.LTE (decimal.New 42 0), None)
  /\ (exists d b,
         decimal.NewFromFloat predicate.FromFloatExact 41.5%float = Ret d
         /\ near d 41.5%float
         /\ predicate.numericValue_EvalValue predicate.FromFloatExact
              (predicate.NumericValue p) (Float64 41.5%float)
            = Ret b
         /\ (b = true <->
             exact_comparison (predicate.op p) (float_value 41.5%float)
               (decimal.toQ (predicate.n p)))).
Proof.
  cbv zeta.
  pose proof (numeric_exact_decimal_semantics predicate.FromFloatExact predicate.SprintPlain
                (fun f _ _ => FromFloatExact_near f) FromFloatExact_int32
                (predicate.Numeric predicate.LTE (decimal.New 4200 (-2))))
    as ((_ & H1) & H2 & _ & _ & H5).
  split; [|split].
  - apply H1. unfold int32, decimal.MinInt32, decimal.MaxInt32. simpl. lia.
  - apply (H2 (predicate.Numeric predicate.EQL decimal.Zero) "<="%string
              "42"%string (decimal.New 42 0)).
    + reflexivity.
    + reflexivity.
    + left. reflexivity.
  - destruct (H5 41.5%float eq_refl eq_refl) as (d & b & Hd & Hnear & Hb & _ & Hfar).
    exists d, b. split; [exact Hd|]. split; [exact Hnear|]. split; [exact Hb|].
    apply Hfar. left. vm_compute. reflexivity.
Defined.

Lemma unsigned_numeric_unmarshal_witness :
  exists q' err,
    predicate.numeric_Unmarshal predicate.FromFloatExact predicate.SprintPlain
      (predicate.UnsignedNumeric predicate.GT decimal.Zero)
      (Array [Str "<"%string; Float64 (-1.5)%float])
    = Ret (q', Some err)
    /\ IsMatchError err = false
    /\ Contains (Error err) "unsigned" = true.
Proof.
  apply (proj1 (unsigned_numeric_unmarshal predicate.FromFloatExact predicate.SprintPlain)
           (predicate.UnsignedNumeric predicate.GT decimal.Zero) "<"%string
           (Float64 (-1.5)%float) (predicate.FromFloatExact (-1.5)%float));
    reflexivity.
Defined.



Lemma Unmarshal_result_evaluates_witness :
  let p := {| predicate.op := "<="%string; predicate.n := decimal.New 42 0;
              predicate.unsigned := false |} in
  (exists b,
      predicate.numeric_EvalNumeric p (decimal.New 425 (-1)) = Ret b
      /\ (b = true <->
          exact_comparison "<="%string (decimal.toQ (decimal.New 425 (-1)))
            (decimal.toQ (decimal.New 42 0))))
  /\ (exists b,
         predicate.numericValue_EvalValue predicate.FromFloatExact
           (predicate.NumericValue p) (Float64 41.5%float) = Ret b)
  /\ (exists msg,
         predicate.numericValue_EvalValue predicate.FromFloatExact
           (predicate.NumericValue p) (Float64 infinity) = Panic msg).
Proof.
  cbv zeta.
  destruct (Unmarshal_result_evaluates predicate.FromFloatExact predicate.SprintPlain
              (predicate.Numeric "~"%string decimal.Zero)
              {| predicate.op := "<="%string; predicate.n := decimal.New 42 0;
                 predicate.unsigned := false |}
              (Array [Str "<="%string; Str "42"%string]) eq_refl) as (H1 & H2 & H3).
  split; [|split].
  - exact (H1 (decimal.New 425 (-1))).
  - apply H2. intros t [= <-]. reflexivity.
  - apply H3. reflexivity.
Defined.

(** The outcomes of [Unmarshal] on an unsigned predicate, one of each
    kind. *)
Example Unmarshal_examples :
  let p := predicate.UnsignedNumeric predicate.GT (decimal.New 7 0) in
  let run := predicate.numeric_Unmarshal predicate.FromFloatExact predicate.SprintPlain p in
  run (Str "<"%string) = Ret (p, Some (MatchError "must be formatted as [<comparison_op>, <number>]"%string))
  /\ run (Array [Str "~"%string; Str "1"%string])
     = Ret (p, Some (MatchError "must be formatted as [<comparison_op>, <number>]"%string))
  /\ run (Array [Str "<"%string])
     = Ret (p, Some (Errorf
              "must be formatted as [<comparison_op>, <number>] (missing the number)"%string None))
  /\ run (Array [Str "<"%string; Str "1"%string; Str "2"%string])
     = Ret (p, Some (Errorf "must be formatted as [<comparison_op>, <number>]"%string None))
  /\ run (Array [Str "<"%string; Bool true])
     = Ret (p, Some (Errorf "true is not a valid number"%string None))
  /\ run (Array [Str "<"%string; Str "1.2.3"%string])
     = Ret (p, Some (Errorf
              "failed to parse 1.2.3 as a number: can't convert 1.2.3 to decimal: too many .s"%string
              (Some (DecimalError "can't convert 1.2.3 to decimal: too many .s"%string))))
  /\ run (Array [Str "<"%string; Str "-0.5"%string])
     = Ret ({| predicate.op := "<"%string; predicate.n := decimal.New 7 0;
               predicate.unsigned := true |},
            Some (Errorf "-0.5 must be an unsigned (non-negative) number"%string None))
  /\ run (Array [Str "<"%string; Str "0.5"%string])
     = Ret ({| predicate.op := "<"%string; predicate.n := decimal.New 5 (-1);
               predicate.unsigned := true |}, None)
  /\ run (Array [Str "<"%string; Float64 0.5%float])
     = Ret ({| predicate.op := "<"%string; predicate.n := predicate.FromFloatExact 0.5%float;
               predicate.unsigned := true |}, None)
  /\ run (Array [Str "<"%string; Float64 nan])
     = Panic "Cannot create a Decimal from NaN"%string
  /\ run (Array [Str "<"%string; Float64 neg_infinity])
     = Panic "Cannot create a Decimal from -Inf"%string.
Proof. repeat split; reflexivity. Qed.

(** The cases of name_test.go, with a glob compiler that refuses an unclosed
    bracket. *)
Example name_Unmarshal_examples :
  let n := primary.Name (predicate.StringGlob ""%string) in
  let run := primary.name_Unmarshal primary.CompileBrackets n in
  primary.name_Marshal (primary.Name (predicate.StringGlob "foo"%string))
  = Array [Str "name"%string; Array [Str "glob"%string; Str "foo"%string]]
  /\ run (Str "foo"%string) = Ret (n, Some (MatchError primary.formatted))
  /\ run (Array [Str "foo"%string; Array [Str "glob"%string; Str "foo"%string]])
     = Ret (n, Some (MatchError primary.formatted))
  /\ run (Array [Str "name"%string; Str "foo"%string; Str "bar"%string])
     = Ret (n, Some (Errorf primary.formatted None))
  /\ (exists msg, run (Array [Str "name"%string]) = Ret (n, Some (Errorf msg None))
                  /\ Contains msg "missing"%string = true)
  /\ (exists msg cause,
         run (Array [Str "name"%string; Array [Str "glob"%string; Str "["%string]])
         = Ret (n, Some (Errorf msg cause))
         /\ Contains msg "glob"%string = true)
  /\ run (Array [Str "name"%string; Array [Str "glob"%string; Str "foo"%string]])
     = Ret (primary.Name (predicate.StringGlob "foo"%string), None).
Proof.
  cbv zeta. repeat split; try reflexivity.
  - eexists. split; reflexivity.
  - do 2 eexists. split; reflexivity.
Qed.

(** ** Insertion-ordered maps *)

Section LinkedHashMapFacts.

Variable V : Type.
Implicit Types (m : linkedhashmap.Map V) (k : string) (v : V).

Definition mem (k : string) (l : list string) : bool := existsb (String.eqb k) l.

Lemma mem_In k (l : list string) : mem k l = true <-> In k l.
Proof.
  unfold mem. rewrite existsb_exists. split.
  - intros (x & Hin & Heq). apply String.eqb_eq in Heq. subst. exact Hin.
  - intros Hin. exists k. split; [exact Hin | apply String.eqb_refl].
Qed.

Lemma mem_false k (l : list string) : mem k l = false <-> ~ In k l.
Proof.
  rewrite <- mem_In. destruct (mem k l); split; congruence.
Qed.

(** One more key in the iteration order, unless it is there already. *)
Definition add_key (acc : list string) (k : string) : list string :=
  if mem k acc then acc else acc ++ [k].

Lemma Keys_Put m k v :
  linkedhashmap.Keys (linkedhashmap.Put m k v) = add_key (linkedhashmap.Keys m) k.
Proof.
  unfold add_key, mem. induction m as [|[k' w] rest IH]; simpl; [reflexivity|].
  rewrite (String.eqb_sym k k').
  destruct (String.eqb k' k) eqn:E; simpl; [reflexivity|].
  rewrite IH. unfold linkedhashmap.Keys.
  destruct (existsb (String.eqb k) (map fst rest)); reflexivity.
Qed.

Lemma Get_None m k : linkedhashmap.Get m k = None <-> ~ In k (linkedhashmap.Keys m).
Proof.
  induction m as [|[k' w] rest IH]; simpl; [tauto|].
  destruct (String.eqb_spec k' k) as [->|Hne].
  - split; [discriminate | intros H; exfalso; apply H; left; reflexivity].
  - rewrite IH. tauto.
Qed.

Lemma add_key_incl (acc : list string) k : incl acc (add_key acc k).
Proof.
  unfold add_key. destruct (mem k acc); [apply incl_refl | apply incl_appl, incl_refl].
Qed.

Lemma add_key_In (acc : list string) k : In k (add_key acc k).
Proof.
  unfold add_key. destruct (mem k acc) eqn:E.
  - apply mem_In, E.
  - apply in_or_app. right. left. reflexivity.
Qed.

Lemma add_key_In_inv (acc : list string) k x :
  In x (add_key acc k) -> In x acc \/ x = k.
Proof.
  unfold add_key. destruct (mem k acc); [tauto|].
  intros H. apply in_app_or in H as [H|[H|[]]]; auto.
Qed.

Lemma add_key_NoDup (acc : list string) k : NoDup acc -> NoDup (add_key acc k).
Proof.
  intros H. unfold add_key. destruct (mem k acc) eqn:E; [exact H|].
  apply mem_false in E.
  apply NoDup_app; [exact H | repeat constructor; intros [] | ].
  intros x Hx [<-|[]]. exact (E Hx).
Qed.

Lemma add_key_hd (acc : list string) k :
  hd_error (add_key acc k) = match acc with [] => Some k | x :: _ => Some x end.
Proof.
  unfold add_key. destruct acc as [|x acc]; [reflexivity|].
  destruct (mem k (x :: acc)); reflexivity.
Qed.

(** The keys in the order of their first appearance in a log of insertions. *)
Definition first_occurrences (log : list string) : list string :=
  fold_left add_key log [].

Lemma first_occurrences_snoc (log : list string) k :
  first_occurrences (log ++ [k]) = add_key (first_occurrences log) k.
Proof. unfold first_occurrences. rewrite fold_left_app. reflexivity. Qed.

Lemma first_occurrences_NoDup (log : list string) :
  NoDup log -> first_occurrences log = log.
Proof.
  induction log as [|k log IH] using rev_ind; [reflexivity|].
  intros H. rewrite first_occurrences_snoc.
  apply NoDup_remove in H as [H Hk]. rewrite app_nil_r in *.
  rewrite (IH H). unfold add_key.
  destruct (mem k log) eqn:E; [apply mem_In in E; contradiction | reflexivity].
Qed.

End LinkedHashMapFacts.

(** ** Formatting *)

Fixpoint no_percent (s : string) : bool :=
  match s with
  | EmptyString => true
  | String.String c rest => negb (Ascii.eqb c "%") && no_percent rest
  end.

Lemma Sprintf_app_plain (a b : string) (args : list string) :
  no_percent a = true -> Sprintf (a ++ b) args = (a ++ Sprintf b args)%string.
Proof.
  induction a as [|c a IH]; simpl; [reflexivity|].
  intros H. apply andb_prop in H as [Hc Ha].
  destruct (Ascii.eqb c "%"); [discriminate|]. rewrite (IH Ha). reflexivity.
Qed.

Lemma Sprintf_plain (a : string) (args : list string) :
  no_percent a = true -> Sprintf a args = a.
Proof.
  induction a as [|c a IH]; simpl; [reflexivity|].
  intros H. apply andb_prop in H as [Hc Ha].
  destruct (Ascii.eqb c "%"); [discriminate|]. rewrite (IH Ha). reflexivity.
Qed.

Lemma append_assoc (a b c : string) : ((a ++ b) ++ c = a ++ (b ++ c))%string.
Proof. induction a as [|x a IH]; simpl; [reflexivity|]. rewrite IH. reflexivity. Qed.

(** ** Entry schemas *)

Section PluginFacts.

Local Open Scope string_scope.

Variables JSONSchema Obj SchemaMap : Type.
Variable emptyStruct : Obj.
Variable Reflect : SchemaMap -> Obj -> JSONSchema.
Variable TypeType : JSONSchema -> string.
Variable registrySchemaLabel : string.
Variable SprintSchema : plugin.EntrySchema JSONSchema Obj -> string.
Variable entries : plugin.eloc -> plugin.Entry SchemaMap.

Local Abbreviation State := (plugin.State JSONSchema Obj SchemaMap).
Local Abbreviation fill := (plugin.fill Reflect TypeType registrySchemaLabel SprintSchema entries).
Local Abbreviation fill_children :=
  (plugin.fill_children registrySchemaLabel SprintSchema entries).
Local Abbreviation fill_schema := (plugin.fill_schema Reflect TypeType).

Definition keys (st : State) : list string := linkedhashmap.Keys (plugin.theGraph st).

Definition typeID (st : State) (l : plugin.loc) : string :=
  plugin.TypeID (plugin.base (plugin.schemas st l)).

(** [fill] changes the schemas and children of a record, never its type-id,
    its entry or its pre-baked graph. *)
Definition same_objects (st st' : State) : Prop :=
  forall l, typeID st' l = typeID st l
            /\ plugin.entry (plugin.schemas st' l) = plugin.entry (plugin.schemas st l)
            /\ plugin.graph (plugin.schemas st' l) = plugin.graph (plugin.schemas st l)
            /\ plugin.metaAttributeSchemaObj (plugin.schemas st' l)
               = plugin.metaAttributeSchemaObj (plugin.schemas st l)
            /\ plugin.metadataSchemaObj (plugin.schemas st' l)
               = plugin.metadataSchemaObj (plugin.schemas st l).

(** No schema object carries a pre-baked graph: a core plugin. *)
Definition core (st : State) : Prop :=
  forall l, plugin.graph (plugin.schemas st l) = None.

Definition Inv (st : State) : Prop :=
  NoDup (keys st)
  /\ keys st = first_occurrences (plugin.puts st)
  /\ NoDup (plugin.filled st)
  /\ incl (plugin.filled st) (keys st).

Definition steps (st st' : State) : Prop :=
  same_objects st st'
  /\ incl (keys st) (keys st')
  /\ (forall x, hd_error (keys st) = Some x -> hd_error (keys st') = Some x)
  /\ (core st -> plugin.puts st = plugin.filled st -> plugin.puts st' = plugin.filled st').

Lemma same_objects_refl st : same_objects st st.
Proof. intros l. auto. Qed.

Lemma same_objects_trans a b c : same_objects a b -> same_objects b c -> same_objects a c.
Proof.
  intros H1 H2 l.
  destruct (H1 l) as (A1 & A2 & A3 & A4 & A5), (H2 l) as (B1 & B2 & B3 & B4 & B5).
  repeat split; congruence.
Qed.

Lemma core_same_objects a b : same_objects a b -> core a -> core b.
Proof. intros H Hc l. destruct (H l) as (_ & _ & -> & _). apply Hc. Qed.

Lemma steps_refl st : steps st st.
Proof.
  split; [apply same_objects_refl|]. split; [apply incl_refl|]. split; auto.
Qed.

Lemma steps_trans a b c : steps a b -> steps b c -> steps a c.
Proof.
  intros (S1 & I1 & H1 & P1) (S2 & I2 & H2 & P2).
  split; [|split; [|split]].
  - apply (same_objects_trans _ _ _ S1 S2).
  - eapply incl_tran; eassumption.
  - auto.
  - intros Hc E. apply P2; [apply (core_same_objects _ _ S1 Hc) | auto].
Qed.

(** A change of the objects that leaves the graph and the logs as they are. *)
Lemma steps_frame (st st' : State) :
  same_objects st st' ->
  plugin.theGraph st' = plugin.theGraph st ->
  plugin.filled st' = plugin.filled st ->
  plugin.puts st' = plugin.puts st ->
  steps st st' /\ (Inv st -> Inv st').
Proof.
  intros Hs Hg Hf Hp. unfold steps, Inv, keys. rewrite Hg, Hf, Hp.
  split; [|tauto]. split; [exact Hs|]. split; [apply incl_refl|]. split; auto.
Qed.

Lemma setBase_same (st : State) (l : plugin.loc) (b : plugin.entrySchema JSONSchema) :
  plugin.TypeID b = typeID st l ->
  same_objects st (plugin.setSchema st l (plugin.setBase (plugin.schemas st l) b)).
Proof.
  intros Hb l'. unfold typeID. simpl.
  destruct (plugin.loc_eqb l' l) eqn:E; [|auto].
  assert (l' = l) as ->.
  { destruct l', l; simpl in E; try discriminate; [reflexivity|].
    apply Nat.eqb_eq in E. congruence. }
  simpl. auto.
Qed.

Lemma fill_schema_steps (st st' : State) (s : plugin.loc) (obj : option Obj) (bad : string)
      (set : plugin.entrySchema JSONSchema -> option JSONSchema -> plugin.entrySchema JSONSchema) :
  (forall b j, plugin.TypeID (set b j) = plugin.TypeID b) ->
  fill_schema st s obj bad set = plugin.Done st' ->
  steps st st' /\ (Inv st -> Inv st')
  /\ keys st' = keys st.
Proof.
  intros Hset. unfold plugin.fill_schema.
  destruct obj as [o|].
  - destruct (plugin.schemaOf Reflect TypeType st (plugin.schemas st s) o) as [j|err];
      [|unfold plugin.fillPanicf; discriminate].
    intros [= <-].
    split; [|split]; [| |reflexivity];
      apply steps_frame; try reflexivity; apply setBase_same, Hset.
  - intros [= <-]. split; [apply steps_refl|]. split; [tauto|reflexivity].
Qed.

Lemma fill_schema_fuel (st : State) (s : plugin.loc) (obj : option Obj) (bad : string)
      (set : plugin.entrySchema JSONSchema -> option JSONSchema -> plugin.entrySchema JSONSchema) :
  fill_schema st s obj bad set <> plugin.OutOfFuel.
Proof.
  unfold plugin.fill_schema, plugin.fillPanicf.
  destruct obj; [|discriminate].
  destruct (plugin.schemaOf _ _ _ _ _); discriminate.
Qed.

Lemma graphPut_keys (st : State) (k : string) (v : plugin.gvalue JSONSchema) :
  keys (plugin.graphPut st k v) = add_key (keys st) k.
Proof. unfold keys. simpl. apply Keys_Put. Qed.

Lemma graphPut_Inv (st : State) (k : string) (v : plugin.gvalue JSONSchema) :
  Inv st -> Inv (plugin.graphPut st k v).
Proof.
  intros (Hnd & Hord & Hf & Hincl). unfold Inv. rewrite graphPut_keys. simpl.
  split; [|split; [|split]].
  - apply add_key_NoDup, Hnd.
  - rewrite first_occurrences_snoc, Hord. reflexivity.
  - exact Hf.
  - eapply incl_tran; [exact Hincl | apply add_key_incl].
Qed.

Lemma graphPut_hd (st : State) (k : string) (v : plugin.gvalue JSONSchema) (x : string) :
  hd_error (keys st) = Some x -> hd_error (keys (plugin.graphPut st k v)) = Some x.
Proof.
  rewrite graphPut_keys, add_key_hd. destruct (keys st); [discriminate|auto].
Qed.

Lemma merge_spec (g : linkedhashmap.Map (plugin.entrySchema JSONSchema)) (st : State) :
  let st' := linkedhashmap.Each g (fun key v acc => plugin.graphPut acc key (plugin.Baked v)) st in
  plugin.schemas st' = plugin.schemas st
  /\ plugin.filled st' = plugin.filled st
  /\ incl (keys st) (keys st')
  /\ (forall x, hd_error (keys st) = Some x -> hd_error (keys st') = Some x)
  /\ (Inv st -> Inv st').
Proof.
  unfold linkedhashmap.Each. revert st.
  induction g as [|[k v] g IH]; intros st; simpl.
  - split; [reflexivity|]. split; [reflexivity|]. split; [apply incl_refl|]. split; auto.
  - destruct (IH (plugin.graphPut st k (plugin.Baked v))) as (Hs & Hf & Hi & Hh & HI).
    split; [rewrite Hs; reflexivity|]. split; [rewrite Hf; reflexivity|].
    split; [|split].
    + eapply incl_tran; [|exact Hi]. rewrite graphPut_keys. apply add_key_incl.
    + intros x Hx. apply Hh, graphPut_hd, Hx.
    + intros H. apply HI, graphPut_Inv, H.
Qed.

Lemma put_filled_spec (st : State) (s : plugin.loc) :
  Inv st -> ~ In (typeID st s) (keys st) ->
  let st' := plugin.logFilled (plugin.graphPut st (typeID st s) (plugin.Ref _ s)) (typeID st s) in
  Inv st' /\ steps st st' /\ In (typeID st s) (keys st')
  /\ (keys st = [] -> hd_error (keys st') = Some (typeID st s)).
Proof.
  intros HI Hnew. cbv zeta. set (T := typeID st s).
  destruct (graphPut_Inv st T (plugin.Ref _ s) HI) as (Hnd & Hord & Hf & Hincl).
  assert (Hk : keys (plugin.logFilled (plugin.graphPut st T (plugin.Ref _ s)) T)
               = add_key (keys st) T) by apply graphPut_keys.
  split; [|split; [|split]].
  - unfold Inv. rewrite Hk. rewrite graphPut_keys in Hnd, Hord, Hincl. simpl in *.
    split; [exact Hnd|]. split; [exact Hord|]. split.
    + apply NoDup_app; [exact Hf | repeat constructor; intros [] |].
      intros x Hx [<-|[]]. destruct HI as (_ & _ & _ & Hsub). apply Hnew, Hsub, Hx.
    + intros x Hx. apply in_app_or in Hx as [Hx|[<-|[]]]; [apply Hincl, Hx|].
      apply add_key_In.
  - split; [intros l; repeat split; reflexivity|]. rewrite Hk.
    split; [apply add_key_incl|]. split.
    + intros x Hx. rewrite add_key_hd. destruct (keys st); [discriminate|exact Hx].
    + intros _ E. simpl. rewrite E. reflexivity.
  - rewrite Hk. apply add_key_In.
  - intros E. rewrite Hk, add_key_hd, E. reflexivity.
Qed.

Definition rec_ok (rec : plugin.loc -> State -> plugin.result State) : Prop :=
  forall c st st',
    Inv st -> ~ In (typeID st c) (keys st) -> rec c st = plugin.Done st' ->
    Inv st' /\ steps st st'.

Lemma fill_children_spec (rec : plugin.loc -> State -> plugin.result State) (s : plugin.loc) :
  rec_ok rec ->
  forall children st st',
    Inv st -> fill_children rec s children st = plugin.Done st' ->
    Inv st' /\ steps st st'.
Proof.
  intros Hrec. induction children as [|[c|] rest IH]; intros st st' HI Hrun.
  - simpl in Hrun. injection Hrun as <-. split; [exact HI | apply steps_refl].
  - cbn [plugin.fill_children] in Hrun.
    match type of Hrun with
    | context [plugin.setSchema st s ?x] =>
        match x with
        | plugin.setBase _ ?b =>
            destruct (steps_frame st (plugin.setSchema st s x)
                        (setBase_same st s b eq_refl) eq_refl eq_refl eq_refl) as [Hst1 HI1];
            set (st1 := plugin.setSchema st s x) in *
        end
    end.
    specialize (HI1 HI).
    assert (HT : typeID st1 (plugin.At c) = typeID st (plugin.At c))
      by apply (proj1 Hst1 (plugin.At c)).
    fold (typeID st (plugin.At c)) in Hrun.
    destruct (linkedhashmap.Get (plugin.theGraph st1) (typeID st (plugin.At c))) eqn:EG.
    + destruct (IH _ _ HI1 Hrun) as [HI' Hst']. split; [exact HI'|].
      eapply steps_trans; eassumption.
    + apply Get_None in EG. fold (keys st1) in EG.
      destruct (plugin.graph (plugin.schemas st1 (plugin.At c))) as [g|] eqn:Eg.
      * destruct (negb (plugin.Label (plugin.base (plugin.schemas st1 s)) =? registrySchemaLabel));
          [unfold plugin.fillPanicf in Hrun; discriminate|].

        destruct (merge_spec g st1) as (Hs & Hf & Hi & Hh & HIm).
        specialize (HIm HI1).
        destruct (IH _ _ HIm Hrun) as [HI' Hst']. split; [exact HI'|].
        eapply steps_trans; [exact Hst1|]. eapply steps_trans; [|exact Hst'].
        split; [|split; [|split]].
        -- intros l. unfold typeID. rewrite Hs. auto.
        -- exact Hi.
        -- exact Hh.
        -- intros Hc. specialize (Hc (plugin.At c)). congruence.
      * match type of Hrun with
        | context [rec (plugin.At c) ?x] => set (st2 := x) in *
        end.
        assert (H12 : steps st1 st2 /\ (Inv st1 -> Inv st2)).
        { apply steps_frame; [intros l; repeat split; reflexivity | reflexivity ..]. }
        destruct H12 as [Hst2 HI2]. specialize (HI2 HI1).
        destruct (rec (plugin.At c) st2) as [st3| |] eqn:Erec; try discriminate.
        assert (Hnew : ~ In (typeID st2 (plugin.At c)) (keys st2)).
        { rewrite <- HT in EG. exact EG. }
        destruct (Hrec _ _ _ HI2 Hnew Erec) as [HI3 Hst3].
        destruct (IH _ _ HI3 Hrun) as [HI' Hst']. split; [exact HI'|].
        eapply steps_trans; [exact Hst1|]. eapply steps_trans; [exact Hst2|].
        eapply steps_trans; eassumption.
  - simpl in Hrun. unfold plugin.fillPanicf in Hrun. discriminate.
Qed.

Lemma fill_spec (fuel : nat) :
  forall s st st',
    Inv st -> ~ In (typeID st s) (keys st) -> fill fuel s st = plugin.Done st' ->
    Inv st' /\ steps st st' /\ In (typeID st s) (keys st')
    /\ (keys st = [] -> hd_error (keys st') = Some (typeID st s)).
Proof.
  induction fuel as [|fuel IH]; intros s st st' HI Hnew Hrun; [discriminate|].
  cbn [plugin.fill] in Hrun.
  destruct (fill_schema st s (plugin.metaAttributeSchemaObj (plugin.schemas st s)) _ _)
    as [st1| |] eqn:E1; try discriminate.
  apply fill_schema_steps in E1 as (S1 & I1 & K1); [|reflexivity].
  destruct (fill_schema st1 s (plugin.metadataSchemaObj (plugin.schemas st1 s)) _ _)
    as [st2| |] eqn:E2; try discriminate.
  apply fill_schema_steps in E2 as (S2 & I2 & K2); [|reflexivity].
  assert (S12 : steps st st2) by (eapply steps_trans; eassumption).
  assert (HI2 : Inv st2) by auto.
  assert (HT : typeID st2 s = typeID st s).
  { destruct S12 as (Hso & _). apply (Hso s). }
  assert (Hnew2 : ~ In (typeID st2 s) (keys st2)) by (rewrite HT, K2, K1; exact Hnew).
  destruct (put_filled_spec st2 s HI2 Hnew2) as (HI3 & S3 & Hin3 & Hhd3).
  fold (typeID st2 s) in Hrun.
  set (st3 := plugin.logFilled (plugin.graphPut st2 (typeID st2 s) (plugin.Ref _ s))
                               (typeID st2 s)) in *.
  assert (S03 : steps st st3) by (eapply steps_trans; eassumption).
  assert (Hfinish : forall st4, Inv st4 -> steps st3 st4 ->
            Inv st4 /\ steps st st4 /\ In (typeID st s) (keys st4)
            /\ (keys st = [] -> hd_error (keys st4) = Some (typeID st s))).
  { intros st4 HI4 S34. split; [exact HI4|]. split; [eapply steps_trans; eassumption|].
    rewrite <- HT. split.
    - destruct S34 as (_ & Hincl & _). apply Hincl, Hin3.
    - intros E. destruct S34 as (_ & _ & Hhd & _). apply Hhd, Hhd3.
      rewrite K2, K1. exact E. }
  destruct (negb (plugin.IsListSupported (entries (plugin.entry (plugin.schemas st3 s))))).
  - injection Hrun as <-. apply Hfinish; [exact HI3 | apply steps_refl].
  - destruct (plugin.ChildSchemas (entries (plugin.entry (plugin.schemas st3 s))))
      as [children|]; [|unfold plugin.fillPanicf in Hrun; discriminate].
    assert (Hrec : rec_ok (fill fuel)).
    { intros c sa sb Ha Hc Hr. destruct (IH _ _ _ Ha Hc Hr) as (A & B & _). auto. }
    destruct (fill_children_spec (fill fuel) s Hrec children st3 st' HI3 Hrun) as [HI4 S34].
    apply Hfinish; assumption.
Qed.

(** *** Termination: the type-ids not yet in the graph bound the recursion *)

Definition missing (U ks : list string) : nat :=
  List.length (filter (fun u => negb (mem u ks)) U).

Lemma missing_le (U ks ks' : list string) :
  incl ks ks' -> (missing U ks' <= missing U ks)%nat.
Proof.
  intros Hincl. unfold missing. induction U as [|u U IH]; simpl; [lia|].
  destruct (mem u ks) eqn:E.
  - apply mem_In in E. apply Hincl in E. apply mem_In in E. rewrite E. simpl. exact IH.
  - destruct (mem u ks'); simpl; lia.
Qed.

Lemma missing_length (U ks : list string) : (missing U ks <= List.length U)%nat.
Proof.
  unfold missing. induction U as [|u U IH]; simpl; [lia|].
  destruct (negb (mem u ks)); simpl; lia.
Qed.

Lemma missing_lt (U ks ks' : list string) (k : string) :
  incl ks ks' -> In k U -> ~ In k ks -> In k ks' ->
  (missing U ks' < missing U ks)%nat.
Proof.
  intros Hincl HU Hk Hk'. unfold missing. induction U as [|u U IH]; [destruct HU|].
  simpl. destruct HU as [->|HU].
  - apply mem_false in Hk. apply mem_In in Hk'. rewrite Hk, Hk'. simpl.
    pose proof (missing_le U ks ks' Hincl). unfold missing in *. lia.
  - specialize (IH HU). destruct (mem u ks) eqn:E.
    + apply mem_In in E. apply Hincl in E. apply mem_In in E. rewrite E. simpl. exact IH.
    + destruct (mem u ks'); simpl; lia.
Qed.

Lemma fill_children_terminates (U : list string) (fuel : nat) (s : plugin.loc) :
  (forall c st, Inv st -> (forall l, In (typeID st l) U) ->
                ~ In (typeID st c) (keys st) -> (missing U (keys st) < fuel)%nat ->
                fill fuel c st <> plugin.OutOfFuel) ->
  forall children st,
    Inv st -> (forall l, In (typeID st l) U) -> (missing U (keys st) < fuel)%nat ->
    fill_children (fill fuel) s children st <> plugin.OutOfFuel.
Proof.
  intros Hfill. induction children as [|[c|] rest IH]; intros st HI HU Hm.
  - discriminate.
  - cbn [plugin.fill_children].
    match goal with
    | |- context [plugin.setSchema st s ?x] =>
        match x with
        | plugin.setBase _ ?b =>
            destruct (steps_frame st (plugin.setSchema st s x)
                        (setBase_same st s b eq_refl) eq_refl eq_refl eq_refl) as [Hst1 HI1];
            set (st1 := plugin.setSchema st s x) in *
        end
    end.
    specialize (HI1 HI).
    assert (HU1 : forall l, In (typeID st1 l) U).
    { intros l. rewrite (proj1 (proj1 Hst1 l)). apply HU. }
    assert (Hm1 : (missing U (keys st1) < fuel)%nat) by exact Hm.
    assert (HT : typeID st1 (plugin.At c) = typeID st (plugin.At c))
      by apply (proj1 Hst1 (plugin.At c)).
    fold (typeID st (plugin.At c)).
    destruct (linkedhashmap.Get (plugin.theGraph st1) (typeID st (plugin.At c))) eqn:EG.
    + apply IH; assumption.
    + apply Get_None in EG. fold (keys st1) in EG.
      destruct (plugin.graph (plugin.schemas st1 (plugin.At c))) as [g|] eqn:Eg.
      * destruct (negb (plugin.Label (plugin.base (plugin.schemas st1 s)) =? registrySchemaLabel));
          [unfold plugin.fillPanicf; discriminate|].
        destruct (merge_spec g st1) as (Hs & Hf & Hi & Hh & HIm).
        apply IH.
        -- apply HIm, HI1.
        -- intros l. unfold typeID. rewrite Hs. apply HU1.
        -- eapply Nat.le_lt_trans; [apply missing_le, Hi | exact Hm1].
      * match goal with
        | |- context [fill fuel (plugin.At c) ?x] => set (st2 := x) in *
        end.
        assert (H12 : steps st1 st2 /\ (Inv st1 -> Inv st2)).
        { apply steps_frame; [intros l; repeat split; reflexivity | reflexivity ..]. }
        destruct H12 as [Hst2 HI2]. specialize (HI2 HI1).
        assert (Hnew : ~ In (typeID st2 (plugin.At c)) (keys st2)).
        { rewrite <- HT in EG. exact EG. }
        destruct (fill fuel (plugin.At c) st2) as [st3| |] eqn:Erec.
        -- destruct (fill_spec fuel _ _ _ HI2 Hnew Erec) as (HI3 & (Hso3 & Hincl3 & _) & _).
           apply IH; [exact HI3| |].
           ++ intros l. rewrite (proj1 (Hso3 l)). apply HU1.
           ++ eapply Nat.le_lt_trans; [apply missing_le, Hincl3 | exact Hm1].
        -- discriminate.
        -- exfalso. revert Erec. apply Hfill; assumption.
  - cbn [plugin.fill_children]. unfold plugin.fillPanicf. discriminate.
Qed.

Lemma fill_terminates (U : list string) (fuel : nat) :
  forall s st,
    Inv st -> (forall l, In (typeID st l) U) ->
    ~ In (typeID st s) (keys st) -> (missing U (keys st) < fuel)%nat ->
    fill fuel s st <> plugin.OutOfFuel.
Proof.
  induction fuel as [|fuel IH]; intros s st HI HU Hnew Hm; [lia|].
  cbn [plugin.fill].
  destruct (fill_schema st s (plugin.metaAttributeSchemaObj (plugin.schemas st s)) _ _)
    as [st1| |] eqn:E1; try discriminate.
  2:{ exfalso. revert E1. apply fill_schema_fuel. }
  apply fill_schema_steps in E1 as (S1 & I1 & K1); [|reflexivity].
  destruct (fill_schema st1 s (plugin.metadataSchemaObj (plugin.schemas st1 s)) _ _)
    as [st2| |] eqn:E2; try discriminate.
  2:{ exfalso. revert E2. apply fill_schema_fuel. }
  apply fill_schema_steps in E2 as (S2 & I2 & K2); [|reflexivity].
  assert (S12 : steps st st2) by (eapply steps_trans; eassumption).
  assert (HI2 : Inv st2) by auto.
  assert (HT : typeID st2 s = typeID st s).
  { destruct S12 as (Hso & _). apply (Hso s). }
  assert (Hnew2 : ~ In (typeID st2 s) (keys st2)) by (rewrite HT, K2, K1; exact Hnew).
  destruct (put_filled_spec st2 s HI2 Hnew2) as (HI3 & S3 & Hin3 & Hhd3).
  fold (typeID st2 s).
  set (st3 := plugin.logFilled (plugin.graphPut st2 (typeID st2 s) (plugin.Ref _ s))
                               (typeID st2 s)) in *.
  destruct (negb (plugin.IsListSupported (entries (plugin.entry (plugin.schemas st3 s)))));
    [discriminate|].
  destruct (plugin.ChildSchemas (entries (plugin.entry (plugin.schemas st3 s))))
    as [children|]; [|unfold plugin.fillPanicf; discriminate].
  assert (HU3 : forall l, In (typeID st3 l) U).
  { intros l. destruct S3 as (Hso3 & _). rewrite (proj1 (Hso3 l)).
    destruct S12 as (Hso & _). rewrite (proj1 (Hso l)). apply HU. }
  apply (fill_children_terminates U fuel s IH); [exact HI3 | exact HU3 |].
  assert ((missing U (keys st3) < missing U (keys st2))%nat).
  { apply (missing_lt U _ _ (typeID st2 s)).
    - destruct S3 as (_ & Hincl & _). exact Hincl.
    - rewrite HT. apply HU.
    - exact Hnew2.
    - exact Hin3. }
  rewrite K2, K1 in H. lia.
Qed.

(** *** Diagnostics *)

Lemma fillPanicf_msg (A : Type) (S : plugin.EntrySchema JSONSchema Obj) (format : string)
      (args : list string) :
  no_percent (plugin.TypeID (plugin.base S)) = true ->
  @plugin.fillPanicf _ _ A S format args
  = plugin.Panicked (("s.fill (" ++ plugin.TypeID (plugin.base S) ++ "): ")
                       ++ Sprintf format args).
Proof.
  intros HT. unfold plugin.fillPanicf. cbv zeta. f_equal.
  set (T := plugin.TypeID (plugin.base S)) in *.
  assert (E1 : Sprintf "s.fill (%v): %v" [T; format] = "s.fill (" ++ (T ++ ("): " ++ format))).
  { cbn [Sprintf Ascii.eqb Bool.eqb]. cbn [append].
    repeat f_equal. clear. induction format; simpl; congruence. }
  rewrite E1. clear E1.
  assert (E2 : forall x, Sprintf ("s.fill (" ++ x) args = "s.fill (" ++ Sprintf x args)
    by reflexivity.
  assert (E3 : forall x, Sprintf ("): " ++ x) args = "): " ++ Sprintf x args)
    by reflexivity.
  rewrite E2, (Sprintf_app_plain _ _ _ HT), E3.
  cbn [append]. rewrite append_assoc. reflexivity.
Qed.

Lemma fillPanicf_prefix (A : Type) (S : plugin.EntrySchema JSONSchema Obj) (format : string)
      (args : list string) (msg : string) :
  no_percent (plugin.TypeID (plugin.base S)) = true ->
  @plugin.fillPanicf _ _ A S format args = plugin.Panicked msg ->
  HasPrefix msg ("s.fill (" ++ plugin.TypeID (plugin.base S) ++ "): ") = true.
Proof.
  intros HT. rewrite (fillPanicf_msg A S format args HT). intros [= <-].
  apply HasPrefix_app.
Qed.

Lemma fill_schema_panic (st : State) (s : plugin.loc) (obj : option Obj) (bad msg : string)
      (set : plugin.entrySchema JSONSchema -> option JSONSchema -> plugin.entrySchema JSONSchema) :
  no_percent (typeID st s) = true ->
  fill_schema st s obj bad set = plugin.Panicked msg ->
  HasPrefix msg ("s.fill (" ++ typeID st s ++ "): ") = true.
Proof.
  intros HT. unfold plugin.fill_schema. destruct obj as [o|]; [|discriminate].
  destruct (plugin.schemaOf _ _ _ _ _); [discriminate|].
  apply fillPanicf_prefix, HT.
Qed.

Lemma fill_schema_ok (st : State) (s : plugin.loc) (obj : option Obj) (bad : string)
      (set : plugin.entrySchema JSONSchema -> option JSONSchema -> plugin.entrySchema JSONSchema) :
  (forall o, obj = Some o ->
             TypeType (Reflect (plugin.wrapped st (plugin.entry (plugin.schemas st s))) o)
             = "object") ->
  exists st', fill_schema st s obj bad set = plugin.Done st'
              /\ plugin.wrapped st' = plugin.wrapped st.
Proof.
  intros Hok. unfold plugin.fill_schema, plugin.schemaOf. destruct obj as [o|].
  - rewrite (Hok o eq_refl). simpl. eexists. split; reflexivity.
  - eexists. split; reflexivity.
Qed.

Lemma fill_children_app (rec : plugin.loc -> State -> plugin.result State) (s : plugin.loc)
      (a b : list (option nat)) (st : State) :
  fill_children rec s (a ++ b) st
  = match fill_children rec s a st with
    | plugin.Done st' => fill_children rec s b st'
    | other => other
    end.
Proof.
  revert st. induction a as [|[c|] a IH]; intros st; [reflexivity| |reflexivity].
  cbn [app plugin.fill_children].
  destruct (linkedhashmap.Get _ _); [apply IH|].
  destruct (plugin.graph _); [destruct (negb _); [reflexivity | apply IH]|].
  destruct (rec _ _); [apply IH | reflexivity | reflexivity].
Qed.

(** When both schema objects of a record reflect to JSON objects (or are
    nil), [fill] gets as far as the children. *)
Definition schema_objects_ok (st : State) (s : plugin.loc) : Prop :=
  forall o,
    plugin.metaAttributeSchemaObj (plugin.schemas st s) = Some o
    \/ plugin.metadataSchemaObj (plugin.schemas st s) = Some o ->
    TypeType (Reflect (plugin.wrapped st (plugin.entry (plugin.schemas st s))) o) = "object".

(** *** As far as the children *)

(** [fill] and its loop change no type-id, entry, pre-baked graph or schema
    object, whatever the state they start in. *)
Lemma fill_children_same_objects (rec : plugin.loc -> State -> plugin.result State)
      (s : plugin.loc) :
  (forall c st st', rec c st = plugin.Done st' -> same_objects st st') ->
  forall children st st',
    fill_children rec s children st = plugin.Done st' -> same_objects st st'.
Proof.
  intros Hrec. induction children as [|[c|] rest IH]; intros st st' Hrun.
  - simpl in Hrun. injection Hrun as <-. apply same_objects_refl.
  - cbn [plugin.fill_children] in Hrun.
    match type of Hrun with
    | context [plugin.setSchema st s ?x] =>
        match x with
        | plugin.setBase _ ?b =>
            pose proof (setBase_same st s b eq_refl) as Hst1;
            set (st1 := plugin.setSchema st s x) in *
        end
    end.
    destruct (linkedhashmap.Get (plugin.theGraph st1) _).
    + eapply same_objects_trans; [exact Hst1 | apply IH, Hrun].
    + destruct (plugin.graph (plugin.schemas st1 (plugin.At c))) as [g|].
      * destruct (negb (plugin.Label (plugin.base (plugin.schemas st1 s)) =? registrySchemaLabel));
          [unfold plugin.fillPanicf in Hrun; discriminate|].
        destruct (merge_spec g st1) as (Hs & _).
        eapply same_objects_trans; [exact Hst1|].
        eapply same_objects_trans; [|apply IH, Hrun].
        intros l. unfold typeID. rewrite Hs. auto.
      * match type of Hrun with
        | context [rec (plugin.At c) ?x] => set (st2 := x) in *
        end.
        destruct (rec (plugin.At c) st2) as [st3| |] eqn:Erec; try discriminate.
        eapply same_objects_trans; [exact Hst1|].
        eapply same_objects_trans; [|apply IH, Hrun].
        eapply same_objects_trans; [|apply (Hrec _ _ _ Erec)].
        intros l. repeat split; reflexivity.
  - simpl in Hrun. unfold plugin.fillPanicf in Hrun. discriminate.
Qed.

Lemma fill_same_objects (fuel : nat) :
  forall s st st', fill fuel s st = plugin.Done st' -> same_objects st st'.
Proof.
  induction fuel as [|fuel IH]; intros s st st' Hrun; [discriminate|].
  cbn [plugin.fill] in Hrun.
  destruct (fill_schema st s (plugin.metaAttributeSchemaObj (plugin.schemas st s)) _ _)
    as [st1| |] eqn:E1; try discriminate.
  apply fill_schema_steps in E1 as ((S1 & _) & _); [|reflexivity].
  destruct (fill_schema st1 s (plugin.metadataSchemaObj (plugin.schemas st1 s)) _ _)
    as [st2| |] eqn:E2; try discriminate.
  apply fill_schema_steps in E2 as ((S2 & _) & _); [|reflexivity].
  assert (S12 : same_objects st st2) by (eapply same_objects_trans; eassumption).
  match type of Hrun with
  | context [plugin.logFilled ?a ?b] => set (st3 := plugin.logFilled a b) in *
  end.
  assert (S03 : same_objects st st3) by exact S12.
  destruct (negb (plugin.IsListSupported (entries (plugin.entry (plugin.schemas st3 s))))).
  - injection Hrun as <-. exact S03.
  - destruct (plugin.ChildSchemas (entries (plugin.entry (plugin.schemas st3 s))))
      as [children|]; [|unfold plugin.fillPanicf in Hrun; discriminate].
    eapply same_objects_trans; [exact S03|].
    apply (fill_children_same_objects (fill fuel) s IH children st3 st' Hrun).
Qed.

(** The state a schema object leaves when it reflects to a JSON object. *)
Definition with_schema (st : State) (s : plugin.loc) (obj : option Obj)
           (set : plugin.entrySchema JSONSchema -> option JSONSchema
                  -> plugin.entrySchema JSONSchema) : State :=
  match obj with
  | None => st
  | Some o =>
      plugin.setSchema st s
        (plugin.setBase (plugin.schemas st s)
           (set (plugin.base (plugin.schemas st s))
                (Some (Reflect (plugin.wrapped st (plugin.entry (plugin.schemas st s))) o))))
  end.

(** The state in which [fill] comes to [ChildSchemas()]: both schemas are
    set, the object is in the graph under its type-id. *)
Definition before_children (st : State) (s : plugin.loc) : State :=
  let st1 := with_schema st s (plugin.metaAttributeSchemaObj (plugin.schemas st s))
               (@plugin.setMetaAttributeSchema JSONSchema) in
  let st2 := with_schema st1 s (plugin.metadataSchemaObj (plugin.schemas st1 s))
               (@plugin.setMetadataSchema JSONSchema) in
  let typeID := plugin.TypeID (plugin.base (plugin.schemas st2 s)) in
  plugin.logFilled (plugin.graphPut st2 typeID (plugin.Ref _ s)) typeID.

Lemma fill_schema_with (st : State) (s : plugin.loc) (obj : option Obj) (bad : string)
      (set : plugin.entrySchema JSONSchema -> option JSONSchema -> plugin.entrySchema JSONSchema) :
  (forall o, obj = Some o ->
             TypeType (Reflect (plugin.wrapped st (plugin.entry (plugin.schemas st s))) o)
             = "object") ->
  fill_schema st s obj bad set = plugin.Done (with_schema st s obj set).
Proof.
  intros Hok. unfold plugin.fill_schema, plugin.schemaOf, with_schema.
  destruct obj as [o|]; [|reflexivity].
  rewrite (Hok o eq_refl). reflexivity.
Qed.

Lemma with_schema_same (st : State) (s : plugin.loc) (obj : option Obj)
      (set : plugin.entrySchema JSONSchema -> option JSONSchema -> plugin.entrySchema JSONSchema) :
  (forall b j, plugin.TypeID (set b j) = plugin.TypeID b) ->
  same_objects st (with_schema st s obj set)
  /\ plugin.wrapped (with_schema st s obj set) = plugin.wrapped st.
Proof.
  intros Hset. unfold with_schema. destruct obj as [o|].
  - split; [apply setBase_same, Hset | reflexivity].
  - split; [apply same_objects_refl | reflexivity].
Qed.

Lemma before_children_same (st : State) (s : plugin.loc) :
  same_objects st (before_children st s).
Proof.
  unfold before_children. cbv zeta.
  set (st1 := with_schema st s _ _).
  destruct (with_schema_same st s (plugin.metaAttributeSchemaObj (plugin.schemas st s))
              (@plugin.setMetaAttributeSchema JSONSchema)) as [S1 _]; [reflexivity|].
  fold st1 in S1.
  destruct (with_schema_same st1 s (plugin.metadataSchemaObj (plugin.schemas st1 s))
              (@plugin.setMetadataSchema JSONSchema)) as [S2 _]; [reflexivity|].
  exact (same_objects_trans _ _ _ S1 S2).
Qed.

(** With schema objects in order, [fill] comes to [ChildSchemas()] in the
    state [before_children]. *)
Lemma fill_before_children (fuel : nat) (s : plugin.loc) (st : State) :
  schema_objects_ok st s ->
  fill (S fuel) s st
  = if negb (plugin.IsListSupported (entries (plugin.entry (plugin.schemas st s))))
    then plugin.Done (before_children st s)
    else
      match plugin.ChildSchemas (entries (plugin.entry (plugin.schemas st s))) with
      | None =>
          plugin.fillPanicf (plugin.schemas (before_children st s) s)
            "ChildSchemas() returned nil" []
      | Some children => fill_children (fill fuel) s children (before_children st s)
      end.
Proof.
  intros Hok. cbn [plugin.fill].
  rewrite (fill_schema_with st s (plugin.metaAttributeSchemaObj (plugin.schemas st s)))
    by (intros o Ho; apply Hok; left; exact Ho).
  destruct (with_schema_same st s (plugin.metaAttributeSchemaObj (plugin.schemas st s))
              (@plugin.setMetaAttributeSchema JSONSchema)) as [S1 W1]; [reflexivity|].
  set (st1 := with_schema st s _ _) in *.
  destruct (S1 s) as (_ & He1 & _ & _ & Hm1).
  rewrite (fill_schema_with st1 s (plugin.metadataSchemaObj (plugin.schemas st1 s))).
  2:{ intros o Ho. rewrite W1, He1. apply Hok. right. rewrite <- Hm1. exact Ho. }
  pose proof (before_children_same st s) as S3.
  destruct (S3 s) as (_ & He3 & _).
  unfold before_children in *. cbv zeta in *. fold st1 in He3 |- *.
  rewrite He3. reflexivity.
Qed.

(** A loop that comes to a nil child does not return. *)
Lemma fill_children_nil (rec : plugin.loc -> State -> plugin.result State) (s : plugin.loc)
      (pre rest : list (option nat)) (st : State) :
  fill_children rec s (pre ++ None :: rest)%list st
  = match fill_children rec s pre st with
    | plugin.Done st' => plugin.fillPanicf (plugin.schemas st' s) "found a nil child schema" []
    | other => other
    end.
Proof. rewrite fill_children_app. reflexivity. Qed.

Lemma fill_nil_child_no_return (fuel : nat) (s : plugin.loc) (st : State)
      (pre rest : list (option nat)) :
  plugin.IsListSupported (entries (plugin.entry (plugin.schemas st s))) = true ->
  plugin.ChildSchemas (entries (plugin.entry (plugin.schemas st s)))
  = Some (pre ++ None :: rest)%list ->
  forall st', fill (S fuel) s st <> plugin.Done st'.
Proof.
  intros Hlist Hsome st'. cbn [plugin.fill].
  destruct (fill_schema st s (plugin.metaAttributeSchemaObj (plugin.schemas st s)) _ _)
    as [st1| |] eqn:E1; try discriminate.
  apply fill_schema_steps in E1 as ((S1 & _) & _); [|reflexivity].
  destruct (fill_schema st1 s (plugin.metadataSchemaObj (plugin.schemas st1 s)) _ _)
    as [st2| |] eqn:E2; try discriminate.
  apply fill_schema_steps in E2 as ((S2 & _) & _); [|reflexivity].
  destruct (same_objects_trans _ _ _ S1 S2 s) as (_ & He & _).
  cbn [plugin.schemas plugin.logFilled plugin.graphPut].
  rewrite He, Hlist, Hsome. cbn [negb]. rewrite fill_children_nil.
  destruct (fill_children _ _ _ _); unfold plugin.fillPanicf; discriminate.
Qed.

(** C6 (as amended). For a group-capable entry whose [ChildSchemas()] returns
    nil, [fill] panics; when the type-id has no [%] in it, the message starts
    with [s.fill (<type-id>): ], and it is
    [s.fill (<type-id>): ChildSchemas() returned nil] when the entry's schema
    objects are in order.  For a group-capable entry whose [ChildSchemas()]
    holds a nil child, [fill] does not return, and with fuel for the type-ids
    of the schema objects it panics.  With schema objects in order it runs
    the loop over the children before the nil one, from the state in which it
    came to [ChildSchemas()], and ends as that loop ends if it panics or runs
    out of fuel, and else panics with
    [s.fill (<type-id>): found a nil child schema]; this is the outcome when
    the nil child is the first.  An empty list that is not nil is accepted:
    with schema objects in order [fill] returns, in the state in which it
    came to [ChildSchemas()]. *)
Theorem fill_rejects_nil_children (fuel : nat) (s : plugin.loc) (st : State) :
  plugin.IsListSupported (entries (plugin.entry (plugin.schemas st s))) = true ->
  (plugin.ChildSchemas (entries (plugin.entry (plugin.schemas st s))) = None ->
   exists msg,
     fill (S fuel) s st = plugin.Panicked msg
     /\ (no_percent (typeID st s) = true ->
         HasPrefix msg ("s.fill (" ++ typeID st s ++ "): ") = true)
     /\ (no_percent (typeID st s) = true -> schema_objects_ok st s ->
         msg = ("s.fill (" ++ typeID st s ++ "): ") ++ "ChildSchemas() returned nil"))
  /\ (forall pre rest,
         plugin.ChildSchemas (entries (plugin.entry (plugin.schemas st s)))
         = Some (pre ++ None :: rest)%list ->
         (forall st', fill (S fuel) s st <> plugin.Done st')
         /\ (forall U,
                Inv st -> (forall l, In (typeID st l) U) ->
                ~ In (typeID st s) (keys st) -> (List.length U <= fuel)%nat ->
                exists msg, fill (S fuel) s st = plugin.Panicked msg)
         /\ (no_percent (typeID st s) = true -> schema_objects_ok st s ->
             fill (S fuel) s st
             = match fill_children (fill fuel) s pre (before_children st s) with
               | plugin.Done _ =>
                   plugin.Panicked (("s.fill (" ++ typeID st s ++ "): ")
                                      ++ "found a nil child schema")
               | other => other
               end)
         /\ (pre = [] -> no_percent (typeID st s) = true -> schema_objects_ok st s ->
             fill (S fuel) s st
             = plugin.Panicked (("s.fill (" ++ typeID st s ++ "): ")
                                  ++ "found a nil child schema")))
  /\ (plugin.ChildSchemas (entries (plugin.entry (plugin.schemas st s))) = Some [] ->
      schema_objects_ok st s ->
      fill (S fuel) s st = plugin.Done (before_children st s)).
Proof.
  intros Hlist. split; [|split].
  3:{ intros Hempty Hok. rewrite (fill_before_children fuel s st Hok), Hlist, Hempty.
      reflexivity. }
  - intros Hnil. cbn [plugin.fill].
    destruct (fill_schema st s (plugin.metaAttributeSchemaObj (plugin.schemas st s)) _ _)
      as [st1|msg1|] eqn:E1.
    + pose proof E1 as F1. apply fill_schema_steps in F1 as (S1 & _ & _); [|reflexivity].
      destruct (fill_schema st1 s (plugin.metadataSchemaObj (plugin.schemas st1 s)) _ _)
        as [st2|msg2|] eqn:E2.
      * pose proof E2 as F2. apply fill_schema_steps in F2 as (S2 & _ & _); [|reflexivity].
        assert (S12 : same_objects st st2).
        { eapply same_objects_trans; [apply S1 | apply S2]. }
        destruct (S12 s) as (HT & He & _).
        cbn [plugin.schemas plugin.logFilled plugin.graphPut].
        rewrite He, Hlist, Hnil. cbn [negb].
        assert (Hmsg : no_percent (typeID st s) = true ->
                       @plugin.fillPanicf _ _ State (plugin.schemas st2 s)
                         "ChildSchemas() returned nil" []
                       = plugin.Panicked (("s.fill (" ++ typeID st s ++ "): ")
                                            ++ "ChildSchemas() returned nil")).
        { intros Hp. rewrite fillPanicf_msg by (fold (typeID st2 s); rewrite HT; exact Hp).
          fold (typeID st2 s). rewrite HT. reflexivity. }
        destruct (no_percent (typeID st s)) eqn:Hp.
        -- rewrite (Hmsg eq_refl). eexists. split; [reflexivity|]. split.
           ++ intros _. apply HasPrefix_app.
           ++ intros _ _. reflexivity.
        -- eexists. split; [reflexivity|]. split; discriminate.
      * eexists. split; [reflexivity|]. split.
        -- intros Hp. rewrite <- (proj1 (proj1 S1 s)).
           apply (fill_schema_panic _ _ _ _ _ _ (eq_trans (f_equal _ (proj1 (proj1 S1 s))) Hp) E2).
        -- intros _ Hok. exfalso.
           destruct (fill_schema_ok st s (plugin.metaAttributeSchemaObj (plugin.schemas st s))
                       "bad value passed into SetMetaAttributeSchema: %v"
                       (@plugin.setMetaAttributeSchema JSONSchema)) as (sa & Ea & Wa).
           { intros o Ho. apply Hok. left. exact Ho. }
           rewrite Ea in E1. injection E1 as <-.
           destruct (proj1 S1 s) as (_ & He & _).
           unfold plugin.fill_schema, plugin.schemaOf in E2.
           destruct (plugin.metadataSchemaObj (plugin.schemas sa s)) as [o|] eqn:Eo;
             [|discriminate].
           rewrite Wa, He in E2. rewrite (Hok o) in E2; [discriminate|].
           right. rewrite <- Eo. symmetry. apply (proj1 S1 s).
      * exfalso. revert E2. apply fill_schema_fuel.
    + eexists. split; [reflexivity|]. split.
      * intros Hp. apply (fill_schema_panic _ _ _ _ _ _ Hp E1).
      * intros _ Hok. exfalso.
        destruct (fill_schema_ok st s (plugin.metaAttributeSchemaObj (plugin.schemas st s))
                    "bad value passed into SetMetaAttributeSchema: %v"
                    (@plugin.setMetaAttributeSchema JSONSchema)) as (sa & Ea & Wa).
        { intros o Ho. apply Hok. left. exact Ho. }
        rewrite Ea in E1. discriminate.
    + exfalso. revert E1. apply fill_schema_fuel.
  - intros pre rest Hsome.
    assert (Hrun : no_percent (typeID st s) = true -> schema_objects_ok st s ->
              fill (S fuel) s st
              = match fill_children (fill fuel) s pre (before_children st s) with
                | plugin.Done _ =>
                    plugin.Panicked (("s.fill (" ++ typeID st s ++ "): ")
                                       ++ "found a nil child schema")
                | other => other
                end).
    { intros Hp Hok. rewrite (fill_before_children fuel s st Hok), Hlist, Hsome.
      cbn [negb]. rewrite fill_children_nil.
      destruct (fill_children (fill fuel) s pre (before_children st s)) as [st'| |] eqn:Epre;
        try reflexivity.
      pose proof (fill_children_same_objects (fill fuel) s (fill_same_objects fuel)
                    pre _ _ Epre) as S4.
      pose proof (same_objects_trans _ _ _ (before_children_same st s) S4) as S04.
      destruct (S04 s) as (HT & _). unfold typeID in HT.
      rewrite fillPanicf_msg by (rewrite HT; exact Hp).
      rewrite HT. reflexivity. }
    pose proof (fill_nil_child_no_return fuel s st pre rest Hlist Hsome) as Hno.
    split; [exact Hno|]. split.
    { intros U HI HU Hnew Hfuel.
      assert (Hm : (missing U (keys st) < S fuel)%nat).
      { pose proof (missing_length U (keys st)). lia. }
      pose proof (fill_terminates U (S fuel) s st HI HU Hnew Hm) as Hterm.
      destruct (fill (S fuel) s st) as [st'|msg|];
        [destruct (Hno st' eq_refl) | exists msg; reflexivity | destruct (Hterm eq_refl)]. }
    split; [exact Hrun|].
    intros -> Hp Hok. rewrite (Hrun Hp Hok). reflexivity.
Qed.

Lemma ToJSON_keys (st : State) : map fst (plugin.ToJSON st) = keys st.
Proof.
  unfold plugin.ToJSON, keys, linkedhashmap.Keys. rewrite map_map. reflexivity.
Qed.

Lemma missing_nil (U : list string) : missing U [] = List.length U.
Proof.
  unfold missing. induction U as [|u U IH]; simpl; [reflexivity|]. f_equal. exact IH.
Qed.

(** The state [MarshalJSON] starts [fill] in: the receiver holds a copy of
    [s], the graph is new. *)
Definition marshal_start (st : State) (s : plugin.EntrySchema JSONSchema Obj) : State :=
  {| plugin.schemas := fun l => if plugin.loc_eqb l plugin.Receiver then s
                                else plugin.schemas st l;
     plugin.wrapped := plugin.wrapped st;
     plugin.theGraph := linkedhashmap.New;
     plugin.filled := []; plugin.puts := [] |}.

Lemma marshal_start_Inv (st : State) (s : plugin.EntrySchema JSONSchema Obj) :
  Inv (marshal_start st s).
Proof.
  unfold Inv, keys. simpl. repeat split; try constructor. intros x [].
Qed.

(** C3. Marshalling the schema of a core plugin's entry: the first key of the
    mapping is the root's type-id; the keys stand in the order in which they
    were first put into the graph and no key stands twice; [fill] runs at most
    once on a type-id, and where no schema carries a pre-baked graph every
    [Put] inserts a new key.  When the schema objects have finitely many
    type-ids, [fill] ends (it returns or panics) with fuel above their number,
    whatever cycles the children form. *)
Theorem schema_graph_marshal (st : State) (s : plugin.EntrySchema JSONSchema Obj) :
  plugin.graph s = None ->
  (forall fuel json,
      plugin.MarshalJSON Reflect TypeType registrySchemaLabel SprintSchema entries fuel st s
      = plugin.Done json ->
      hd_error (map fst json) = Some (plugin.TypeID (plugin.base s))
      /\ NoDup (map fst json)
      /\ exists st',
          plugin.MarshalJSON_state Reflect TypeType registrySchemaLabel SprintSchema
            entries fuel st s = plugin.Done st'
          /\ json = plugin.ToJSON st'
          /\ map fst json = first_occurrences (plugin.puts st')
          /\ NoDup (plugin.filled st')
          /\ incl (plugin.filled st') (map fst json)
          /\ ((forall n, plugin.graph (plugin.schemas st (plugin.At n)) = None) ->
              plugin.puts st' = plugin.filled st' /\ map fst json = plugin.puts st'))
  /\ (forall U fuel,
         In (plugin.TypeID (plugin.base s)) U ->
         (forall n, In (typeID st (plugin.At n)) U) ->
         (List.length U < fuel)%nat ->
         plugin.MarshalJSON Reflect TypeType registrySchemaLabel SprintSchema entries fuel st s
         <> plugin.OutOfFuel).
Proof.
  intros Hcore. split.
  - intros fuel json. unfold plugin.MarshalJSON, plugin.MarshalJSON_state. rewrite Hcore.
    destruct (plugin.isExternalPlugin (entries (plugin.entry s))); [discriminate|].
    fold (marshal_start st s).
    destruct (fill fuel plugin.Receiver (marshal_start st s)) as [st'| |] eqn:E;
      try discriminate.
    intros [= <-].
    destruct (fill_spec fuel _ _ _ (marshal_start_Inv st s) (fun H => H) E)
      as ((Hnd & Hord & Hf & Hincl) & (Hso & _ & _ & Hp) & Hin & Hhd).
    rewrite ToJSON_keys.
    split; [apply Hhd; reflexivity|]. split; [exact Hnd|].
    exists st'. split; [reflexivity|]. split; [reflexivity|].
    split; [exact Hord|]. split; [exact Hf|]. split; [exact Hincl|].
    intros Hnone.
    assert (Hpf : plugin.puts st' = plugin.filled st').
    { apply Hp; [|reflexivity]. intros [|n]; simpl; [exact Hcore | apply Hnone]. }
    split; [exact Hpf|].
    rewrite Hord, Hpf. apply first_occurrences_NoDup, Hf.
  - intros U fuel HU HUn Hfuel. unfold plugin.MarshalJSON, plugin.MarshalJSON_state.
    rewrite Hcore.
    destruct (plugin.isExternalPlugin (entries (plugin.entry s))); [discriminate|].
    fold (marshal_start st s).
    pose proof (fill_terminates U fuel plugin.Receiver (marshal_start st s)
                  (marshal_start_Inv st s)) as Hterm.
    destruct (fill fuel plugin.Receiver (marshal_start st s)); try discriminate.
    exfalso. apply Hterm; try reflexivity.
    + intros [|n]; unfold typeID; simpl; [exact HU | apply HUn].
    + intros [].
    + unfold keys. simpl. rewrite missing_nil. exact Hfuel.
Qed.

(** C7. [NewEntrySchema] with an empty label panics, for every entry; with a
    label it returns a schema that carries the label. *)
Theorem NewEntrySchema_empty_label (e : plugin.eloc) :
  plugin.NewEntrySchema JSONSchema emptyStruct entries e ""
  = Panic "plugin.NewEntrySchema called with an empty label"
  /\ forall label, label <> "" ->
       exists s, plugin.NewEntrySchema JSONSchema emptyStruct entries e label = Ret s
                 /\ plugin.Label (plugin.base s) = label.
Proof.
  split; [reflexivity|].
  intros label Hl. unfold plugin.NewEntrySchema.
  destruct label as [|c r]; [congruence|]. simpl. eexists. split; reflexivity.
Qed.

(** *** What [fill] leaves alone, and the children it lists *)

(** The label, the singleton mark and the actions of every object. *)
Definition same_headers (st st' : State) : Prop :=
  forall l,
    plugin.Label (plugin.base (plugin.schemas st' l))
    = plugin.Label (plugin.base (plugin.schemas st l))
    /\ plugin.Singleton (plugin.base (plugin.schemas st' l))
       = plugin.Singleton (plugin.base (plugin.schemas st l))
    /\ plugin.Actions (plugin.base (plugin.schemas st' l))
       = plugin.Actions (plugin.base (plugin.schemas st l)).

(** The records of the objects other than [s] whose type-id is in the
    graph. *)
Definition untouched (st st' : State) (s : plugin.loc) : Prop :=
  forall l, l <> s -> In (typeID st l) (keys st) ->
            plugin.base (plugin.schemas st' l) = plugin.base (plugin.schemas st l).

Lemma same_headers_refl st : same_headers st st.
Proof. intros l. auto. Qed.

Lemma same_headers_trans a b c : same_headers a b -> same_headers b c -> same_headers a c.
Proof.
  intros H1 H2 l. destruct (H1 l) as (A1 & A2 & A3), (H2 l) as (B1 & B2 & B3).
  repeat split; congruence.
Qed.

Lemma loc_eqb_eq (a b : plugin.loc) : plugin.loc_eqb a b = true <-> a = b.
Proof.
  destruct a as [|n], b as [|m]; simpl; try (split; [discriminate | congruence]).
  - tauto.
  - rewrite Nat.eqb_eq. split; congruence.
Qed.

Lemma setSchema_other (st : State) (s l : plugin.loc) (x : plugin.EntrySchema JSONSchema Obj) :
  l <> s -> plugin.schemas (plugin.setSchema st s x) l = plugin.schemas st l.
Proof.
  intros H. simpl. destruct (plugin.loc_eqb l s) eqn:E; [|reflexivity].
  apply loc_eqb_eq in E. contradiction.
Qed.

Lemma setSchema_same (st : State) (s : plugin.loc) (x : plugin.EntrySchema JSONSchema Obj) :
  plugin.schemas (plugin.setSchema st s x) s = x.
Proof.
  simpl. destruct (plugin.loc_eqb s s) eqn:E; [reflexivity|].
  assert (plugin.loc_eqb s s = true) by (apply loc_eqb_eq; reflexivity). congruence.
Qed.

(** [fill_schema] changes one of the two schemas of [s], nothing else. *)
Lemma fill_schema_frame (st st' : State) (s : plugin.loc) (obj : option Obj) (bad : string)
      (set : plugin.entrySchema JSONSchema -> option JSONSchema -> plugin.entrySchema JSONSchema) :
  (forall b j, plugin.Label (set b j) = plugin.Label b
               /\ plugin.Singleton (set b j) = plugin.Singleton b
               /\ plugin.Actions (set b j) = plugin.Actions b
               /\ plugin.Children (set b j) = plugin.Children b) ->
  fill_schema st s obj bad set = plugin.Done st' ->
  same_headers st st'
  /\ (forall l, l <> s -> plugin.schemas st' l = plugin.schemas st l)
  /\ plugin.Children (plugin.base (plugin.schemas st' s))
     = plugin.Children (plugin.base (plugin.schemas st s)).
Proof.
  intros Hset. unfold plugin.fill_schema.
  destruct obj as [o|]; [|intros [= <-]; split; [apply same_headers_refl | auto]].
  destruct (plugin.schemaOf Reflect TypeType st (plugin.schemas st s) o) as [j|err];
    [|unfold plugin.fillPanicf; discriminate].
  intros [= <-]. split; [|split].
  - intros l. destruct (plugin.loc_eqb l s) eqn:E.
    + apply loc_eqb_eq in E. subst l. rewrite setSchema_same. simpl.
      destruct (Hset (plugin.base (plugin.schemas st s)) (Some j)) as (A & B & C & _).
      auto.
    + rewrite setSchema_other; [auto|]. intros ->.
      assert (plugin.loc_eqb s s = true) by (apply loc_eqb_eq; reflexivity). congruence.
  - intros l Hl. apply setSchema_other, Hl.
  - rewrite setSchema_same. simpl.
    apply (Hset (plugin.base (plugin.schemas st s)) (Some j)).
Qed.

Definition rec_frame (rec : plugin.loc -> State -> plugin.result State) : Prop :=
  forall c st st',
    Inv st -> ~ In (typeID st c) (keys st) -> rec c st = plugin.Done st' ->
    Inv st' /\ steps st st' /\ same_headers st st' /\ untouched st st' c.

Lemma fill_children_frame (rec : plugin.loc -> State -> plugin.result State) (s : plugin.loc) :
  rec_frame rec ->
  forall children st st',
    Inv st -> In (typeID st s) (keys st) ->
    fill_children rec s children st = plugin.Done st' ->
    same_headers st st' /\ untouched st st' s
    /\ exists cs,
        children = map Some cs
        /\ plugin.Children (plugin.base (plugin.schemas st' s))
           = (plugin.Children (plugin.base (plugin.schemas st s))
                ++ map (fun c => typeID st (plugin.At c)) cs)%list
        /\ plugin.MetaAttributeSchema (plugin.base (plugin.schemas st' s))
           = plugin.MetaAttributeSchema (plugin.base (plugin.schemas st s))
        /\ plugin.MetadataSchema (plugin.base (plugin.schemas st' s))
           = plugin.MetadataSchema (plugin.base (plugin.schemas st s)).
Proof.
  intros Hrec. induction children as [|[c|] rest IH]; intros st st' HI Hin Hrun.
  - simpl in Hrun. injection Hrun as <-. split; [apply same_headers_refl|].
    split; [intros l _ _; reflexivity|].
    exists []. split; [reflexivity|].
    split; [simpl; rewrite app_nil_r; reflexivity | split; reflexivity].
  - cbn [plugin.fill_children] in Hrun.
    match type of Hrun with
    | context [plugin.setSchema st s ?x] =>
        match x with
        | plugin.setBase _ ?b =>
            destruct (steps_frame st (plugin.setSchema st s x)
                        (setBase_same st s b eq_refl) eq_refl eq_refl eq_refl) as [Hst1 HI1];
            pose proof (setSchema_same st s x) as Hs1;
            pose proof (fun l => setSchema_other st s l x) as Ho1;
            set (st1 := plugin.setSchema st s x) in *
        end
    end.
    specialize (HI1 HI).
    assert (HT1 : forall l, typeID st1 l = typeID st l) by (intros l; apply (proj1 Hst1 l)).
    assert (HK1 : keys st1 = keys st) by reflexivity.
    assert (Hh1 : same_headers st st1).
    { intros l. destruct (plugin.loc_eqb l s) eqn:E.
      - apply loc_eqb_eq in E. subst l. rewrite Hs1. simpl. auto.
      - rewrite Ho1; [auto|]. intros ->.
        assert (plugin.loc_eqb s s = true) by (apply loc_eqb_eq; reflexivity). congruence. }
    assert (Hc1 : plugin.Children (plugin.base (plugin.schemas st1 s))
                  = (plugin.Children (plugin.base (plugin.schemas st s))
                       ++ [typeID st (plugin.At c)])%list).
    { rewrite Hs1. reflexivity. }
    assert (Hfinish : forall st2,
               same_headers st1 st2 ->
               (forall l, l <> s -> In (typeID st l) (keys st) ->
                          plugin.base (plugin.schemas st2 l) = plugin.base (plugin.schemas st1 l)) ->
               plugin.base (plugin.schemas st2 s) = plugin.base (plugin.schemas st1 s) ->
               (forall l, typeID st2 l = typeID st l) ->
               Inv st2 -> incl (keys st) (keys st2) ->
               fill_children rec s rest st2 = plugin.Done st' ->
               same_headers st st' /\ untouched st st' s
               /\ exists cs,
                   Some c :: rest = map Some cs
                   /\ plugin.Children (plugin.base (plugin.schemas st' s))
                      = (plugin.Children (plugin.base (plugin.schemas st s))
                           ++ map (fun c => typeID st (plugin.At c)) cs)%list
                   /\ plugin.MetaAttributeSchema (plugin.base (plugin.schemas st' s))
                      = plugin.MetaAttributeSchema (plugin.base (plugin.schemas st s))
                   /\ plugin.MetadataSchema (plugin.base (plugin.schemas st' s))
                      = plugin.MetadataSchema (plugin.base (plugin.schemas st s))).
    { intros st2 Hh2 Hu2 Hb2 HT2 HI2 Hk2 Hrest.
      assert (Hin2 : In (typeID st2 s) (keys st2)) by (rewrite HT2; apply Hk2, Hin).
      destruct (IH st2 st' HI2 Hin2 Hrest) as (Hh' & Hu' & cs & -> & Hcs & Hma & Hmd).
      split; [eapply same_headers_trans; [exact Hh1|];
              eapply same_headers_trans; eassumption|].
      split.
      - intros l Hl Hlin. rewrite (Hu' l Hl); [|rewrite HT2; apply Hk2, Hlin].
        rewrite (Hu2 l Hl Hlin). rewrite Ho1; [reflexivity | exact Hl].
      - exists (c :: cs). split; [reflexivity|]. split; [|split].
        + rewrite Hcs, Hb2, Hc1, <- app_assoc. simpl. f_equal. f_equal.
          apply map_ext. intros a. apply HT2.
        + rewrite Hma, Hb2, Hs1. reflexivity.
        + rewrite Hmd, Hb2, Hs1. reflexivity. }
    fold (typeID st (plugin.At c)) in Hrun.
    destruct (linkedhashmap.Get (plugin.theGraph st1) (typeID st (plugin.At c))) eqn:EG.
    + apply (Hfinish st1); auto using same_headers_refl, incl_refl.
    + apply Get_None in EG. fold (keys st1) in EG.
      destruct (plugin.graph (plugin.schemas st1 (plugin.At c))) as [g|] eqn:Eg.
      * destruct (negb (plugin.Label (plugin.base (plugin.schemas st1 s)) =? registrySchemaLabel));
          [unfold plugin.fillPanicf in Hrun; discriminate|].
        destruct (merge_spec g st1) as (Hs & Hf & Hi & Hh & HIm).
        match type of Hrun with
        | _ ?x = _ => apply (Hfinish x)
        end.
        -- intros l. rewrite Hs. auto.
        -- intros l _ _. rewrite Hs. reflexivity.
        -- rewrite Hs. reflexivity.
        -- intros l. unfold typeID. rewrite Hs. apply HT1.
        -- apply HIm, HI1.
        -- exact Hi.
        -- exact Hrun.
      * match type of Hrun with
        | context [rec (plugin.At c) ?x] => set (st2 := x) in *
        end.
        assert (H12 : steps st1 st2 /\ (Inv st1 -> Inv st2)).
        { apply steps_frame; [intros l; repeat split; reflexivity | reflexivity ..]. }
        destruct H12 as [Hst2 HI2]. specialize (HI2 HI1).
        destruct (rec (plugin.At c) st2) as [st3| |] eqn:Erec; try discriminate.
        assert (Hnew : ~ In (typeID st2 (plugin.At c)) (keys st2)).
        { change (typeID st2 (plugin.At c)) with (typeID st1 (plugin.At c)).
          rewrite HT1. exact EG. }
        destruct (Hrec _ _ _ HI2 Hnew Erec) as (HI3 & Hst3 & Hh3 & Hu3).
        assert (Hother : forall l, In (typeID st l) (keys st) -> l <> plugin.At c).
        { intros l Hl ->. apply EG. rewrite HK1. exact Hl. }
        apply (Hfinish st3).
        -- exact Hh3.
        -- intros l Hl Hlin. apply (Hu3 l (Hother l Hlin)).
           change (typeID st2 l) with (typeID st1 l). rewrite HT1. exact Hlin.
        -- apply (Hu3 s (Hother s Hin)).
           change (typeID st2 s) with (typeID st1 s). rewrite HT1. exact Hin.
        -- intros l. rewrite (proj1 (proj1 Hst3 l)).
           change (typeID st2 l) with (typeID st1 l). apply HT1.
        -- exact HI3.
        -- destruct Hst3 as (_ & Hincl & _). exact Hincl.
        -- exact Hrun.
  - simpl in Hrun. unfold plugin.fillPanicf in Hrun. discriminate.
Qed.

Lemma fill_frame (fuel : nat) :
  forall s st st',
    Inv st -> ~ In (typeID st s) (keys st) -> fill fuel s st = plugin.Done st' ->
    same_headers st st' /\ untouched st st' s
    /\ (plugin.IsListSupported (entries (plugin.entry (plugin.schemas st s))) = false ->
        plugin.Children (plugin.base (plugin.schemas st' s))
        = plugin.Children (plugin.base (plugin.schemas st s)))
    /\ (plugin.IsListSupported (entries (plugin.entry (plugin.schemas st s))) = true ->
        exists cs,
          plugin.ChildSchemas (entries (plugin.entry (plugin.schemas st s)))
          = Some (map Some cs)
          /\ plugin.Children (plugin.base (plugin.schemas st' s))
             = (plugin.Children (plugin.base (plugin.schemas st s))
                  ++ map (fun c => typeID st (plugin.At c)) cs)%list).
Proof.
  induction fuel as [|fuel IH]; intros s st st' HI Hnew Hrun; [discriminate|].
  cbn [plugin.fill] in Hrun.
  destruct (fill_schema st s (plugin.metaAttributeSchemaObj (plugin.schemas st s)) _ _)
    as [st1| |] eqn:E1; try discriminate.
  pose proof E1 as F1. apply fill_schema_frame in F1 as (Hh1 & Ho1 & Hc1);
    [|intros b j; repeat split].
  apply fill_schema_steps in E1 as (S1 & I1 & K1); [|reflexivity].
  destruct (fill_schema st1 s (plugin.metadataSchemaObj (plugin.schemas st1 s)) _ _)
    as [st2| |] eqn:E2; try discriminate.
  pose proof E2 as F2. apply fill_schema_frame in F2 as (Hh2 & Ho2 & Hc2);
    [|intros b j; repeat split].
  apply fill_schema_steps in E2 as (S2 & I2 & K2); [|reflexivity].
  assert (S12 : steps st st2) by (eapply steps_trans; eassumption).
  assert (HI2 : Inv st2) by auto.
  assert (HT : forall l, typeID st2 l = typeID st l).
  { intros l. destruct S12 as (Hso & _). apply (Hso l). }
  assert (HE : plugin.entry (plugin.schemas st2 s) = plugin.entry (plugin.schemas st s)).
  { destruct S12 as (Hso & _). apply (Hso s). }
  assert (Hnew2 : ~ In (typeID st2 s) (keys st2)) by (rewrite HT, K2, K1; exact Hnew).
  destruct (put_filled_spec st2 s HI2 Hnew2) as (HI3 & S3 & Hin3 & Hhd3).
  fold (typeID st2 s) in Hrun.
  set (st3 := plugin.logFilled (plugin.graphPut st2 (typeID st2 s) (plugin.Ref _ s))
                               (typeID st2 s)) in *.
  assert (Hh03 : same_headers st st3).
  { eapply same_headers_trans; [exact Hh1|]. exact Hh2. }
  assert (Ho03 : forall l, l <> s -> plugin.schemas st3 l = plugin.schemas st l).
  { intros l Hl. change (plugin.schemas st3 l) with (plugin.schemas st2 l).
    rewrite (Ho2 l Hl). apply Ho1, Hl. }
  assert (Hc03 : plugin.Children (plugin.base (plugin.schemas st3 s))
                 = plugin.Children (plugin.base (plugin.schemas st s))).
  { change (plugin.schemas st3 s) with (plugin.schemas st2 s). congruence. }
  change (plugin.entry (plugin.schemas st3 s))
    with (plugin.entry (plugin.schemas st2 s)) in Hrun.
  rewrite HE in Hrun.
  destruct (plugin.IsListSupported (entries (plugin.entry (plugin.schemas st s)))) eqn:EL;
    simpl in Hrun.
  - destruct (plugin.ChildSchemas (entries (plugin.entry (plugin.schemas st s))))
      as [children|]; [|unfold plugin.fillPanicf in Hrun; discriminate].
    assert (Hrec : rec_frame (fill fuel)).
    { intros c sa sb Ha Hc Hr.
      destruct (fill_spec fuel _ _ _ Ha Hc Hr) as (A & B & _).
      destruct (IH _ _ _ Ha Hc Hr) as (C & D & _). auto. }
    destruct (fill_children_frame (fill fuel) s Hrec children st3 st' HI3 Hin3 Hrun)
      as (Hh' & Hu' & cs & -> & Hcs & Hma & Hmd).
    split; [eapply same_headers_trans; eassumption|]. split; [|split].
    + intros l Hl Hlin. rewrite (Hu' l Hl).
      * rewrite (Ho03 l Hl). reflexivity.
      * change (typeID st3 l) with (typeID st2 l). rewrite HT.
        destruct S3 as (_ & Hincl & _). apply Hincl. rewrite K2, K1. exact Hlin.
    + discriminate.
    + intros _. exists cs. split; [reflexivity|]. rewrite Hcs, Hc03. f_equal.
      apply map_ext. intros a. change (typeID st3 (plugin.At a)) with (typeID st2 (plugin.At a)).
      apply HT.
  - injection Hrun as <-. split; [exact Hh03|]. split; [|split].
    + intros l Hl _. rewrite (Ho03 l Hl). reflexivity.
    + intros _. exact Hc03.
    + discriminate.
Qed.

(** When [fill] returns for an object that was not yet in the graph, the
    object's children are extended by the type-ids of its [ChildSchemas()],
    in their order and with their repetitions (not at all on an entry that
    cannot be listed); the label, the singleton mark and the actions of every
    object are as before, and so is the whole record of every other object
    whose type-id was in the graph. *)
Theorem fill_lists_children_in_order (fuel : nat) (s : plugin.loc) (st st' : State) :
  Inv st -> ~ In (typeID st s) (keys st) -> fill fuel s st = plugin.Done st' ->
  (forall l,
      plugin.Label (plugin.base (plugin.schemas st' l))
      = plugin.Label (plugin.base (plugin.schemas st l))
      /\ plugin.Singleton (plugin.base (plugin.schemas st' l))
         = plugin.Singleton (plugin.base (plugin.schemas st l))
      /\ plugin.Actions (plugin.base (plugin.schemas st' l))
         = plugin.Actions (plugin.base (plugin.schemas st l))
      /\ typeID st' l = typeID st l)
  /\ (forall l, l <> s -> In (typeID st l) (keys st) ->
                plugin.base (plugin.schemas st' l) = plugin.base (plugin.schemas st l))
  /\ (plugin.IsListSupported (entries (plugin.entry (plugin.schemas st s))) = false ->
      plugin.Children (plugin.base (plugin.schemas st' s))
      = plugin.Children (plugin.base (plugin.schemas st s)))
  /\ (plugin.IsListSupported (entries (plugin.entry (plugin.schemas st s))) = true ->
      exists cs,
        plugin.ChildSchemas (entries (plugin.entry (plugin.schemas st s)))
        = Some (map Some cs)
        /\ plugin.Children (plugin.base (plugin.schemas st' s))
           = (plugin.Children (plugin.base (plugin.schemas st s))
                ++ map (fun c => typeID st (plugin.At c)) cs)%list).
Proof.
  intros HI Hnew Hrun.
  destruct (fill_frame fuel s st st' HI Hnew Hrun) as (Hh & Hu & Hno & Hyes).
  destruct (fill_spec fuel s st st' HI Hnew Hrun) as (_ & (Hso & _) & _).
  split; [|split; [exact Hu | split; [exact Hno | exact Hyes]]].
  intros l. destruct (Hh l) as (A & B & C). destruct (Hso l) as (D & _). auto.
Qed.

(** *** The schemas [fill] computes *)

Lemma fill_schema_sets (st st' : State) (s : plugin.loc) (obj : option Obj) (bad : string)
      (set : plugin.entrySchema JSONSchema -> option JSONSchema -> plugin.entrySchema JSONSchema) :
  fill_schema st s obj bad set = plugin.Done st' ->
  plugin.wrapped st' = plugin.wrapped st
  /\ match obj with
     | Some o =>
         TypeType (Reflect (plugin.wrapped st (plugin.entry (plugin.schemas st s))) o)
         = "object"
         /\ plugin.base (plugin.schemas st' s)
            = set (plugin.base (plugin.schemas st s))
                  (Some (Reflect (plugin.wrapped st (plugin.entry (plugin.schemas st s))) o))
     | None => st' = st
     end.
Proof.
  unfold plugin.fill_schema, plugin.schemaOf. destruct obj as [o|]; [|intros [= <-]; auto].
  destruct (String.eqb_spec
              (TypeType (Reflect (plugin.wrapped st (plugin.entry (plugin.schemas st s))) o))
              "object") as [Heq|Hne]; cbn [negb];
    [|unfold plugin.fillPanicf; discriminate].
  intros [= <-]. split; [reflexivity|]. split; [exact Heq|].
  rewrite setSchema_same. reflexivity.
Qed.

(** When [fill] returns for an object that was not yet in the graph, the
    object's two schemas are those its schema objects reflect to, with the
    wrapped types its entry held when [fill] began; each of them has the type
    [object]; a schema whose object is nil stays as it was. *)
Theorem fill_sets_schemas (fuel : nat) (s : plugin.loc) (st st' : State) :
  Inv st -> ~ In (typeID st s) (keys st) -> fill fuel s st = plugin.Done st' ->
  plugin.MetaAttributeSchema (plugin.base (plugin.schemas st' s))
  = match plugin.metaAttributeSchemaObj (plugin.schemas st s) with
    | Some o => Some (Reflect (plugin.wrapped st (plugin.entry (plugin.schemas st s))) o)
    | None => plugin.MetaAttributeSchema (plugin.base (plugin.schemas st s))
    end
  /\ plugin.MetadataSchema (plugin.base (plugin.schemas st' s))
     = match plugin.metadataSchemaObj (plugin.schemas st s) with
       | Some o => Some (Reflect (plugin.wrapped st (plugin.entry (plugin.schemas st s))) o)
       | None => plugin.MetadataSchema (plugin.base (plugin.schemas st s))
       end
  /\ (forall o,
         plugin.metaAttributeSchemaObj (plugin.schemas st s) = Some o
         \/ plugin.metadataSchemaObj (plugin.schemas st s) = Some o ->
         TypeType (Reflect (plugin.wrapped st (plugin.entry (plugin.schemas st s))) o)
         = "object").
Proof.
  destruct fuel as [|fuel]; intros HI Hnew Hrun; [discriminate|].
  cbn [plugin.fill] in Hrun.
  destruct (fill_schema st s (plugin.metaAttributeSchemaObj (plugin.schemas st s)) _ _)
    as [st1| |] eqn:E1; try discriminate.
  pose proof (fill_schema_sets _ _ _ _ _ _ E1) as (W1 & V1).
  apply fill_schema_steps in E1 as (S1 & I1 & K1); [|reflexivity].
  destruct (fill_schema st1 s (plugin.metadataSchemaObj (plugin.schemas st1 s)) _ _)
    as [st2| |] eqn:E2; try discriminate.
  pose proof (fill_schema_sets _ _ _ _ _ _ E2) as (W2 & V2).
  apply fill_schema_steps in E2 as (S2 & I2 & K2); [|reflexivity].
  destruct (proj1 S1 s) as (_ & HE1 & _ & _ & HM1).
  rewrite HM1, W1, HE1 in V2.
  assert (S12 : steps st st2) by (eapply steps_trans; eassumption).
  assert (HI2 : Inv st2) by auto.
  assert (HT : forall l, typeID st2 l = typeID st l).
  { intros l. destruct S12 as (Hso & _). apply (Hso l). }
  assert (Hnew2 : ~ In (typeID st2 s) (keys st2)) by (rewrite HT, K2, K1; exact Hnew).
  destruct (put_filled_spec st2 s HI2 Hnew2) as (HI3 & S3 & Hin3 & Hhd3).
  fold (typeID st2 s) in Hrun.
  set (st3 := plugin.logFilled (plugin.graphPut st2 (typeID st2 s) (plugin.Ref _ s))
                               (typeID st2 s)) in *.
  assert (Hfinal : plugin.MetaAttributeSchema (plugin.base (plugin.schemas st' s))
                   = plugin.MetaAttributeSchema (plugin.base (plugin.schemas st2 s))
                   /\ plugin.MetadataSchema (plugin.base (plugin.schemas st' s))
                      = plugin.MetadataSchema (plugin.base (plugin.schemas st2 s))).
  { destruct (negb (plugin.IsListSupported (entries (plugin.entry (plugin.schemas st3 s)))));
      [injection Hrun as <-; split; reflexivity|].
    destruct (plugin.ChildSchemas (entries (plugin.entry (plugin.schemas st3 s))))
      as [children|]; [|unfold plugin.fillPanicf in Hrun; discriminate].
    assert (Hrec : rec_frame (fill fuel)).
    { intros c sa sb Ha Hc Hr.
      destruct (fill_spec fuel _ _ _ Ha Hc Hr) as (A & B & _).
      destruct (fill_frame fuel _ _ _ Ha Hc Hr) as (C & D & _). auto. }
    destruct (fill_children_frame (fill fuel) s Hrec children st3 st' HI3 Hin3 Hrun)
      as (_ & _ & cs & _ & _ & Hma & Hmd).
    split; assumption. }
  destruct Hfinal as [-> ->].
  destruct (plugin.metaAttributeSchemaObj (plugin.schemas st s)) as [o1|] eqn:O1;
    destruct (plugin.metadataSchemaObj (plugin.schemas st s)) as [o2|] eqn:O2.
  - destruct V1 as [T1 B1], V2 as [T2 B2]. rewrite B2, B1. simpl.
    split; [reflexivity|]. split; [reflexivity|].
    intros o [[= <-]|[= <-]]; assumption.
  - destruct V1 as [T1 B1]. subst st2. rewrite B1. simpl.
    split; [reflexivity|]. split; [reflexivity|].
    intros o [[= <-]|[=]]; assumption.
  - subst st1. destruct V2 as [T2 B2]. rewrite B2. simpl.
    split; [reflexivity|]. split; [reflexivity|].
    intros o [[=]|[= <-]]; assumption.
  - subst st1 st2. split; [reflexivity|]. split; [reflexivity|].
    intros o [[=]|[=]].
Qed.

(** *** Every child listed is a key of the graph *)

(** The children of every object outside [X] are keys of the graph. *)
Definition closed (st : State) (X : list plugin.loc) : Prop :=
  forall l, ~ In l X ->
            incl (plugin.Children (plugin.base (plugin.schemas st l))) (keys st).

(** Every value of the graph is the address of an object, kept under the
    object's type-id. *)
Definition refs_only (st : State) : Prop :=
  forall k v, In (k, v) (plugin.theGraph st) ->
              exists l, v = plugin.Ref _ l /\ k = typeID st l.

Lemma Put_In {V : Type} (m : linkedhashmap.Map V) (k k' : string) (v v' : V) :
  In (k', v') (linkedhashmap.Put m k v) -> (k' = k /\ v' = v) \/ In (k', v') m.
Proof.
  induction m as [|[k0 w] rest IH]; simpl.
  - intros [[= <- <-]|[]]. auto.
  - destruct (String.eqb_spec k0 k) as [->|Hne]; simpl.
    + intros [[= <- <-]|H]; auto.
    + intros [H|H]; [auto|]. destruct (IH H); auto.
Qed.

Lemma Get_Some_In {V : Type} (m : linkedhashmap.Map V) (k : string) (v : V) :
  linkedhashmap.Get m k = Some v -> In k (linkedhashmap.Keys m).
Proof.
  induction m as [|[k0 w] rest IH]; simpl; [discriminate|].
  destruct (String.eqb_spec k0 k) as [->|Hne]; [auto|]. intros H. right. apply IH, H.
Qed.

Lemma fill_schema_graph (st st' : State) (s : plugin.loc) (obj : option Obj) (bad : string)
      (set : plugin.entrySchema JSONSchema -> option JSONSchema -> plugin.entrySchema JSONSchema) :
  fill_schema st s obj bad set = plugin.Done st' ->
  plugin.theGraph st' = plugin.theGraph st.
Proof.
  unfold plugin.fill_schema. destruct obj as [o|]; [|intros [= <-]; reflexivity].
  destruct (plugin.schemaOf Reflect TypeType st (plugin.schemas st s) o) as [j|err];
    [|unfold plugin.fillPanicf; discriminate].
  intros [= <-]. reflexivity.
Qed.

Lemma loc_eq_dec (a b : plugin.loc) : a = b \/ a <> b.
Proof.
  destruct (plugin.loc_eqb a b) eqn:E.
  - left. apply loc_eqb_eq, E.
  - right. intros H. apply loc_eqb_eq in H. congruence.
Qed.

Lemma refs_only_same (st st' : State) :
  plugin.theGraph st' = plugin.theGraph st -> (forall l, typeID st' l = typeID st l) ->
  refs_only st -> refs_only st'.
Proof.
  intros Hg HT H k v Hin. rewrite Hg in Hin. destruct (H k v Hin) as (l & -> & ->).
  exists l. rewrite HT. auto.
Qed.

Definition rec_closed (rec : plugin.loc -> State -> plugin.result State) : Prop :=
  forall c st st' X,
    Inv st -> core st -> ~ In (typeID st c) (keys st) ->
    (forall x, In x X -> In (typeID st x) (keys st)) ->
    closed st X -> refs_only st -> rec c st = plugin.Done st' ->
    closed st' X /\ refs_only st'.

Lemma fill_children_closed (fuel : nat) (s : plugin.loc) :
  rec_closed (fill fuel) ->
  forall children st st' X,
    Inv st -> core st -> In (typeID st s) (keys st) ->
    (forall x, In x X -> In (typeID st x) (keys st)) ->
    closed st X -> refs_only st ->
    fill_children (fill fuel) s children st = plugin.Done st' ->
    closed st' X /\ refs_only st'.
Proof.
  intros Hrec. induction children as [|[c|] rest IH];
    intros st st' X HI Hcore Hin HX Hcl Hrefs Hrun.
  - simpl in Hrun. injection Hrun as <-. auto.
  - cbn [plugin.fill_children] in Hrun.
    match type of Hrun with
    | context [plugin.setSchema st s ?x] =>
        match x with
        | plugin.setBase _ ?b =>
            destruct (steps_frame st (plugin.setSchema st s x)
                        (setBase_same st s b eq_refl) eq_refl eq_refl eq_refl) as [Hst1 HI1];
            pose proof (setSchema_same st s x) as Hs1;
            pose proof (fun l => setSchema_other st s l x) as Ho1;
            set (st1 := plugin.setSchema st s x) in *
        end
    end.
    specialize (HI1 HI).
    assert (HT1 : forall l, typeID st1 l = typeID st l) by (intros l; apply (proj1 Hst1 l)).
    assert (HK1 : keys st1 = keys st) by reflexivity.
    assert (Hcore1 : core st1) by (apply (core_same_objects _ _ (proj1 Hst1) Hcore)).
    assert (Hrefs1 : refs_only st1) by (apply (refs_only_same st st1 eq_refl HT1 Hrefs)).
    assert (Hc1 : plugin.Children (plugin.base (plugin.schemas st1 s))
                  = (plugin.Children (plugin.base (plugin.schemas st s))
                       ++ [typeID st (plugin.At c)])%list).
    { rewrite Hs1. reflexivity. }
    fold (typeID st (plugin.At c)) in Hrun.
    destruct (linkedhashmap.Get (plugin.theGraph st1) (typeID st (plugin.At c))) eqn:EG.
    + apply Get_Some_In in EG. fold (keys st1) in EG.
      apply (IH st1 st' X); auto.
      * rewrite HT1. exact Hin.
      * intros x Hx. rewrite HT1. apply HX, Hx.
      * intros l Hl. destruct (loc_eq_dec l s) as [->|Hne].
        -- rewrite Hc1. apply incl_app; [apply (Hcl s Hl)|].
           intros y [<-|[]]. exact EG.
        -- rewrite (Ho1 l Hne). apply (Hcl l Hl).
    + apply Get_None in EG. fold (keys st1) in EG.
      rewrite (Hcore1 (plugin.At c)) in Hrun.
      match type of Hrun with
      | context [plugin.fill _ _ _ _ _ fuel (plugin.At c) ?x] => set (st2 := x) in *
      end.
      assert (H12 : steps st1 st2 /\ (Inv st1 -> Inv st2)).
      { apply steps_frame; [intros l; repeat split; reflexivity | reflexivity ..]. }
      destruct H12 as [Hst2 HI2]. specialize (HI2 HI1).
      destruct (fill fuel (plugin.At c) st2) as [st3| |] eqn:Erec; try discriminate.
      assert (Hnew : ~ In (typeID st2 (plugin.At c)) (keys st2)).
      { change (typeID st2 (plugin.At c)) with (typeID st1 (plugin.At c)).
        rewrite HT1. exact EG. }
      assert (Hcore2 : core st2) by exact Hcore1.
      assert (Hrefs2 : refs_only st2) by exact Hrefs1.
      assert (HX2 : forall x, In x (s :: X) -> In (typeID st2 x) (keys st2)).
      { intros x Hx. change (In (typeID st1 x) (keys st)). rewrite HT1.
        destruct Hx as [<-|Hx]; [exact Hin | apply HX, Hx]. }
      assert (Hcl2 : closed st2 (s :: X)).
      { intros l Hl. change (incl (plugin.Children (plugin.base (plugin.schemas st1 l)))
                               (keys st)).
        rewrite Ho1; [|intros ->; apply Hl; left; reflexivity].
        apply Hcl. intros H. apply Hl. right. exact H. }
      destruct (Hrec _ _ _ (s :: X) HI2 Hcore2 Hnew HX2 Hcl2 Hrefs2 Erec) as [Hcl3 Hrefs3].
      destruct (fill_spec fuel _ _ _ HI2 Hnew Erec) as (HI3 & Hst3 & Hin3 & _).
      destruct (fill_frame fuel _ _ _ HI2 Hnew Erec) as (_ & Hu3 & _).
      assert (HT3 : forall l, typeID st3 l = typeID st l).
      { intros l. rewrite (proj1 (proj1 Hst3 l)).
        change (typeID st2 l) with (typeID st1 l). apply HT1. }
      assert (Hk3 : incl (keys st) (keys st3)).
      { destruct Hst3 as (_ & Hincl & _). exact Hincl. }
      apply (IH st3 st' X); auto.
      * apply (core_same_objects _ _ (proj1 Hst3) Hcore2).
      * rewrite HT3. apply Hk3, Hin.
      * intros x Hx. rewrite HT3. apply Hk3, HX, Hx.
      * intros l Hl. destruct (loc_eq_dec l s) as [->|Hne].
        -- rewrite (Hu3 s).
           ++ change (plugin.schemas st2 s) with (plugin.schemas st1 s). rewrite Hc1.
              apply incl_app; [eapply incl_tran; [apply (Hcl s Hl) | exact Hk3]|].
              intros y [<-|[]].
              change (typeID st2 (plugin.At c)) with (typeID st1 (plugin.At c)) in Hin3.
              rewrite HT1 in Hin3. exact Hin3.
           ++ intros ->. apply Hnew. apply HX2. left. reflexivity.
           ++ apply HX2. left. reflexivity.
        -- apply Hcl3. intros [H|H]; [congruence | exact (Hl H)].
  - simpl in Hrun. unfold plugin.fillPanicf in Hrun. discriminate.
Qed.

Lemma fill_closed (fuel : nat) : rec_closed (fill fuel).
Proof.
  induction fuel as [|fuel IH]; intros s st st' X HI Hcore Hnew HX Hcl Hrefs Hrun;
    [discriminate|].
  cbn [plugin.fill] in Hrun.
  destruct (fill_schema st s (plugin.metaAttributeSchemaObj (plugin.schemas st s)) _ _)
    as [st1| |] eqn:E1; try discriminate.
  pose proof (fill_schema_graph _ _ _ _ _ _ E1) as G1.
  pose proof E1 as F1. apply fill_schema_frame in F1 as (_ & Ho1 & Hc1);
    [|intros b j; repeat split].
  apply fill_schema_steps in E1 as (S1 & I1 & K1); [|reflexivity].
  destruct (fill_schema st1 s (plugin.metadataSchemaObj (plugin.schemas st1 s)) _ _)
    as [st2| |] eqn:E2; try discriminate.
  pose proof (fill_schema_graph _ _ _ _ _ _ E2) as G2.
  pose proof E2 as F2. apply fill_schema_frame in F2 as (_ & Ho2 & Hc2);
    [|intros b j; repeat split].
  apply fill_schema_steps in E2 as (S2 & I2 & K2); [|reflexivity].
  assert (S12 : steps st st2) by (eapply steps_trans; eassumption).
  assert (HI2 : Inv st2) by auto.
  assert (HT : forall l, typeID st2 l = typeID st l).
  { intros l. destruct S12 as (Hso & _). apply (Hso l). }
  assert (HE : plugin.entry (plugin.schemas st2 s) = plugin.entry (plugin.schemas st s)).
  { destruct S12 as (Hso & _). apply (Hso s). }
  assert (Hnew2 : ~ In (typeID st2 s) (keys st2)) by (rewrite HT, K2, K1; exact Hnew).
  destruct (put_filled_spec st2 s HI2 Hnew2) as (HI3 & S3 & Hin3 & Hhd3).
  fold (typeID st2 s) in Hrun.
  set (st3 := plugin.logFilled (plugin.graphPut st2 (typeID st2 s) (plugin.Ref _ s))
                               (typeID st2 s)) in *.
  assert (Hch : forall l, plugin.Children (plugin.base (plugin.schemas st3 l))
                          = plugin.Children (plugin.base (plugin.schemas st l))).
  { intros l. change (plugin.schemas st3 l) with (plugin.schemas st2 l).
    destruct (loc_eq_dec l s) as [->|Hne]; [congruence|].
    rewrite (Ho2 l Hne), (Ho1 l Hne). reflexivity. }
  assert (Hk3 : incl (keys st) (keys st3)).
  { destruct S3 as (_ & Hincl & _). rewrite <- K1, <- K2. exact Hincl. }
  assert (Hcl3 : closed st3 X).
  { intros l Hl. rewrite Hch. eapply incl_tran; [apply (Hcl l Hl) | exact Hk3]. }
  assert (Hcore3 : core st3).
  { apply (core_same_objects st st3); [|exact Hcore].
    eapply same_objects_trans; [exact (proj1 S12) | exact (proj1 S3)]. }
  assert (Hrefs3 : refs_only st3).
  { intros k v Hin. cbn [st3 plugin.logFilled plugin.graphPut plugin.theGraph] in Hin.
    apply Put_In in Hin as [[-> ->]|Hin].
    - exists s. split; reflexivity.
    - rewrite G2, G1 in Hin. destruct (Hrefs k v Hin) as (l & -> & ->).
      exists l. split; [reflexivity|].
      change (typeID st3 l) with (typeID st2 l). rewrite HT. reflexivity. }
  change (plugin.entry (plugin.schemas st3 s))
    with (plugin.entry (plugin.schemas st2 s)) in Hrun.
  rewrite HE in Hrun.
  destruct (plugin.IsListSupported (entries (plugin.entry (plugin.schemas st s))));
    simpl in Hrun; [|injection Hrun as <-; auto].
  destruct (plugin.ChildSchemas (entries (plugin.entry (plugin.schemas st s))))
    as [children|]; [|unfold plugin.fillPanicf in Hrun; discriminate].
  apply (fill_children_closed fuel s IH children st3 st' X); auto.
  intros x Hx. change (typeID st3 x) with (typeID st2 x). rewrite HT. apply Hk3, HX, Hx.
Qed.

(** When a core plugin's schema is marshalled with fresh schema objects
    (none has children yet), every entry of the result stands under the
    type-id of its record, and every child the record lists is a key of the
    result: no child reference dangles. *)
Theorem MarshalJSON_children_resolve (fuel : nat) (st : State)
        (s : plugin.EntrySchema JSONSchema Obj)
        (json : list (string * plugin.entrySchema JSONSchema)) :
  plugin.graph s = None ->
  (forall n, plugin.graph (plugin.schemas st (plugin.At n)) = None) ->
  plugin.Children (plugin.base s) = [] ->
  (forall n, plugin.Children (plugin.base (plugin.schemas st (plugin.At n))) = []) ->
  plugin.MarshalJSON Reflect TypeType registrySchemaLabel SprintSchema entries fuel st s
  = plugin.Done json ->
  forall k e, In (k, e) json ->
              plugin.TypeID e = k /\ incl (plugin.Children e) (map fst json).
Proof.
  intros Hg Hgs Hc Hcs Hrun k e Hin.
  unfold plugin.MarshalJSON, plugin.MarshalJSON_state in Hrun. rewrite Hg in Hrun.
  destruct (plugin.isExternalPlugin (entries (plugin.entry s))); [discriminate|].
  fold (marshal_start st s) in Hrun.
  destruct (fill fuel plugin.Receiver (marshal_start st s)) as [st'| |] eqn:E;
    try discriminate.
  injection Hrun as <-.
  assert (Hcore : core (marshal_start st s)) by (intros [|n]; simpl; auto).
  assert (Hnew : ~ In (typeID (marshal_start st s) plugin.Receiver)
                      (keys (marshal_start st s))) by (intros []).
  assert (HX : forall x, In x [] -> In (typeID (marshal_start st s) x)
                                       (keys (marshal_start st s))) by (intros x []).
  assert (Hcl0 : closed (marshal_start st s) []).
  { intros [|n] _; simpl; [rewrite Hc | rewrite Hcs]; intros y []. }
  assert (Hrefs0 : refs_only (marshal_start st s)) by (intros k0 v []).
  destruct (fill_closed fuel plugin.Receiver (marshal_start st s) st' []
              (marshal_start_Inv st s) Hcore Hnew HX Hcl0 Hrefs0 E) as [Hcl Hrefs].
  rewrite ToJSON_keys. unfold plugin.ToJSON in Hin.
  apply in_map_iff in Hin as ([k0 v] & [= <- <-] & Hin).
  destruct (Hrefs k0 v Hin) as (l & -> & ->). simpl.
  split; [reflexivity|]. apply (Hcl l). intros [].
Qed.

(** *** Marshalling pre-baked graphs and bad schema objects *)

Local Abbreviation MarshalJSON :=
  (plugin.MarshalJSON Reflect TypeType registrySchemaLabel SprintSchema entries).

Lemma append_nil_r (a : string) : (a ++ "")%string = a.
Proof. induction a as [|c a IH]; simpl; congruence. Qed.

Lemma ToJSON_baked (st : State) (g : linkedhashmap.Map (plugin.entrySchema JSONSchema)) :
  map (fun kv => (fst kv, plugin.deref st (snd kv)))
      (map (fun kv : string * plugin.entrySchema JSONSchema =>
              (fst kv, plugin.Baked (snd kv))) g)
  = g.
Proof.
  induction g as [|[k v] g IH]; [reflexivity|]. simpl. rewrite IH. reflexivity.
Qed.

(** A schema that carries a pre-baked graph is marshalled as that graph,
    entry by entry and in its order, whatever the plugin's objects are and
    without any call of [fill]; a schema without graph whose entry belongs to
    an external plugin makes [MarshalJSON] panic. *)
Theorem MarshalJSON_prebaked_graph (fuel : nat) (st : State)
        (s : plugin.EntrySchema JSONSchema Obj) :
  (forall g, plugin.graph s = Some g -> MarshalJSON fuel st s = plugin.Done g)
  /\ (plugin.graph s = None ->
      plugin.isExternalPlugin (entries (plugin.entry s)) = true ->
      MarshalJSON fuel st s
      = plugin.Panicked
          (Sprintf
             "s.MarshalJSON: called with a nil graph for external plugin entry %v (type ID %v)"
             [plugin.CName (entries (plugin.entry s)); plugin.TypeID (plugin.base s)])).
Proof.
  unfold plugin.MarshalJSON, plugin.MarshalJSON_state. split.
  - intros g ->. unfold plugin.ToJSON. cbn [plugin.theGraph]. rewrite ToJSON_baked.
    reflexivity.
  - intros -> ->. reflexivity.
Qed.

Lemma fill_schema_rejects (st : State) (s : plugin.loc) (o : Obj) (bad : string)
      (set : plugin.entrySchema JSONSchema -> option JSONSchema -> plugin.entrySchema JSONSchema) :
  no_percent (typeID st s) = true ->
  TypeType (Reflect (plugin.wrapped st (plugin.entry (plugin.schemas st s))) o) <> "object" ->
  fill_schema st s (Some o) bad set
  = plugin.Panicked
      (("s.fill (" ++ typeID st s ++ "): ")
         ++ Sprintf bad
              ["expected a JSON object but got "
                 ++ TypeType (Reflect (plugin.wrapped st (plugin.entry (plugin.schemas st s))) o)]).
Proof.
  intros HT Hbad. unfold plugin.fill_schema, plugin.schemaOf.
  apply String.eqb_neq in Hbad. rewrite Hbad. cbn [negb].
  apply fillPanicf_msg, HT.
Qed.

(** The builders store the object as it is; a schema object that does not
    reflect to a JSON object makes [MarshalJSON] panic, naming the type-id,
    the builder and the type found.  (For [SetMetadataSchema] the meta
    attribute's object must be a good one, as it is checked first.) *)
Theorem MarshalJSON_rejects_bad_schema_object (fuel : nat) (st : State)
        (s : plugin.EntrySchema JSONSchema Obj) (o : Obj) :
  plugin.graph s = None ->
  plugin.isExternalPlugin (entries (plugin.entry s)) = false ->
  no_percent (plugin.TypeID (plugin.base s)) = true ->
  TypeType (Reflect (plugin.wrapped st (plugin.entry s)) o) <> "object" ->
  MarshalJSON (S fuel) st (plugin.SetMetaAttributeSchema s (Some o))
  = plugin.Panicked
      ("s.fill (" ++ plugin.TypeID (plugin.base s)
         ++ "): bad value passed into SetMetaAttributeSchema: expected a JSON object but got "
         ++ TypeType (Reflect (plugin.wrapped st (plugin.entry s)) o))
  /\ ((forall o', plugin.metaAttributeSchemaObj s = Some o' ->
                  TypeType (Reflect (plugin.wrapped st (plugin.entry s)) o') = "object") ->
      MarshalJSON (S fuel) st (plugin.SetMetadataSchema s (Some o))
      = plugin.Panicked
          ("s.fill (" ++ plugin.TypeID (plugin.base s)
             ++ "): bad value passed into SetMetadataSchema: expected a JSON object but got "
             ++ TypeType (Reflect (plugin.wrapped st (plugin.entry s)) o))).
Proof.
  intros Hg Hext HT Hbad.
  unfold plugin.MarshalJSON, plugin.MarshalJSON_state.
  cbn [plugin.graph plugin.entry plugin.SetMetaAttributeSchema plugin.SetMetadataSchema].
  rewrite Hg, Hext. split.
  - fold (marshal_start st (plugin.SetMetaAttributeSchema s (Some o))).
    set (st0 := marshal_start st (plugin.SetMetaAttributeSchema s (Some o))).
    cbn [plugin.fill].
    assert (E : plugin.metaAttributeSchemaObj (plugin.schemas st0 plugin.Receiver) = Some o)
      by reflexivity.
    rewrite E, (fill_schema_rejects st0 plugin.Receiver o); [|exact HT | exact Hbad].
    cbn [Sprintf Ascii.eqb Bool.eqb]. rewrite append_nil_r.
    unfold typeID. cbn. rewrite !append_assoc. reflexivity.
  - intros Hmeta.
    fold (marshal_start st (plugin.SetMetadataSchema s (Some o))).
    set (st0 := marshal_start st (plugin.SetMetadataSchema s (Some o))).
    cbn [plugin.fill].
    destruct (fill_schema_ok st0 plugin.Receiver
                (plugin.metaAttributeSchemaObj (plugin.schemas st0 plugin.Receiver))
                "bad value passed into SetMetaAttributeSchema: %v"
                (@plugin.setMetaAttributeSchema JSONSchema)) as (st1 & E1 & Hw1).
    { intros o' Ho'. apply Hmeta. exact Ho'. }
    rewrite E1.
    apply fill_schema_steps in E1 as ((Hso & _) & _ & _); [|reflexivity].
    destruct (Hso plugin.Receiver) as (HT1 & HE1 & _ & _ & HM1).
    rewrite HM1.
    assert (E : plugin.metadataSchemaObj (plugin.schemas st0 plugin.Receiver) = Some o)
      by reflexivity.
    rewrite E, (fill_schema_rejects st1 plugin.Receiver o).
    + cbn [Sprintf Ascii.eqb Bool.eqb]. rewrite append_nil_r, HT1, HE1, Hw1.
      unfold typeID. cbn. rewrite !append_assoc. reflexivity.
    + rewrite HT1. exact HT.
    + rewrite HE1, Hw1. exact Hbad.
Qed.

(** *** The type-id of a new schema *)

Fixpoint pointers (depth : nat) (t : plugin.rtype) : plugin.rtype :=
  match depth with
  | O => t
  | S d => plugin.Ptr (pointers d t)
  end.

Lemma unravelPtr_pointers (depth : nat) (t : plugin.rtype) :
  plugin.unravelPtr (pointers depth t) = plugin.unravelPtr t.
Proof. induction depth as [|d IH]; simpl; auto. Qed.

(** The type-id of a new schema is the package path and the name of the
    entry's type below all its pointers, so entries whose types differ in
    pointer depth only get the same type-id; the new schema is no singleton,
    has no children, no graph and no metadata object, the empty struct as
    meta attribute object and the entry's actions. *)
Theorem NewEntrySchema_TypeID (e : plugin.eloc) (label : string)
        (depth : nat) (pkg name : string) :
  label <> "" ->
  plugin.TypeOf (entries e) = pointers depth (plugin.Named pkg name) ->
  plugin.NewEntrySchema JSONSchema emptyStruct entries e label
  = Ret {| plugin.base :=
             {| plugin.TypeID := pkg ++ "/" ++ name;
                plugin.Label := label;
                plugin.Singleton := false;
                plugin.Actions := plugin.SupportedActionsOf (entries e);
                plugin.MetaAttributeSchema := None;
                plugin.MetadataSchema := None;
                plugin.Children := [] |};
           plugin.metaAttributeSchemaObj := Some emptyStruct;
           plugin.metadataSchemaObj := None;
           plugin.entry := e;
           plugin.graph := None |}.
Proof.
  intros Hlabel Htype. unfold plugin.NewEntrySchema.
  destruct label as [|c label]; [contradiction|]. simpl.
  rewrite Htype, unravelPtr_pointers. reflexivity.
Qed.
End PluginFacts.

Arguments marshal_start {JSONSchema Obj SchemaMap} st s.
Arguments typeID {JSONSchema Obj SchemaMap} st l.

(** *** A plugin whose schema graph has a cycle

    A filesystem: the root lists directories and files, a directory lists
    directories and files.  Schemas reflect to the name of their JSON type. *)

Module fsplugin.

Local Open Scope string_scope.
Local Open Scope nat_scope.

Definition Reflect (_ : unit) (o : string) : string := o.
Definition TypeType (j : string) : string := j.
Definition registrySchemaLabel : string := "mountpoint".
Definition SprintSchema (s : plugin.EntrySchema string string) : string :=
  plugin.TypeID (plugin.base s).

Definition group (name : string) (children : option (list (option nat))) : plugin.Entry unit :=
  {| plugin.TypeOf := plugin.Ptr (plugin.Named "volume" name);
     plugin.SupportedActionsOf := ["list"];
     plugin.IsListSupported := true;
     plugin.ChildSchemas := children;
     plugin.WrappedTypes := None;
     plugin.isExternalPlugin := false;
     plugin.CName := name |}.

Definition file : plugin.Entry unit :=
  {| plugin.TypeOf := plugin.Ptr (plugin.Named "volume" "file");
     plugin.SupportedActionsOf := ["read"];
     plugin.IsListSupported := false;
     plugin.ChildSchemas := None;
     plugin.WrappedTypes := None;
     plugin.isExternalPlugin := false;
     plugin.CName := "file" |}.

(** Entry 0 is the root, 1 a directory, 2 a file, 3 a group whose
    [ChildSchemas()] is empty but not nil, 4 a group whose [ChildSchemas()] is
    nil. *)
Definition entries (e : plugin.eloc) : plugin.Entry unit :=
  match e with
  | 0%nat => group "FS" (Some [Some 0%nat; Some 1%nat])
  | 1%nat => group "dir" (Some [Some 0%nat; Some 1%nat])
  | 3%nat => group "empty" (Some [])
  | 4%nat => group "broken" None
  | _ => file
  end.

Definition schemaFor (e : plugin.eloc) (label : string) : plugin.EntrySchema string string :=
  match plugin.NewEntrySchema string "object" entries e label with
  | Ret s => s
  | Panic _ =>
      {| plugin.base := plugin.mkEntrySchema "" "" false [] None None [];
         plugin.metaAttributeSchemaObj := None; plugin.metadataSchemaObj := None;
         plugin.entry := e; plugin.graph := None |}
  end.

(** The schema objects [ChildSchemas()] hands out: [At 0] a directory, the
    others files. *)
Definition heap : plugin.State string string unit :=
  {| plugin.schemas := fun l => match l with
                                | plugin.At 0 => schemaFor 1 "dir"
                                | _ => schemaFor 2 "file"
                                end;
     plugin.wrapped := fun _ => tt;
     plugin.theGraph := linkedhashmap.New;
     plugin.filled := []; plugin.puts := [] |}.

Abbreviation MarshalJSON :=
  (plugin.MarshalJSON Reflect TypeType registrySchemaLabel SprintSchema entries).

Abbreviation fill :=
  (plugin.fill Reflect TypeType registrySchemaLabel SprintSchema entries).

Definition returns {A : Type} (r : plugin.result A) : bool :=
  match r with
  | plugin.Done _ => true
  | _ => false
  end.

End fsplugin.

Example fsplugin_marshal :
  fsplugin.MarshalJSON 3%nat fsplugin.heap (fsplugin.schemaFor 0%nat "fs")
  = plugin.Done
      [("volume/FS"%string,
        plugin.mkEntrySchema "volume/FS" "fs" false ["list"%string] (Some "object"%string) None
          ["volume/dir"; "volume/file"]%string);
       ("volume/dir"%string,
        plugin.mkEntrySchema "volume/dir" "dir" false ["list"%string] (Some "object"%string) None
          ["volume/dir"; "volume/file"]%string);
       ("volume/file"%string,
        plugin.mkEntrySchema "volume/file" "file" false ["read"%string]
          (Some "object"%string) None [])].
Proof. reflexivity. Qed.

Lemma schema_graph_marshal_witness :
  (exists json,
      fsplugin.MarshalJSON 3%nat fsplugin.heap (fsplugin.schemaFor 0%nat "fs") = plugin.Done json
      /\ hd_error (map fst json) = Some "volume/FS"%string
      /\ NoDup (map fst json))
  /\ fsplugin.MarshalJSON 4%nat fsplugin.heap (fsplugin.schemaFor 0%nat "fs") <> plugin.OutOfFuel.
Proof.
  destruct (schema_graph_marshal string string unit fsplugin.Reflect fsplugin.TypeType
              fsplugin.registrySchemaLabel fsplugin.SprintSchema fsplugin.entries
              fsplugin.heap (fsplugin.schemaFor 0%nat "fs") eq_refl) as [H1 H2].
  split.
  - eexists. split; [exact fsplugin_marshal|].
    destruct (H1 3%nat _ fsplugin_marshal) as (Hhd & Hnd & _).
    split; [exact Hhd | exact Hnd].
  - apply (H2 ["volume/FS"; "volume/dir"; "volume/file"]%string 4%nat).
    + left. reflexivity.
    + intros [|n]; [right; left; reflexivity | right; right; left; reflexivity].
    + simpl. lia.
Defined.

(** *** A plugin that hands out nil child schemas

    Entry 0 lists a file, a nil child and another file; entry 1 lists a nil
    child only. *)

Module holes.

Local Open Scope string_scope.
Local Open Scope nat_scope.

Definition entries (e : plugin.eloc) : plugin.Entry unit :=
  match e with
  | 0%nat => fsplugin.group "holes" (Some [Some 0%nat; None; Some 1%nat])
  | 1%nat => fsplugin.group "hole" (Some [None])
  | _ => fsplugin.file
  end.

Definition schemaFor (e : plugin.eloc) (label : string) : plugin.EntrySchema string string :=
  match plugin.NewEntrySchema string "object" entries e label with
  | Ret s => s
  | Panic _ =>
      {| plugin.base := plugin.mkEntrySchema "" "" false [] None None [];
         plugin.metaAttributeSchemaObj := None; plugin.metadataSchemaObj := None;
         plugin.entry := e; plugin.graph := None |}
  end.

(** The schema objects [ChildSchemas()] hands out are those of files. *)
Definition heap : plugin.State string string unit :=
  {| plugin.schemas := fun _ => schemaFor 2 "file";
     plugin.wrapped := fun _ => tt;
     plugin.theGraph := linkedhashmap.New;
     plugin.filled := []; plugin.puts := [] |}.

Abbreviation fill :=
  (plugin.fill fsplugin.Reflect fsplugin.TypeType fsplugin.registrySchemaLabel
     fsplugin.SprintSchema entries).

End holes.

Lemma fill_rejects_nil_children_witness :
  (exists msg,
      fsplugin.fill 1%nat plugin.Receiver
        (marshal_start fsplugin.heap (fsplugin.schemaFor 4%nat "broken"))
      = plugin.Panicked msg
      /\ msg = "s.fill (volume/broken): ChildSchemas() returned nil"%string)
  /\ holes.fill 1%nat plugin.Receiver
       (marshal_start holes.heap (holes.schemaFor 1%nat "hole"))
     = plugin.Panicked "s.fill (volume/hole): found a nil child schema"%string
  /\ holes.fill 2%nat plugin.Receiver
       (marshal_start holes.heap (holes.schemaFor 0%nat "holes"))
     = plugin.Panicked "s.fill (volume/holes): found a nil child schema"%string
  /\ fsplugin.returns
       (holes.fill 2%nat plugin.Receiver
          (marshal_start holes.heap (holes.schemaFor 0%nat "holes"))) = false.
Proof.
  split; [|split; [|split]].
  - destruct (proj1 (fill_rejects_nil_children string string unit
                       fsplugin.Reflect fsplugin.TypeType
                       fsplugin.registrySchemaLabel fsplugin.SprintSchema fsplugin.entries
                       0%nat plugin.Receiver
                       (marshal_start fsplugin.heap (fsplugin.schemaFor 4%nat "broken"))
                       eq_refl) eq_refl)
      as (msg & Hrun & _ & Hmsg).
    exists msg. split; [exact Hrun|].
    apply Hmsg; [reflexivity|].
    intros o [Ho|Ho]; simpl in Ho; [injection Ho as <-; reflexivity | discriminate].
  - apply (proj2 (proj2 (proj2 (proj1 (proj2 (fill_rejects_nil_children string string unit
                       fsplugin.Reflect fsplugin.TypeType
                       fsplugin.registrySchemaLabel fsplugin.SprintSchema holes.entries
                       0%nat plugin.Receiver
                       (marshal_start holes.heap (holes.schemaFor 1%nat "hole"))
                       eq_refl)) [] [] eq_refl)))); [reflexivity | reflexivity |].
    intros o [Ho|Ho]; simpl in Ho; [injection Ho as <-; reflexivity | discriminate].
  - rewrite (proj1 (proj2 (proj2 (proj1 (proj2 (fill_rejects_nil_children string string unit
                       fsplugin.Reflect fsplugin.TypeType
                       fsplugin.registrySchemaLabel fsplugin.SprintSchema holes.entries
                       1%nat plugin.Receiver
                       (marshal_start holes.heap (holes.schemaFor 0%nat "holes"))
                       eq_refl)) [Some 0%nat] [Some 1%nat] eq_refl)))); [reflexivity | reflexivity |].
    intros o [Ho|Ho]; simpl in Ho; [injection Ho as <-; reflexivity | discriminate].
  - pose proof (proj1 (proj1 (proj2 (fill_rejects_nil_children string string unit
                       fsplugin.Reflect fsplugin.TypeType
                       fsplugin.registrySchemaLabel fsplugin.SprintSchema holes.entries
                       1%nat plugin.Receiver
                       (marshal_start holes.heap (holes.schemaFor 0%nat "holes"))
                       eq_refl)) [Some 0%nat] [Some 1%nat] eq_refl)) as Hno.
    destruct (holes.fill 2%nat plugin.Receiver
                (marshal_start holes.heap (holes.schemaFor 0%nat "holes"))) as [st'| |];
      [destruct (Hno st' eq_refl) | reflexivity | reflexivity].
Defined.

(** C6 as stated fails: a group-capable entry whose [ChildSchemas()] returns
    an empty list that is not nil has no children, and [fill] returns. *)
Lemma fill_accepts_empty_children :
  plugin.ChildSchemas (fsplugin.entries 3%nat) = Some []
  /\ plugin.IsListSupported (fsplugin.entries 3%nat) = true
  /\ fsplugin.returns
       (fsplugin.fill 1%nat plugin.Receiver
          (marshal_start fsplugin.heap (fsplugin.schemaFor 3%nat "empty"))) = true
  /\ fsplugin.MarshalJSON 1%nat fsplugin.heap (fsplugin.schemaFor 3%nat "empty")
     = plugin.Done
         [("volume/empty"%string,
           plugin.mkEntrySchema "volume/empty" "empty" false ["list"%string]
             (Some "object"%string) None [])].
Proof. repeat split; reflexivity. Qed.

Lemma fill_lists_children_in_order_witness :
  match fsplugin.fill 3%nat plugin.Receiver
          (marshal_start fsplugin.heap (fsplugin.schemaFor 0%nat "fs")) with
  | plugin.Done st' =>
      plugin.Children (plugin.base (plugin.schemas st' plugin.Receiver))
      = ["volume/dir"; "volume/file"]%string
  | _ => False
  end.
Proof.
  destruct (fsplugin.fill 3%nat plugin.Receiver
              (marshal_start fsplugin.heap (fsplugin.schemaFor 0%nat "fs")))
    as [st'|msg|] eqn:E.
  - destruct (fill_lists_children_in_order string string unit fsplugin.Reflect
                fsplugin.TypeType fsplugin.registrySchemaLabel fsplugin.SprintSchema
                fsplugin.entries 3%nat plugin.Receiver
                (marshal_start fsplugin.heap (fsplugin.schemaFor 0%nat "fs")) st'
                (marshal_start_Inv string string unit fsplugin.heap
                   (fsplugin.schemaFor 0%nat "fs"))
                (fun H : False => H) E) as (_ & _ & _ & Hyes).
    destruct (Hyes eq_refl) as (cs & Hcs & ->).
    destruct cs as [|a [|b [|c cs]]]; try discriminate Hcs.
    injection Hcs as <- <-. reflexivity.
  - vm_compute in E. discriminate E.
  - vm_compute in E. discriminate E.
Defined.

Lemma MarshalJSON_rejects_bad_schema_object_witness :
  fsplugin.MarshalJSON 1%nat fsplugin.heap
    (plugin.SetMetaAttributeSchema (fsplugin.schemaFor 2%nat "file") (Some "string"%string))
  = plugin.Panicked
      "s.fill (volume/file): bad value passed into SetMetaAttributeSchema: expected a JSON object but got string"
  /\ fsplugin.MarshalJSON 1%nat fsplugin.heap
       (plugin.SetMetadataSchema (fsplugin.schemaFor 2%nat "file") (Some "array"%string))
     = plugin.Panicked
         "s.fill (volume/file): bad value passed into SetMetadataSchema: expected a JSON object but got array".
Proof.
  split.
  - apply (proj1 (MarshalJSON_rejects_bad_schema_object string string unit
                    fsplugin.Reflect fsplugin.TypeType fsplugin.registrySchemaLabel
                    fsplugin.SprintSchema fsplugin.entries 0%nat fsplugin.heap
                    (fsplugin.schemaFor 2%nat "file") "string"%string
                    eq_refl eq_refl eq_refl ltac:(discriminate))).
  - apply (proj2 (MarshalJSON_rejects_bad_schema_object string string unit
                    fsplugin.Reflect fsplugin.TypeType fsplugin.registrySchemaLabel
                    fsplugin.SprintSchema fsplugin.entries 0%nat fsplugin.heap
                    (fsplugin.schemaFor 2%nat "file") "array"%string
                    eq_refl eq_refl eq_refl ltac:(discriminate))).
    intros o' [= <-]. reflexivity.
Defined.

Lemma NewEntrySchema_TypeID_witness :
  plugin.TypeID
    (plugin.base (fsplugin.schemaFor 1%nat "dir")) = "volume/dir"%string
  /\ plugin.NewEntrySchema string "object"%string fsplugin.entries 1%nat "dir"
     = Ret (fsplugin.schemaFor 1%nat "dir").
Proof.
  pose proof (NewEntrySchema_TypeID string string unit "object"%string fsplugin.entries
                1%nat "dir"%string 1%nat "volume"%string "dir"%string
                ltac:(discriminate) eq_refl) as H.
  unfold fsplugin.schemaFor. rewrite H. split; reflexivity.
Defined.

(** An external plugin's schema carries its graph and is marshalled as it
    stands. *)
Example MarshalJSON_external :
  let g := [("ext/root"%string,
             plugin.mkEntrySchema "ext/root" "root" true ["list"%string] None None
               ["ext/leaf"%string]);
            ("ext/leaf"%string,
             plugin.mkEntrySchema "ext/leaf" "leaf" false ["read"%string]
               (None : option string) None [])] in
  fsplugin.MarshalJSON 0%nat fsplugin.heap
    {| plugin.base := plugin.mkEntrySchema "ext/root" "root" true ["list"%string] None None [];
       plugin.metaAttributeSchemaObj := None; plugin.metadataSchemaObj := None;
       plugin.entry := 2%nat; plugin.graph := Some g |}
  = plugin.Done g.
Proof. reflexivity. Qed.

Lemma MarshalJSON_children_resolve_witness :
  let e := plugin.mkEntrySchema "volume/dir" "dir" false ["list"%string]
             (Some "object"%string) None ["volume/dir"; "volume/file"]%string in
  plugin.TypeID e = "volume/dir"%string
  /\ incl (plugin.Children e) ["volume/FS"; "volume/dir"; "volume/file"]%string.
Proof.
  intros e.
  apply (MarshalJSON_children_resolve string string unit fsplugin.Reflect
           fsplugin.TypeType fsplugin.registrySchemaLabel fsplugin.SprintSchema
           fsplugin.entries 3%nat fsplugin.heap (fsplugin.schemaFor 0%nat "fs") _
           eq_refl
           (fun n => match n with 0%nat => eq_refl | S _ => eq_refl end)
           eq_refl
           (fun n => match n with 0%nat => eq_refl | S _ => eq_refl end)
           fsplugin_marshal "volume/dir"%string e).
  right. left. reflexivity.
Defined.

Lemma fill_sets_schemas_witness :
  match fsplugin.fill 3%nat plugin.Receiver
          (marshal_start fsplugin.heap (fsplugin.schemaFor 0%nat "fs")) with
  | plugin.Done st' =>
      plugin.MetaAttributeSchema (plugin.base (plugin.schemas st' plugin.Receiver))
      = Some "object"%string
      /\ plugin.MetadataSchema (plugin.base (plugin.schemas st' plugin.Receiver)) = None
  | _ => False
  end.
Proof.
  destruct (fsplugin.fill 3%nat plugin.Receiver
              (marshal_start fsplugin.heap (fsplugin.schemaFor 0%nat "fs")))
    as [st'|msg|] eqn:E.
  - destruct (fill_sets_schemas string string unit fsplugin.Reflect
                fsplugin.TypeType fsplugin.registrySchemaLabel fsplugin.SprintSchema
                fsplugin.entries 3%nat plugin.Receiver
                (marshal_start fsplugin.heap (fsplugin.schemaFor 0%nat "fs")) st'
                (marshal_start_Inv string string unit fsplugin.heap
                   (fsplugin.schemaFor 0%nat "fs"))
                (fun H : False => H) E) as (Hma & Hmd & _).
    split; [exact Hma | exact Hmd].
  - vm_compute in E. discriminate E.
  - vm_compute in E. discriminate E.
Defined.

(** ** The reader of dataflow job messages *)

Lemma length_s2b (s : string) : List.length (s2b s) = String.length s.
Proof. induction s as [|c s IH]; simpl; [reflexivity|]. rewrite IH. reflexivity. Qed.

Lemma length_append (a b : string) :
  String.length (a ++ b)%string = (String.length a + String.length b)%nat.
Proof. induction a as [|c a IH]; simpl; [reflexivity|]. rewrite IH. reflexivity. Qed.

Lemma copy_fits (dst src : bytes) :
  (List.length src <= List.length dst)%nat ->
  gcp.copy dst src = src ++ skipn (List.length src) dst.
Proof.
  intros H. unfold gcp.copy. rewrite firstn_all2 by exact H. reflexivity.
Qed.

(** The line the reader writes for a message. *)
Definition line (msg : gcp.JobMessage) : bytes :=
  s2b (gcp.Time msg ++ " " ++ gcp.MessageImportance msg ++ " " ++ gcp.MessageText msg
         ++ gcp.newline)%string.

(** The lines of a list of messages, in order. *)
Definition text (msgs : list gcp.JobMessage) : bytes := List.concat (map line msgs).

Lemma length_line (msg : gcp.JobMessage) :
  List.length (line msg)
  = (String.length (gcp.Time msg) + String.length (gcp.MessageImportance msg)
     + String.length (gcp.MessageText msg) + 3)%nat.
Proof.
  unfold line. rewrite length_s2b, !length_append. simpl. lia.
Qed.

Lemma text_app (a b : list gcp.JobMessage) : text (a ++ b) = text a ++ text b.
Proof. unfold text. rewrite map_app, concat_app. reflexivity. Qed.

Lemma consume_loop_spec (msgs : list gcp.JobMessage) :
  forall (p : gcp.slice) (n consumed : nat),
  exists taken rest,
    msgs = taken ++ rest
    /\ gcp.consume_loop msgs p n consumed
       = ({| gcp.front := gcp.front p ++ text taken;
             gcp.view := skipn (List.length (text taken)) (gcp.view p) |},
          (n + List.length (text taken))%nat, (consumed + List.length taken)%nat)
    /\ (List.length (text taken) <= List.length (gcp.view p))%nat
    /\ match rest with
       | [] => True
       | m :: _ => (List.length (gcp.view p) - List.length (text taken)
                    < List.length (line m))%nat
       end.
Proof.
  induction msgs as [|msg msgs IH]; intros p n consumed.
  - exists [], []. simpl. rewrite app_nil_r, !Nat.add_0_r. destruct p.
    repeat split; simpl; lia.
  - cbn [gcp.consume_loop]. rewrite <- length_line. fold (line msg).
    destruct (Nat.ltb_spec (List.length (gcp.view p)) (List.length (line msg))) as [Hlt|Hge].
    + exists [], (msg :: msgs). destruct p as [fr vw]. simpl in *.
      rewrite app_nil_r, !Nat.add_0_r. repeat split; lia.
    + rewrite (copy_fits _ _ Hge).
      rewrite firstn_app, Nat.sub_diag, firstn_all, firstn_O, app_nil_r.
      rewrite skipn_app, Nat.sub_diag, skipn_all, skipn_O. simpl app.
      destruct (IH {| gcp.front := gcp.front p ++ line msg;
                      gcp.view := skipn (List.length (line msg)) (gcp.view p) |}
                   (n + List.length (line msg))%nat (consumed + 1)%nat)
        as (taken & rest & -> & Hrun & Hfit & Hnext).
      exists (msg :: taken), rest. simpl gcp.front in *. simpl gcp.view in *.
      rewrite length_skipn in Hfit, Hnext.
      assert (Ht : text (msg :: taken) = line msg ++ text taken) by reflexivity.
      rewrite Ht, length_app. split; [reflexivity|]. split; [|split].
      * rewrite Hrun. rewrite skipn_skipn, <- app_assoc. simpl List.length.
        replace (List.length (text taken) + List.length (line msg))%nat
          with (List.length (line msg) + List.length (text taken))%nat by lia.
        replace (n + List.length (line msg) + List.length (text taken))%nat
          with (n + (List.length (line msg) + List.length (text taken)))%nat by lia.
        replace (consumed + 1 + List.length taken)%nat
          with (consumed + S (List.length taken))%nat by lia.
        reflexivity.
      * lia.
      * destruct rest; [exact I | lia].
Qed.

Lemma consume_spec (rdr : gcp.dataflowReader) (p : gcp.slice) :
  exists taken rest,
    gcp.overflow rdr = taken ++ rest
    /\ gcp.consume rdr p
       = ({| gcp.pageToken := gcp.pageToken rdr; gcp.overflow := rest;
             gcp.eof := gcp.eof rdr |},
          {| gcp.front := gcp.front p ++ text taken;
             gcp.view := skipn (List.length (text taken)) (gcp.view p) |},
          List.length (text taken))
    /\ (List.length (text taken) <= List.length (gcp.view p))%nat
    /\ match rest with
       | [] => True
       | m :: _ => (List.length (gcp.view p) - List.length (text taken)
                    < List.length (line m))%nat
       end.
Proof.
  destruct (consume_loop_spec (gcp.overflow rdr) p 0 0) as (taken & rest & E & Hrun & Hfit & Hn).
  exists taken, rest. split; [exact E|]. split; [|split; assumption].
  unfold gcp.consume. rewrite Hrun. simpl. rewrite E.
  rewrite skipn_app, Nat.sub_diag, skipn_all, skipn_O. reflexivity.
Qed.

Section ReadFacts.

Variable Do : string -> gcp.ListJobMessagesResponse + string.

(** The pages the API serves from a token on, up to the page without a next
    page token. *)
Inductive serves : string -> list gcp.ListJobMessagesResponse -> Prop :=
| serves_last tok resp :
    Do tok = inl resp -> gcp.NextPageToken resp = ""%string -> serves tok [resp]
| serves_more tok resp rest :
    Do tok = inl resp -> gcp.NextPageToken resp <> ""%string ->
    serves (gcp.NextPageToken resp) rest -> serves tok (resp :: rest).

(** The pages a reader has still to fetch. *)
Definition Pending (rdr : gcp.dataflowReader) (pages : list gcp.ListJobMessagesResponse)
  : Prop :=
  if gcp.eof rdr then pages = [] else serves (gcp.pageToken rdr) pages.

(** What a reader has still to emit: its overflow, then the messages of the
    pages to fetch. *)
Definition unread (rdr : gcp.dataflowReader) (pages : list gcp.ListJobMessagesResponse)
  : list gcp.JobMessage :=
  gcp.overflow rdr ++ flat_map gcp.JobMessages pages.

Definition emits (p p' : gcp.slice) (n n' : nat) (out : bytes) : Prop :=
  gcp.front p' = gcp.front p ++ out
  /\ gcp.view p' = skipn (List.length out) (gcp.view p)
  /\ n' = (n + List.length out)%nat
  /\ (List.length out <= List.length (gcp.view p))%nat.

Lemma read_pages_spec (fuel : nat) :
  forall rdr p n pages,
    gcp.eof rdr = false -> gcp.overflow rdr = [] -> serves (gcp.pageToken rdr) pages ->
    match gcp.read_pages Do fuel rdr p n with
    | None => (fuel < List.length pages)%nat
    | Some (rdr', p', n', err) =>
        err = None
        /\ exists emitted pages',
            Pending rdr' pages'
            /\ flat_map gcp.JobMessages pages = emitted ++ unread rdr' pages'
            /\ emits p p' n n' (text emitted)
    end.
Proof.
  induction fuel as [|fuel IH]; intros rdr p n pages Heof Hov Hserves.
  - simpl. destruct Hserves; simpl; lia.
  - cbn [gcp.read_pages].
    destruct (consume_spec
                {| gcp.pageToken := gcp.pageToken rdr;
                   gcp.overflow := gcp.JobMessages
                                     (match pages with r :: _ => r
                                      | [] => gcp.mkResponse [] "" end);
                   gcp.eof := gcp.eof rdr |} p)
      as (taken & rest & Esplit & Hrun & Hfit & _).
    simpl in Esplit, Hrun.
    inversion Hserves as [tok resp HDo Hlast | tok resp more HDo Hmore Hrest]; subst;
      rewrite HDo; simpl in Esplit, Hrun; rewrite Hrun; cbn [gcp.overflow gcp.eof gcp.pageToken].
    + rewrite Hlast. simpl String.eqb. cbv iota. cbn [gcp.overflow gcp.eof gcp.pageToken].
      rewrite orb_true_r. split; [reflexivity|].
      exists taken, []. split; [reflexivity|]. split.
      * unfold unread. simpl. rewrite !app_nil_r. exact Esplit.
      * repeat split; simpl; lia || reflexivity.
    + destruct (String.eqb_spec (gcp.NextPageToken resp) ""); [contradiction|].
      cbn [gcp.overflow gcp.eof gcp.pageToken]. rewrite Heof, orb_false_r.
      destruct rest as [|m rest].
      * simpl Nat.ltb. cbv iota.
        specialize (IH {| gcp.pageToken := gcp.NextPageToken resp; gcp.overflow := [];
                          gcp.eof := false |}
                       {| gcp.front := gcp.front p ++ text taken;
                          gcp.view := skipn (List.length (text taken)) (gcp.view p) |}
                       (n + List.length (text taken))%nat more eq_refl eq_refl Hrest).
        destruct (gcp.read_pages Do fuel _ _ _) as [[[[rdr' p'] n'] err]|].
        -- destruct IH as (-> & out & pages' & HP & Htext & Hf & Hv & Hn & Hle).
           split; [reflexivity|]. exists (taken ++ out), pages'.
           split; [exact HP|]. split.
           ++ simpl flat_map. rewrite Esplit, app_nil_r, Htext, app_assoc.
              reflexivity.
           ++ simpl in Hf, Hv, Hle. rewrite length_skipn in Hle.
              rewrite text_app.
              repeat split.
              ** rewrite Hf, app_assoc. reflexivity.
              ** rewrite Hv, skipn_skipn, length_app. f_equal. lia.
              ** rewrite Hn, length_app. lia.
              ** rewrite length_app. lia.
        -- simpl. lia.
      * simpl Nat.ltb. cbv iota. split; [reflexivity|].
        exists taken, more. split; [exact Hrest|]. split.
        -- unfold unread. simpl gcp.overflow. simpl flat_map.
           rewrite Esplit, <- !app_assoc. reflexivity.
        -- repeat split; simpl; lia || reflexivity.
Qed.

Lemma Pending_consumed (rdr : gcp.dataflowReader) (rest : list gcp.JobMessage)
      (pages : list gcp.ListJobMessagesResponse) :
  Pending rdr pages ->
  Pending {| gcp.pageToken := gcp.pageToken rdr; gcp.overflow := rest;
             gcp.eof := gcp.eof rdr |} pages.
Proof. unfold Pending. simpl. auto. Qed.

(** What one [Read] did, given what it returned: the messages [emitted] are
    the head of what was unread, the rest stays unread; the buffer holds their
    lines, then what it held before; [n] counts the bytes of the lines; and
    [io.EOF] comes only when nothing stays unread. *)
Definition read_result (rdr : gcp.dataflowReader) (p : bytes)
           (pages : list gcp.ListJobMessagesResponse)
           (rdr' : gcp.dataflowReader) (buf : bytes) (n : nat) (err : option gcp.readError)
  : Prop :=
  exists emitted pages',
    Pending rdr' pages'
    /\ unread rdr pages = emitted ++ unread rdr' pages'
    /\ buf = text emitted ++ skipn n p
    /\ n = List.length (text emitted)
    /\ (n <= List.length p)%nat
    /\ (err = None \/ (err = Some gcp.EOF /\ unread rdr' pages' = [])).

Lemma Read_spec (fuel : nat) (rdr : gcp.dataflowReader) (p : bytes)
      (pages : list gcp.ListJobMessagesResponse) :
  Pending rdr pages ->
  match gcp.Read Do fuel rdr p with
  | None => (fuel < List.length pages)%nat
  | Some (rdr', buf, n, err) => read_result rdr p pages rdr' buf n err
  end.
Proof.
  intros HP. unfold gcp.Read, read_result.
  destruct (consume_spec rdr {| gcp.front := []; gcp.view := p |})
    as (taken & rest & Esplit & Hrun & Hfit & _).
  simpl in Hrun, Hfit.
  pose proof (Pending_consumed rdr rest pages HP) as HP1.
  assert (Hun : unread rdr pages
                = taken
                    ++ unread {| gcp.pageToken := gcp.pageToken rdr; gcp.overflow := rest;
                                 gcp.eof := gcp.eof rdr |} pages).
  { unfold unread. simpl. rewrite Esplit, app_assoc. reflexivity. }
  destruct (gcp.overflow rdr) as [|m ms] eqn:Eov.
  - (* nothing left over *)
    clear Hrun Hun HP1 Hfit Esplit taken rest.
    cbn [List.length Nat.ltb Nat.leb]. cbv beta iota zeta.
    destruct (gcp.eof rdr) eqn:Eeof.
    + exists [], []. unfold Pending in HP. rewrite Eeof in HP. subst pages.
      unfold Pending, unread. rewrite Eeof, Eov. simpl.
      repeat split; try lia. right. split; reflexivity.
    + unfold Pending in HP. rewrite Eeof in HP.
      pose proof (read_pages_spec fuel rdr {| gcp.front := []; gcp.view := p |} 0%nat
                    pages Eeof Eov HP) as Hpages.
      destruct (gcp.read_pages Do fuel rdr _ 0%nat) as [[[[rdr' p'] n'] err]|]; [|exact Hpages].
      destruct Hpages as (-> & out & pages' & HP' & Htext & Hf & Hv & Hn & Hle).
      simpl in Hf, Hv, Hn, Hle.
      exists out, pages'. split; [exact HP'|]. split.
      * unfold unread at 1. rewrite Eov. simpl. exact Htext.
      * rewrite Hf, Hv, Hn. repeat split; try lia. left. reflexivity.
  - (* data left over from an earlier call *)
    cbn [List.length Nat.ltb Nat.leb]. cbv beta iota zeta. rewrite Hrun.
    cbv beta iota zeta. cbn [gcp.overflow].
    destruct rest as [|r rest]; cbn [List.length Nat.ltb Nat.leb]; cbv beta iota zeta.
    + cbn [gcp.eof].
      destruct (gcp.eof rdr) eqn:Eeof.
      * exists taken, pages. split; [exact HP1|]. split; [exact Hun|].
        simpl. repeat split; try lia. right. split; [reflexivity|].
        unfold Pending in HP. rewrite Eeof in HP. subst pages. reflexivity.
      * unfold Pending in HP. rewrite Eeof in HP.
        pose proof (read_pages_spec fuel
                      {| gcp.pageToken := gcp.pageToken rdr; gcp.overflow := [];
                         gcp.eof := false |}
                      {| gcp.front := [] ++ text taken;
                         gcp.view := skipn (List.length (text taken)) p |}
                      (0 + List.length (text taken))%nat pages eq_refl eq_refl HP) as Hpages.
        destruct (gcp.read_pages Do fuel _ _ _) as [[[[rdr' p'] n'] err]|]; [|exact Hpages].
        destruct Hpages as (-> & out & pages' & HP' & Htext & Hf & Hv & Hn & Hle).
        simpl in Hf, Hv, Hn, Hle. rewrite length_skipn in Hle.
        exists (taken ++ out), pages'. split; [exact HP'|]. split.
        -- rewrite Hun. unfold unread at 1. simpl. rewrite Htext, app_assoc. reflexivity.
        -- rewrite Hf, Hv, Hn, skipn_skipn, text_app, length_app.
           replace (List.length (text out) + List.length (text taken))%nat
             with (List.length (text taken) + List.length (text out))%nat by lia.
           repeat split; try lia. left. reflexivity.
    + exists taken, pages. split; [exact HP1|]. split; [exact Hun|].
      simpl. repeat split; try lia. left. reflexivity.
Qed.

Lemma Read_at_eof (fuel : nat) (rdr : gcp.dataflowReader) (p : bytes) :
  gcp.eof rdr = true -> gcp.overflow rdr = [] ->
  gcp.Read Do fuel rdr p = Some (rdr, p, 0%nat, Some gcp.EOF).
Proof.
  intros Heof Hov. unfold gcp.Read. rewrite Hov. simpl. rewrite Heof. reflexivity.
Qed.

Lemma consume_blocked (rdr : gcp.dataflowReader) (p : gcp.slice)
      (m : gcp.JobMessage) (ms : list gcp.JobMessage) :
  gcp.overflow rdr = m :: ms -> (List.length (gcp.view p) < List.length (line m))%nat ->
  gcp.consume rdr p = (rdr, p, 0%nat).
Proof.
  intros Hov Hlong. unfold gcp.consume. rewrite Hov. cbn [gcp.consume_loop].
  rewrite <- length_line.
  destruct (Nat.ltb_spec (List.length (gcp.view p)) (List.length (line m))) as [_|Hge]; [|lia].
  simpl. destruct rdr as [tok ov e]. simpl in Hov. subst ov. reflexivity.
Qed.

(** A run of [Read] calls, with any buffers: the bytes written by the calls,
    one after the other, and the reader after the last. *)
Inductive reads : gcp.dataflowReader -> bytes -> gcp.dataflowReader -> Prop :=
| reads_none rdr : reads rdr [] rdr
| reads_more fuel rdr p rdr1 buf n err out rdr2 :
    gcp.Read Do fuel rdr p = Some (rdr1, buf, n, err) ->
    reads rdr1 out rdr2 ->
    reads rdr (firstn n buf ++ out) rdr2.

Lemma read_result_written rdr p pages rdr' buf n err :
  read_result rdr p pages rdr' buf n err ->
  exists emitted pages',
    Pending rdr' pages' /\ unread rdr pages = emitted ++ unread rdr' pages'
    /\ firstn n buf = text emitted
    /\ (err = Some gcp.EOF -> unread rdr' pages' = []).
Proof.
  intros (emitted & pages' & HP & Hun & Hbuf & Hn & _ & Herr).
  exists emitted, pages'. split; [exact HP|]. split; [exact Hun|]. split.
  - rewrite Hbuf, Hn, firstn_app, Nat.sub_diag, firstn_all, firstn_O, app_nil_r. reflexivity.
  - intros E. destruct Herr as [->|[_ H]]; [discriminate | exact H].
Qed.

Lemma reads_spec (rdr : gcp.dataflowReader) (out : bytes) (rdr' : gcp.dataflowReader) :
  reads rdr out rdr' ->
  forall pages, Pending rdr pages ->
    exists emitted pages',
      Pending rdr' pages' /\ unread rdr pages = emitted ++ unread rdr' pages'
      /\ out = text emitted.
Proof.
  induction 1 as [rdr | fuel rdr p rdr1 buf n err out rdr2 HRead Hrest IH]; intros pages HP.
  - exists [], pages. repeat split; auto.
  - pose proof (Read_spec fuel rdr p pages HP) as Hspec. rewrite HRead in Hspec.
    apply read_result_written in Hspec as (e1 & pages1 & HP1 & Hun1 & Hw & _).
    destruct (IH pages1 HP1) as (e2 & pages2 & HP2 & Hun2 & Hout).
    exists (e1 ++ e2), pages2. split; [exact HP2|]. split.
    + rewrite Hun1, Hun2, app_assoc. reflexivity.
    + rewrite Hw, Hout, text_app. reflexivity.
Qed.

(** [consume] writes the lines of the longest run of messages at the head of
    the overflow that fits the buffer, in order, keeps the others, and stops
    at the first message that does not fit even if a later one would. *)
Theorem consume_writes_fitting_prefix (rdr : gcp.dataflowReader) (p : gcp.slice) :
  exists taken rest,
    gcp.overflow rdr = taken ++ rest
    /\ gcp.consume rdr p
       = ({| gcp.pageToken := gcp.pageToken rdr; gcp.overflow := rest;
             gcp.eof := gcp.eof rdr |},
          {| gcp.front := gcp.front p ++ text taken;
             gcp.view := skipn (List.length (text taken)) (gcp.view p) |},
          List.length (text taken))
    /\ (List.length (text taken) <= List.length (gcp.view p))%nat
    /\ match rest with
       | [] => True
       | m :: _ => (List.length (gcp.view p) - List.length (text taken)
                    < List.length (line m))%nat
       end.
Proof. apply consume_spec. Qed.

(** With fuel for the pages still to fetch, [Read] returns; the messages it
    emits are the head of the unread ones, each as one whole line, and stay
    unread no longer; it writes [n] bytes, never more than the buffer holds,
    and leaves the rest of the buffer alone; it returns no error but
    [io.EOF], and that only when nothing stays unread. *)
Theorem Read_emits_unread_prefix (fuel : nat) (rdr : gcp.dataflowReader) (p : bytes)
        (pages : list gcp.ListJobMessagesResponse) :
  Pending rdr pages -> (List.length pages <= fuel)%nat ->
  exists rdr' buf n err emitted pages',
    gcp.Read Do fuel rdr p = Some (rdr', buf, n, err)
    /\ Pending rdr' pages'
    /\ unread rdr pages = emitted ++ unread rdr' pages'
    /\ buf = text emitted ++ skipn n p
    /\ n = List.length (text emitted)
    /\ (n <= List.length p)%nat
    /\ (err = None \/ (err = Some gcp.EOF /\ unread rdr' pages' = [])).
Proof.
  intros HP Hfuel. pose proof (Read_spec fuel rdr p pages HP) as Hspec.
  destruct (gcp.Read Do fuel rdr p) as [[[[rdr' buf] n] err]|]; [|lia].
  destruct Hspec as (emitted & pages' & H).
  exists rdr', buf, n, err, emitted, pages'. split; [reflexivity | exact H].
Qed.

(** Over any run of [Read] calls, whatever the buffers, the bytes written are
    the lines of a head of the unread messages, in the order of the overflow
    and the pages, and the other messages are still unread: no message is
    lost, repeated or reordered.  When the next [Read] returns [io.EOF], all
    of them have been written. *)
Theorem reads_emit_each_message_once (rdr : gcp.dataflowReader) (out : bytes)
        (rdr' : gcp.dataflowReader) (pages : list gcp.ListJobMessagesResponse) :
  Pending rdr pages -> reads rdr out rdr' ->
  (exists emitted pages',
      Pending rdr' pages'
      /\ unread rdr pages = emitted ++ unread rdr' pages'
      /\ out = text emitted)
  /\ (forall fuel p rdr'' buf n,
         gcp.Read Do fuel rdr' p = Some (rdr'', buf, n, Some gcp.EOF) ->
         out ++ firstn n buf = text (unread rdr pages)).
Proof.
  intros HP Hreads.
  destruct (reads_spec rdr out rdr' Hreads pages HP) as (emitted & pages' & HP' & Hun & Hout).
  split; [exists emitted, pages'; auto|].
  intros fuel p rdr'' buf n HRead.
  pose proof (Read_spec fuel rdr' p pages' HP') as Hspec. rewrite HRead in Hspec.
  apply read_result_written in Hspec as (e1 & pages1 & _ & Hun1 & Hw & Hend).
  rewrite Hun, Hun1, (Hend eq_refl), app_nil_r, text_app, Hout, Hw. reflexivity.
Qed.

(** Once the last page is drained (the end is marked and nothing is left
    over), every [Read] returns [(0, io.EOF)] and changes neither the reader
    nor the buffer, and so does every run of [Read] calls. *)
Theorem Read_after_eof (rdr : gcp.dataflowReader) :
  gcp.eof rdr = true -> gcp.overflow rdr = [] ->
  (forall fuel p, gcp.Read Do fuel rdr p = Some (rdr, p, 0%nat, Some gcp.EOF))
  /\ (forall out rdr', reads rdr out rdr' -> out = [] /\ rdr' = rdr).
Proof.
  intros Heof Hov. split.
  - intros fuel p. apply Read_at_eof; assumption.
  - intros out rdr' Hreads. induction Hreads as [rdr | fuel rdr p rdr1 buf n err out rdr2 HR _ IH].
    + split; reflexivity.
    + rewrite (Read_at_eof fuel rdr p Heof Hov) in HR. injection HR as <- <- <- <-.
      destruct (IH Heof Hov) as [-> ->]. split; reflexivity.
Qed.

(** When the first message left over is longer than the buffer, [Read]
    returns [(0, nil)] and changes neither the reader nor the buffer, whatever
    messages stand behind it. *)
Theorem Read_message_longer_than_buffer (fuel : nat) (rdr : gcp.dataflowReader) (p : bytes)
        (m : gcp.JobMessage) (ms : list gcp.JobMessage) :
  gcp.overflow rdr = m :: ms -> (List.length p < List.length (line m))%nat ->
  gcp.Read Do fuel rdr p = Some (rdr, p, 0%nat, None).
Proof.
  intros Hov Hlong. unfold gcp.Read.
  rewrite (consume_blocked rdr {| gcp.front := []; gcp.view := p |} m ms Hov Hlong).
  rewrite Hov. reflexivity.
Qed.

(** When the API call fails and nothing is left over, [Read] returns the
    error with [n = 0] and leaves the reader as it was: the page token is not
    advanced, so the next [Read] asks for the same page. *)
Theorem Read_failed_call_keeps_page (fuel : nat) (rdr : gcp.dataflowReader) (p : bytes)
        (e : string) :
  gcp.eof rdr = false -> gcp.overflow rdr = [] -> Do (gcp.pageToken rdr) = inr e ->
  gcp.Read Do (S fuel) rdr p = Some (rdr, p, 0%nat, Some (gcp.ApiError e)).
Proof.
  intros Heof Hov HDo. unfold gcp.Read. rewrite Hov. simpl. rewrite Heof, HDo. reflexivity.
Qed.

(** *** The contract of the reader *)








End ReadFacts.

Arguments serves Do tok pages.
Arguments reads Do rdr out rdr'.

(** *** A job with two pages of messages *)

Module job.

Local Open Scope string_scope.

Definition m1 : gcp.JobMessage := gcp.mkJobMessage "09:00" "INFO" "start".
Definition m2 : gcp.JobMessage := gcp.mkJobMessage "09:01" "WARN" "slow".
Definition m3 : gcp.JobMessage := gcp.mkJobMessage "09:02" "INFO" "done".

Definition page1 : gcp.ListJobMessagesResponse := gcp.mkResponse [m1; m2] "p2".
Definition page2 : gcp.ListJobMessagesResponse := gcp.mkResponse [m3] "".

Definition Do (tok : string) : gcp.ListJobMessagesResponse + string :=
  if String.eqb tok "" then inl page1
  else if String.eqb tok "p2" then inl page2
  else inr "invalid page token".

Definition buffer (n : nat) : bytes := repeat "."%char n.


End job.

Example Read_two_pages :
  let r1 := {| gcp.pageToken := "p2"; gcp.overflow := [job.m2]; gcp.eof := false |} in
  let r2 := {| gcp.pageToken := ""; gcp.overflow := [job.m3]; gcp.eof := true |} in
  let r3 := {| gcp.pageToken := ""; gcp.overflow := []; gcp.eof := true |} in
  gcp.Read job.Do 2 gcp.readLog (job.buffer 20)
  = Some (r1, s2b ("09:00 INFO start" ++ gcp.newline ++ "...")%string, 17%nat, None)
  /\ gcp.Read job.Do 2 r1 (job.buffer 20)
     = Some (r2, s2b ("09:01 WARN slow" ++ gcp.newline ++ "....")%string, 16%nat, None)
  /\ gcp.Read job.Do 2 r2 (job.buffer 20)
     = Some (r3, s2b ("09:02 INFO done" ++ gcp.newline ++ "....")%string, 16%nat,
             Some gcp.EOF)
  /\ gcp.Read job.Do 2 r3 (job.buffer 20)
     = Some (r3, job.buffer 20, 0%nat, Some gcp.EOF).
Proof. repeat split; reflexivity. Qed.

Lemma Read_emits_unread_prefix_witness :
  exists rdr' buf n err emitted pages',
    gcp.Read job.Do 2 gcp.readLog (job.buffer 20) = Some (rdr', buf, n, err)
    /\ Pending job.Do rdr' pages'
    /\ unread gcp.readLog [job.page1; job.page2] = emitted ++ unread rdr' pages'
    /\ buf = text emitted ++ skipn n (job.buffer 20)
    /\ n = List.length (text emitted)
    /\ (n <= List.length (job.buffer 20))%nat
    /\ (err = None \/ (err = Some gcp.EOF /\ unread rdr' pages' = [])).
Proof.
  apply (Read_emits_unread_prefix job.Do 2 gcp.readLog (job.buffer 20)
           [job.page1; job.page2]).
  - apply serves_more; [reflexivity | discriminate |].
    apply serves_last; reflexivity.
  - simpl. lia.
Defined.

Lemma reads_emit_each_message_once_witness :
  let r1 := {| gcp.pageToken := "p2"; gcp.overflow := [job.m2]; gcp.eof := false |} in
  let r2 := {| gcp.pageToken := ""; gcp.overflow := [job.m3]; gcp.eof := true |} in
  let out := firstn 17 (s2b ("09:00 INFO start" ++ gcp.newline ++ "...")%string)
             ++ firstn 16 (s2b ("09:01 WARN slow" ++ gcp.newline ++ "....")%string)
             ++ [] in
  (exists emitted pages',
      Pending job.Do r2 pages'
      /\ unread gcp.readLog [job.page1; job.page2] = emitted ++ unread r2 pages'
      /\ out = text emitted)
  /\ (forall fuel p rdr'' buf n,
         gcp.Read job.Do fuel r2 p = Some (rdr'', buf, n, Some gcp.EOF) ->
         out ++ firstn n buf = text (unread gcp.readLog [job.page1; job.page2])).
Proof.
  intros r1 r2 out.
  apply (reads_emit_each_message_once job.Do gcp.readLog out r2 [job.page1; job.page2]).
  - apply serves_more; [reflexivity | discriminate |].
    apply serves_last; reflexivity.
  - apply (reads_more job.Do 2 gcp.readLog (job.buffer 20) r1 _ 17 None); [reflexivity|].
    apply (reads_more job.Do 2 r1 (job.buffer 20) r2 _ 16 None); [reflexivity|].
    apply reads_none.
Defined.

Lemma Read_after_eof_witness :
  let r3 := {| gcp.pageToken := ""; gcp.overflow := []; gcp.eof := true |} in
  (forall fuel p, gcp.Read job.Do fuel r3 p = Some (r3, p, 0%nat, Some gcp.EOF))
  /\ (forall out rdr', reads job.Do r3 out rdr' -> out = [] /\ rdr' = r3).
Proof.
  intros r3. apply (Read_after_eof job.Do r3); reflexivity.
Defined.

Lemma Read_message_longer_than_buffer_witness :
  let r := {| gcp.pageToken := "p2"; gcp.overflow := [job.m2; job.m3]; gcp.eof := false |} in
  gcp.Read job.Do 2 r (job.buffer 10) = Some (r, job.buffer 10, 0%nat, None).
Proof.
  intros r.
  apply (Read_message_longer_than_buffer job.Do 2 r (job.buffer 10) job.m2 [job.m3]).
  - reflexivity.
  - simpl. lia.
Defined.

Lemma Read_failed_call_keeps_page_witness :
  let r := {| gcp.pageToken := "p9"; gcp.overflow := []; gcp.eof := false |} in
  gcp.Read job.Do 1 r (job.buffer 20)
  = Some (r, job.buffer 20, 0%nat, Some (gcp.ApiError "invalid page token")).
Proof.
  intros r.
  apply (Read_failed_call_keeps_page job.Do 0 r (job.buffer 20) "invalid page token");
    reflexivity.
Defined.


(** ** Job identifiers of package [gcp] *)

Section JobFacts.

Local Open Scope string_scope.

(** A text without the separator. *)
Fixpoint plain (s : string) : bool :=
  match s with
  | EmptyString => true
  | String.String c rest => negb (Ascii.eqb c "/") && plain rest
  end.

(** The number of separators in a text. *)
Fixpoint slashes (s : string) : nat :=
  match s with
  | EmptyString => 0
  | String.String c rest => ((if Ascii.eqb c "/" then 1 else 0) + slashes rest)%nat
  end.

Lemma Split_length (s : string) :
  List.length (gcp.Split s "/") = S (slashes s).
Proof.
  induction s as [|c rest IH]; [reflexivity|].
  simpl. destruct (Ascii.eqb c "/"); simpl; [congruence|].
  destruct (gcp.Split rest "/") as [|piece pieces]; simpl in *; congruence.
Qed.

Lemma Split_plain (s : string) : plain s = true -> gcp.Split s "/" = [s].
Proof.
  induction s as [|c rest IH]; [reflexivity|].
  simpl. destruct (Ascii.eqb c "/"); [discriminate|]. simpl.
  intros H. rewrite (IH H). reflexivity.
Qed.

Lemma Split_app (a b : string) :
  plain a = true -> gcp.Split (a ++ String.String "/" b) "/" = a :: gcp.Split b "/".
Proof.
  induction a as [|c rest IH]; [reflexivity|].
  simpl. destruct (Ascii.eqb c "/"); [discriminate|]. simpl.
  intros H. rewrite (IH H). reflexivity.
Qed.

Lemma Split_pieces (s : string) : Forall (fun t => plain t = true) (gcp.Split s "/").
Proof.
  induction s as [|c rest IH]; [repeat constructor|].
  simpl. destruct (Ascii.eqb c "/") eqn:E.
  - constructor; [reflexivity | exact IH].
  - destruct (gcp.Split rest "/") as [|piece pieces];
      [repeat constructor; simpl; rewrite E; reflexivity|].
    inversion IH as [|? ? Hp Hps]; subst. constructor; [|exact Hps].
    simpl. rewrite E, Hp. reflexivity.
Qed.

Lemma Split_nonempty (s : string) : gcp.Split s "/" <> [].
Proof.
  intros H. pose proof (Split_length s) as HL. rewrite H in HL. discriminate.
Qed.

Lemma Split_single (s b : string) : gcp.Split s "/" = [b] -> s = b.
Proof.
  revert b. induction s as [|c rest IH]; intros b; simpl.
  - congruence.
  - destruct (Ascii.eqb c "/").
    + intros [= _ H]. destruct (Split_nonempty _ H).
    + destruct (gcp.Split rest "/") as [|piece pieces] eqn:ES;
        [destruct (Split_nonempty _ ES)|].
      intros [= <- ->]. f_equal. apply IH. reflexivity.
Qed.

Lemma Split_join (s : string) (a b : string) :
  gcp.Split s "/" = [a; b] -> s = a ++ String.String "/" b.
Proof.
  revert a. induction s as [|c rest IH]; intros a; simpl; [discriminate|].
  destruct (Ascii.eqb c "/") eqn:E.
  - intros [= <- Hb]. apply Ascii.eqb_eq in E. subst c. simpl. f_equal.
    apply Split_single, Hb.
  - destruct (gcp.Split rest "/") as [|piece pieces] eqn:ES; [discriminate|].
    intros [= <- ->]. simpl. f_equal. apply IH. reflexivity.
Qed.

Lemma plain_slashes (s : string) : plain s = true <-> slashes s = 0%nat.
Proof.
  induction s as [|c rest IH]; simpl; [tauto|].
  destruct (Ascii.eqb c "/"); simpl; [split; discriminate | exact IH].
Qed.

Lemma slashes_app (a b : string) : slashes (a ++ b) = (slashes a + slashes b)%nat.
Proof. induction a as [|c rest IH]; simpl; [reflexivity | rewrite IH; lia]. Qed.

Lemma splitDataflowID_panics (id : string) :
  slashes id <> 1%nat ->
  gcp.splitDataflowID id = Panic "newDataflowJob given an invalid name/id pair".
Proof.
  intros H. unfold gcp.splitDataflowID. rewrite Split_length.
  destruct (S (slashes id) =? 2)%nat eqn:E; [|reflexivity].
  apply Nat.eqb_eq in E. lia.
Qed.

(** [splitDataflowID] returns exactly on the texts with one separator, and
    then the text before it and the text after it; on any other text it
    panics. *)
Theorem splitDataflowID_one_separator (id : string) :
  (slashes id = 1%nat ->
   exists name jobID,
     gcp.splitDataflowID id = Ret (name, jobID)
     /\ id = name ++ "/" ++ jobID /\ plain name = true /\ plain jobID = true)
  /\ (slashes id <> 1%nat ->
      gcp.splitDataflowID id = Panic "newDataflowJob given an invalid name/id pair").
Proof.
  split; [|apply splitDataflowID_panics].
  unfold gcp.splitDataflowID. pose proof (Split_length id) as HL. intros H.
  - rewrite HL, H. simpl.
    destruct (gcp.Split id "/") as [|a [|b [|c l]]] eqn:ES; simpl in HL; try lia.
    exists a, b. split; [reflexivity|]. split; [apply Split_join, ES|].
    pose proof (Split_pieces id) as HP. rewrite ES in HP.
    inversion HP as [|? ? Ha HP']; subst. inversion HP' as [|? ? Hb _]; subst. auto.
Qed.

(** Whether a job's name and id hold no separator. *)
Definition wellFormed (job : gcp.Job) : bool :=
  plain (gcp.Name job) && plain (gcp.Id job).

Lemma splitDataflowID_wellFormed (job : gcp.Job) :
  wellFormed job = true ->
  gcp.splitDataflowID (gcp.Name job ++ "/" ++ gcp.Id job) = Ret (gcp.Name job, gcp.Id job).
Proof.
  unfold wellFormed. intros H. apply andb_prop in H as [Hn Hi].
  unfold gcp.splitDataflowID.
  change (gcp.Name job ++ "/" ++ gcp.Id job)
    with (gcp.Name job ++ String.String "/" (gcp.Id job)).
  rewrite (Split_app _ _ Hn), (Split_plain _ Hi). reflexivity.
Qed.

(** The strings [cachedDataflowJobs] builds are read back by
    [splitDataflowID] when neither the name nor the id of a job holds a
    separator; a separator in either makes it panic. *)
Theorem splitDataflowID_jobStrings (jobs : list gcp.Job) :
  (forallb wellFormed jobs = true ->
   map gcp.splitDataflowID (gcp.jobStrings jobs)
   = map (fun job => Ret (gcp.Name job, gcp.Id job)) jobs)
  /\ (forall job, In job jobs -> wellFormed job = false ->
        gcp.splitDataflowID (gcp.Name job ++ "/" ++ gcp.Id job)
        = Panic "newDataflowJob given an invalid name/id pair"
        /\ In (gcp.Name job ++ "/" ++ gcp.Id job) (gcp.jobStrings jobs)).
Proof.
  split.
  - unfold gcp.jobStrings.
    induction jobs as [|job jobs IH]; [reflexivity|]. cbn [map forallb].
    intros H. apply andb_prop in H as [Hj Hjs].
    rewrite (splitDataflowID_wellFormed _ Hj), (IH Hjs). reflexivity.
  - intros job Hin Hbad. split.
    + apply splitDataflowID_panics. rewrite slashes_app. simpl.
      unfold wellFormed in Hbad. apply andb_false_iff in Hbad.
      assert (slashes (gcp.Name job) <> 0 \/ slashes (gcp.Id job) <> 0)%nat as H'.
      { destruct Hbad as [H|H]; [left|right]; intros E; apply plain_slashes in E;
          congruence. }
      lia.
    + unfold gcp.jobStrings.
      apply (in_map (fun job => gcp.Name job ++ "/" ++ gcp.Id job)), Hin.
Qed.

(** *** The order of strings *)

Lemma ascii_compare_eq (a b : ascii) : Ascii.compare a b = Eq -> a = b.
Proof.
  unfold Ascii.compare. intros H. apply N.compare_eq in H.
  rewrite <- (ascii_N_embedding a), <- (ascii_N_embedding b). congruence.
Qed.

Lemma compare_lt_trans (a b c : string) :
  String.compare a b = Lt -> String.compare b c = Lt -> String.compare a c = Lt.
Proof.
  revert b c. induction a as [|x a IH]; intros [|y b] [|z c]; simpl; try congruence.
  destruct (Ascii.compare x y) eqn:Exy; try discriminate.
  - apply ascii_compare_eq in Exy. subst y.
    destruct (Ascii.compare x z); try congruence. apply IH.
  - intros _. destruct (Ascii.compare y z) eqn:Eyz; try discriminate.
    + apply ascii_compare_eq in Eyz. subst z. rewrite Exy. reflexivity.
    + intros _. unfold Ascii.compare in *.
      rewrite N.compare_lt_iff in Exy, Eyz.
      assert (N_of_ascii x < N_of_ascii z)%N as H by lia.
      apply N.compare_lt_iff in H. rewrite H. reflexivity.
Qed.

Lemma leb_trans (a b c : string) :
  String.leb a b = true -> String.leb b c = true -> String.leb a c = true.
Proof.
  unfold String.leb.
  destruct (String.compare a b) eqn:Eab; try discriminate; intros _.
  - apply String.compare_eq_iff in Eab. subst b. auto.
  - destruct (String.compare b c) eqn:Ebc; try discriminate; intros _.
    + apply String.compare_eq_iff in Ebc. subst c. rewrite Eab. reflexivity.
    + rewrite (compare_lt_trans _ _ _ Eab Ebc). reflexivity.
Qed.

Lemma leb_refl (a : string) : String.leb a a = true.
Proof. destruct (String.leb_total a a); assumption. Qed.

(** *** Binary search *)

Lemma search_loop_fuel (f : nat -> go bool) (fuel i j : nat) :
  (j - i < fuel)%nat -> gcp.search_loop fuel f i j <> None.
Proof.
  revert i j. induction fuel as [|fuel IH]; intros i j H; [lia|].
  cbn [gcp.search_loop]. destruct (i <? j)%nat eqn:E; [|discriminate].
  apply Nat.ltb_lt in E.
  assert (i <= (i + j) / 2 < j)%nat as Hh.
  { split; [apply Nat.div_le_lower_bound | apply Nat.Div0.div_lt_upper_bound]; lia. }
  destruct (f ((i + j) / 2)%nat) as [[|]|msg]; [| |discriminate]; apply IH; lia.
Qed.

Lemma search_loop_range (f : nat -> go bool) (fuel : nat) :
  forall i j m, (i <= j)%nat -> gcp.search_loop fuel f i j = Some (Ret m) ->
                (i <= m <= j)%nat.
Proof.
  induction fuel as [|fuel IH]; intros i j m Hij; [discriminate|].
  cbn [gcp.search_loop]. destruct (i <? j)%nat eqn:E; [|intros [= <-]; lia].
  apply Nat.ltb_lt in E.
  assert (i <= (i + j) / 2 < j)%nat as Hh.
  { split; [apply Nat.div_le_lower_bound | apply Nat.Div0.div_lt_upper_bound]; lia. }
  destruct (f ((i + j) / 2)%nat) as [[|]|msg]; [| |discriminate]; intros H;
    apply IH in H; lia.
Qed.

(** On a test that is monotone on [0, n), the search returns the least index
    at which it holds, or [n]. *)
Lemma search_loop_spec (f : nat -> go bool) (g : nat -> bool) (n : nat) :
  (forall h, (h < n)%nat -> f h = Ret (g h)) ->
  (forall a b, (a <= b)%nat -> (b < n)%nat -> g a = true -> g b = true) ->
  forall fuel i j,
    (i <= j <= n)%nat -> (j - i < fuel)%nat ->
    (forall k, (k < i)%nat -> g k = false) ->
    (forall k, (j <= k < n)%nat -> g k = true) ->
    exists m, gcp.search_loop fuel f i j = Some (Ret m)
              /\ (m <= n)%nat
              /\ (forall k, (k < m)%nat -> g k = false)
              /\ (forall k, (m <= k < n)%nat -> g k = true).
Proof.
  intros Hf Hmono. induction fuel as [|fuel IH]; intros i j Hij Hfuel Hlo Hhi; [lia|].
  cbn [gcp.search_loop]. destruct (i <? j)%nat eqn:E.
  - apply Nat.ltb_lt in E.
    assert (i <= (i + j) / 2 < j)%nat as Hh.
    { split; [apply Nat.div_le_lower_bound | apply Nat.Div0.div_lt_upper_bound]; lia. }
    set (h := ((i + j) / 2)%nat) in *.
    rewrite (Hf h) by lia. destruct (g h) eqn:Eg.
    + apply IH; [lia | lia | exact Hlo |].
      intros k Hk. apply (Hmono h k); [lia | lia | exact Eg].
    + apply IH; [lia | lia | | exact Hhi].
      intros k Hk. destruct (g k) eqn:Ek; [|reflexivity].
      rewrite (Hmono k h) in Eg; [discriminate | lia | lia | exact Ek].
  - apply Nat.ltb_ge in E. assert (i = j) as -> by lia.
    exists j. split; [reflexivity|]. split; [lia|]. split; assumption.
Qed.

(** *** Searching a job by name *)

(** The jobs stand in the order of their names. *)
Fixpoint sortedByName (js : list gcp.Job) : bool :=
  match js with
  | [] => true
  | j :: rest =>
      forallb (fun k => String.leb (gcp.Name j) (gcp.Name k)) rest && sortedByName rest
  end.

Lemma sortedByName_nth (js : list gcp.Job) :
  sortedByName js = true ->
  forall a b x y, (a <= b)%nat -> nth_error js a = Some x -> nth_error js b = Some y ->
                  String.leb (gcp.Name x) (gcp.Name y) = true.
Proof.
  induction js as [|j rest IH]; intros Hs a b x y Hab Ha Hb;
    [destruct a; discriminate|].
  simpl in Hs. apply andb_prop in Hs as [Hj Hrest].
  destruct a as [|a], b as [|b]; simpl in Ha, Hb; try lia.
  - injection Ha as <-. injection Hb as <-. apply leb_refl.
  - injection Ha as <-. rewrite forallb_forall in Hj. apply Hj.
    eapply nth_error_In, Hb.
  - apply (IH Hrest a b); [lia | assumption ..].
Qed.

Lemma find_first {A : Type} (p : A -> bool) (l : list A) :
  forall m x, nth_error l m = Some x -> p x = true ->
              (forall k y, (k < m)%nat -> nth_error l k = Some y -> p y = false) ->
              find p l = Some x.
Proof.
  induction l as [|a l IH]; intros m x Hm Hp Hbefore; [destruct m; discriminate|].
  destruct m as [|m]; simpl in *.
  - injection Hm as ->. rewrite Hp. reflexivity.
  - rewrite (Hbefore 0%nat a) by (reflexivity || lia).
    apply (IH m); [assumption .. |].
    intros k y Hk Hy. apply (Hbefore (S k)); [lia | exact Hy].
Qed.

Lemma find_absent {A : Type} (p : A -> bool) (l : list A) :
  (forall k y, nth_error l k = Some y -> p y = false) -> find p l = None.
Proof.
  induction l as [|a l IH]; intros H; [reflexivity|].
  simpl. rewrite (H 0%nat a eq_refl). apply IH.
  intros k y Hy. apply (H (S k)), Hy.
Qed.

Lemma index_jobStrings (js : list gcp.Job) (i : nat) (j : gcp.Job) :
  nth_error js i = Some j ->
  gcp.index (gcp.jobStrings js) i = Ret (gcp.Name j ++ "/" ++ gcp.Id j).
Proof.
  intros H. unfold gcp.index, gcp.jobStrings.
  rewrite nth_error_map, H. reflexivity.
Qed.

(** On the strings of well-formed jobs that stand in the order of their
    names, [searchDataflowJob] returns the first job of the name, or
    [("", false)] when no job has the name. *)
Theorem searchDataflowJob_sorted (js : list gcp.Job) (name : string) (fuel : nat) :
  forallb wellFormed js = true -> sortedByName js = true ->
  (List.length js < fuel)%nat ->
  gcp.searchDataflowJob fuel (gcp.jobStrings js) name
  = Some (Ret (match find (fun j => String.eqb (gcp.Name j) name) js with
               | Some j => (gcp.Name j ++ "/" ++ gcp.Id j, true)
               | None => ("", false)
               end)).
Proof.
  intros Hwf Hsorted Hfuel.
  set (g := fun i => match nth_error js i with
                     | Some j => String.leb name (gcp.Name j)
                     | None => false
                     end).
  assert (Hlen : List.length (gcp.jobStrings js) = List.length js)
    by (unfold gcp.jobStrings; apply length_map).
  assert (Hsplit : forall i j, nth_error js i = Some j ->
            gcp.splitDataflowID (gcp.Name j ++ "/" ++ gcp.Id j)
            = Ret (gcp.Name j, gcp.Id j)).
  { intros i j Hj. apply splitDataflowID_wellFormed.
    rewrite forallb_forall in Hwf. apply Hwf. eapply nth_error_In, Hj. }
  unfold gcp.searchDataflowJob, gcp.Search. rewrite Hlen.
  match goal with
  | |- context [gcp.search_loop fuel ?probe 0%nat _] => set (f := probe)
  end.
  assert (Hf : forall h, (h < List.length js)%nat -> f h = Ret (g h)).
  { intros h Hh. unfold f, g.
    destruct (nth_error js h) as [j|] eqn:Ej;
      [|apply nth_error_None in Ej; lia].
    rewrite (index_jobStrings _ _ _ Ej), (Hsplit _ _ Ej). reflexivity. }
  assert (Hmono : forall a b, (a <= b)%nat -> (b < List.length js)%nat ->
                              g a = true -> g b = true).
  { intros a b Hab Hb. unfold g.
    destruct (nth_error js a) as [x|] eqn:Ea; [|discriminate].
    destruct (nth_error js b) as [y|] eqn:Eb; [|apply nth_error_None in Eb; lia].
    intros Hx. apply (leb_trans _ _ _ Hx).
    apply (sortedByName_nth js Hsorted a b); assumption. }
  destruct (search_loop_spec f g (List.length js) Hf Hmono fuel 0%nat (List.length js))
    as (m & -> & Hm & Hlo & Hhi); [lia | lia | intros; lia | intros; lia |].
  assert (Hbefore : forall k y, (k < m)%nat -> nth_error js k = Some y ->
                                String.eqb (gcp.Name y) name = false).
  { intros k y Hk Hy. specialize (Hlo k Hk). unfold g in Hlo. rewrite Hy in Hlo.
    destruct (String.eqb (gcp.Name y) name) eqn:E; [|reflexivity].
    apply String.eqb_eq in E. rewrite E, leb_refl in Hlo. discriminate. }
  destruct (m <? List.length js)%nat eqn:E.
  - apply Nat.ltb_lt in E.
    destruct (nth_error js m) as [jm|] eqn:Em; [|apply nth_error_None in Em; lia].
    rewrite (index_jobStrings _ _ _ Em), (Hsplit _ _ Em).
    destruct (String.eqb (gcp.Name jm) name) eqn:Ename.
    + rewrite (find_first _ js m jm Em Ename Hbefore). reflexivity.
    + rewrite find_absent; [reflexivity|].
      intros k y Hy. destruct (String.eqb (gcp.Name y) name) eqn:Ey; [|reflexivity].
      apply String.eqb_eq in Ey.
      assert (Hk : (k < List.length js)%nat) by (apply nth_error_Some; congruence).
      assert (m <= k)%nat as Hmk.
      { destruct (Nat.le_gt_cases m k) as [H|H]; [exact H|].
        specialize (Hbefore k y H Hy). rewrite Ey, String.eqb_refl in Hbefore.
        discriminate. }
      pose proof (sortedByName_nth js Hsorted m k jm y Hmk Em Hy) as Hle.
      pose proof (Hhi m (conj (Nat.le_refl m) E)) as Hge. unfold g in Hge.
      rewrite Em in Hge. rewrite Ey in Hle.
      rewrite (String.leb_antisym _ _ Hle Hge), String.eqb_refl in Ename.
      discriminate.
  - apply Nat.ltb_ge in E. rewrite find_absent; [reflexivity|].
    intros k y Hy. apply (Hbefore k y); [|exact Hy].
    assert ((k < List.length js)%nat) by (apply nth_error_Some; congruence). lia.
Qed.

Lemma searchDataflowJob_ends (jobs : list string) (name : string) (fuel : nat) :
  (List.length jobs < fuel)%nat -> gcp.searchDataflowJob fuel jobs name <> None.
Proof.
  intros Hfuel. unfold gcp.searchDataflowJob, gcp.Search.
  match goal with
  | |- context [gcp.search_loop fuel ?probe 0%nat _] => set (f := probe)
  end.
  pose proof (search_loop_fuel f fuel 0 (List.length jobs)) as Hends.
  destruct (gcp.search_loop fuel f 0 (List.length jobs)) as [[idx|msg]|];
    [| discriminate | exfalso; apply Hends; [lia | reflexivity]].
  destruct (idx <? List.length jobs)%nat; [|discriminate].
  destruct (gcp.index jobs idx) as [job|msg]; [|discriminate].
  destruct (gcp.splitDataflowID job) as [[x jobID]|msg]; [|discriminate].
  destruct (String.eqb x name); discriminate.
Qed.

Lemma searchDataflowJob_answer (jobs : list string) (name : string) (fuel : nat)
      (job : string) (found : bool) :
  gcp.searchDataflowJob fuel jobs name = Some (Ret (job, found)) ->
  if found
  then In job jobs /\ exists jobID, gcp.splitDataflowID job = Ret (name, jobID)
  else job = "".
Proof.
  unfold gcp.searchDataflowJob, gcp.Search.
  match goal with
  | |- context [gcp.search_loop fuel ?probe 0%nat _] => set (f := probe)
  end.
  destruct (gcp.search_loop fuel f 0 (List.length jobs)) as [[idx|msg]|];
    try discriminate.
  destruct (idx <? List.length jobs)%nat; [|intros [= <- <-]; reflexivity].
  unfold gcp.index. destruct (nth_error jobs idx) as [job'|] eqn:Ejob; [|discriminate].
  destruct (gcp.splitDataflowID job') as [[x jobID]|msg] eqn:Esplit; [|discriminate].
  destruct (String.eqb x name) eqn:Ex; intros [= <- <-]; [|reflexivity].
  apply String.eqb_eq in Ex. subst x. split; [eapply nth_error_In, Ejob|].
  exists jobID. exact Esplit.
Qed.

(** Whatever the list, [searchDataflowJob] ends within [len(jobs)] steps of
    the search, and an answer [(job, true)] is an element of the list whose
    name part is the name asked for; the answer [false] comes with the empty
    string. *)
Theorem searchDataflowJob_sound (jobs : list string) (name : string) (fuel : nat) :
  (List.length jobs < fuel)%nat ->
  gcp.searchDataflowJob fuel jobs name <> None
  /\ (forall job found,
         gcp.searchDataflowJob fuel jobs name = Some (Ret (job, found)) ->
         if found
         then In job jobs /\ exists jobID, gcp.splitDataflowID job = Ret (name, jobID)
         else job = "").
Proof.
  intros Hfuel. split; [apply searchDataflowJob_ends, Hfuel|].
  intros job found. apply searchDataflowJob_answer.
Qed.

(** A job string that [searchDataflowJob] has found makes a job:
    [newDataflowJob] does not panic on it, and the job has the name that was
    searched and an id without separator. *)
Theorem newDataflowJob_of_found (jobs : list string) (name : string) (fuel : nat)
        (job : string) :
  gcp.searchDataflowJob fuel jobs name = Some (Ret (job, true)) ->
  exists cli,
    gcp.newDataflowJob job = Ret cli
    /\ gcp.dataflowJob_Name cli = name
    /\ job = gcp.name cli ++ "/" ++ gcp.id cli
    /\ plain (gcp.id cli) = true.
Proof.
  intros H. apply searchDataflowJob_answer in H as (_ & jobID & Hsplit).
  unfold gcp.newDataflowJob. rewrite Hsplit.
  exists {| gcp.name := name; gcp.id := jobID |}. split; [reflexivity|].
  split; [reflexivity|]. simpl.
  unfold gcp.splitDataflowID in Hsplit.
  destruct (gcp.Split job "/") as [|a [|b [|c l]]] eqn:ES; try discriminate Hsplit.
  simpl in Hsplit. injection Hsplit as -> ->.
  split; [apply Split_join, ES|].
  pose proof (Split_pieces job) as HP. rewrite ES in HP.
  inversion HP as [|? ? _ HP']; subst. inversion HP' as [|? ? Hb _]; subst. exact Hb.
Qed.

End JobFacts.

(** *** The jobs of a project *)

Module jobs.

Local Open Scope string_scope.

Definition listed : list gcp.Job :=
  [gcp.mkJob "ingest" "2019-03-01_a"; gcp.mkJob "report" "2019-03-02_b";
   gcp.mkJob "report" "2019-03-05_c"; gcp.mkJob "wordcount" "2019-02-11_d"].

End jobs.

Lemma splitDataflowID_one_separator_witness :
  (exists name jobID,
      gcp.splitDataflowID "wordcount/2019-02-11_d" = Ret (name, jobID)
      /\ "wordcount/2019-02-11_d"%string = (name ++ "/" ++ jobID)%string
      /\ plain name = true /\ plain jobID = true)
  /\ gcp.splitDataflowID "gcp/wordcount/2019-02-11_d"
     = Panic "newDataflowJob given an invalid name/id pair"
  /\ gcp.splitDataflowID "wordcount"
     = Panic "newDataflowJob given an invalid name/id pair".
Proof.
  split; [|split].
  - apply (proj1 (splitDataflowID_one_separator "wordcount/2019-02-11_d")). reflexivity.
  - apply (proj2 (splitDataflowID_one_separator "gcp/wordcount/2019-02-11_d")).
    simpl. lia.
  - apply (proj2 (splitDataflowID_one_separator "wordcount")). simpl. lia.
Defined.

Lemma splitDataflowID_jobStrings_witness :
  map gcp.splitDataflowID (gcp.jobStrings jobs.listed)
  = map (fun job => Ret (gcp.Name job, gcp.Id job)) jobs.listed.
Proof.
  apply (proj1 (splitDataflowID_jobStrings jobs.listed)). reflexivity.
Defined.

Lemma searchDataflowJob_sorted_witness :
  gcp.searchDataflowJob 5 (gcp.jobStrings jobs.listed) "report"
  = Some (Ret ("report/2019-03-02_b"%string, true))
  /\ gcp.searchDataflowJob 5 (gcp.jobStrings jobs.listed) "rep"
     = Some (Ret (EmptyString, false)).
Proof.
  split.
  - apply (searchDataflowJob_sorted jobs.listed "report" 5); [reflexivity .. | simpl; lia].
  - apply (searchDataflowJob_sorted jobs.listed "rep" 5); [reflexivity .. | simpl; lia].
Defined.

Lemma searchDataflowJob_sound_witness :
  gcp.searchDataflowJob 3 ["report/7"; "ingest/3"]%string "ingest" <> None
  /\ (forall job found,
         gcp.searchDataflowJob 3 ["report/7"; "ingest/3"]%string "ingest"
         = Some (Ret (job, found)) ->
         if found
         then In job ["report/7"; "ingest/3"]%string
              /\ exists jobID, gcp.splitDataflowID job = Ret ("ingest"%string, jobID)
         else job = EmptyString).
Proof.
  apply (searchDataflowJob_sound ["report/7"; "ingest/3"]%string "ingest" 3). simpl. lia.
Defined.

Lemma newDataflowJob_of_found_witness :
  exists cli,
    gcp.newDataflowJob "report/2019-03-02_b" = Ret cli
    /\ gcp.dataflowJob_Name cli = "report"%string
    /\ "report/2019-03-02_b"%string = (gcp.name cli ++ "/" ++ gcp.id cli)%string
    /\ plain (gcp.id cli) = true.
Proof.
  apply (newDataflowJob_of_found (gcp.jobStrings jobs.listed) "report" 5
           "report/2019-03-02_b").
  reflexivity.
Defined.

(** When the names are not in order the search can miss a job that is
    listed. *)
Example searchDataflowJob_unsorted :
  gcp.searchDataflowJob 3 ["report/7"; "ingest/3"]%string "ingest"
  = Some (Ret (EmptyString, false)).
Proof. reflexivity. Qed.
